(** * Transfer_Learning: TCA, JDA and CORAL

    A shallow embedding of the notebooks [JDA.ipynb] and [TCA.ipynb]
    (functions [kernel], [TCA.fit], [TCA.fit_predict], [JDA.fit_predict]),
    of their first versions under [shallow/], and of [CORAL.ipynb]
    ([CORAL.fit], [CORAL.fit_predict]).

    Numbers.  numpy's float64 arrays are modelled over the real numbers
    [R]: an array is a list of rows of reals, a column vector of shape
    (n, 1) is a list of reals.  Statements that the source makes "up to
    floating-point tolerance" are read as equalities of exact arithmetic.
    Python's [int] counts ([len(...)], [ns], [nt], [C]) are natural numbers,
    class labels are integers.

    Exceptions.  A Python call either returns or raises: [result].  The
    exceptions raised by Python itself on the paths below are modelled
    ([ZeroDivisionError] of [1 / 0] on ints, [IndexError] of an index
    assignment out of range, [TypeError], [ValueError], [AttributeError] of
    [None.T], [UnboundLocalError]); numpy's refusal of operands whose shapes
    do not conform is not: the array functions are total on lists and the
    operands are taken to conform, as they do for every input the notebooks
    load.  A theorem that names the outcome of a call on arbitrary arrays
    carries that as a hypothesis on their shapes ([of_shape]).

    Collaborators.  The eigensolver [scipy.linalg.eig] is a parameter of
    both solvers, [scipy.linalg.fractional_matrix_power] one of CORAL.  The 1-nearest-neighbour classifier, the accuracy score
    and the two Gram matrices of scikit-learn are defined from their
    documented contracts.  The progress line that JDA prints in every pass
    is left out.

    The file has three parts: the functions over values, the same functions
    over a heap of arrays (references, allocation, updates in place), and
    the properties. *)

From Stdlib Require Import String Ascii.
From Stdlib Require Import Reals List ZArith Lia Lra Bool Arith FinFun Sorted Permutation.
Import ListNotations.

Set Implicit Arguments.

(** ** Python results *)

Inductive exn : Type :=
| ZeroDivisionError
| IndexError
| TypeError
| ValueError
| AttributeError
| UnboundLocalError
| LinAlgError.

Inductive result (A : Type) : Type :=
| Ok (a : A)
| Raise (e : exn).

Arguments Ok {A} a.
Arguments Raise {A} e.

Definition bind {A B : Type} (m : result A) (k : A -> result B) : result B :=
  match m with
  | Ok a => k a
  | Raise e => Raise e
  end.

Declare Scope py_scope.
Delimit Scope py_scope with py.
Notation "x <- m ;; k" := (bind m (fun x => k))
  (at level 61, m at next level, right associativity) : py_scope.
Notation "' p <- m ;; k" := (bind m (fun p => k))
  (at level 61, p pattern, m at next level, right associativity) : py_scope.

Local Open Scope py_scope.
Local Open Scope R_scope.

(** ** numpy arrays over the reals *)

Definition vec := list R.
Definition matrix := list (list R).

(** A name bound first to the int [0] and later to an array ([N = 0],
    [N = N + np.dot(e, e.T)]): numpy broadcasts the scalar. *)
Inductive num : Type :=
| Sc (x : R)
| Mat (A : matrix).

Definition ones (k : nat) : vec := repeat 1 k.
Definition zeros (k : nat) : vec := repeat 0 k.

(** [c * v] for a Python float [c] and an array [v]. *)
Definition smul (c : R) (v : vec) : vec := map (fun x => c * x) v.

(** [M * c] and [M / c], element by element. *)
Definition mscale (A : matrix) (c : R) : matrix := map (map (fun x => x * c)) A.
Definition mdiv (A : matrix) (c : R) : matrix := map (map (fun x => x / c)) A.

Fixpoint zip_with {A B C : Type} (f : A -> B -> C) (l : list A) (l' : list B) : list C :=
  match l, l' with
  | a :: t, b :: t' => f a b :: zip_with f t t'
  | _, _ => []
  end.

(** [A + B] for arrays of the same shape (numpy refuses shapes that do not
    broadcast). *)
Definition madd (A B : matrix) : matrix := zip_with (zip_with Rplus) A B.

Definition np_add (a b : num) : num :=
  match a, b with
  | Sc x, Sc y => Sc (x + y)
  | Sc x, Mat B => Mat (map (map (fun y => x + y)) B)
  | Mat A, Sc y => Mat (map (map (fun x => x + y)) A)
  | Mat A, Mat B => Mat (madd A B)
  end.

(** [e * e.T] for [e] of shape (n, 1) (broadcasting), and [np.dot(e, e.T)]:
    both have entry [e_i * e_j] at (i, j). *)
Definition outer (u v : vec) : matrix := map (fun x => map (fun y => x * y) v) u.

Definition sum (v : vec) : R := fold_right Rplus 0 v.
Definition sumsq (v : vec) : R := sum (map (fun x => x * x) v).

(** [np.linalg.norm(M, 'fro')]. *)
Definition fro (A : matrix) : R := sqrt (sum (map sumsq A)).

(** [X.shape] of a two-dimensional array. *)
Definition shape (A : matrix) : nat * nat := (length A, length (hd [] A)).

Definition col (A : matrix) (j : nat) : vec := map (fun row => nth j row 0) A.

(** [A.T].  A list of rows does not record the number of rows of an array
    without columns, nor the number of columns of an array without rows:
    for such an array [A.T] is the empty list. *)
Definition transpose (A : matrix) : matrix := map (col A) (seq 0 (snd (shape A))).

(** [np.hstack((A, B))].  numpy refuses operands whose numbers of rows
    differ; the list function stops at the shorter one, and a theorem that
    needs the operands to conform says so ([of_shape] below). *)
Definition hstack (A B : matrix) : matrix := zip_with (@app R) A B.

(** [np.linalg.norm(X, axis=0)]: the Euclidean norm of every column. *)
Definition col_norms (A : matrix) : vec :=
  map (fun j => sqrt (sumsq (col A j))) (seq 0 (snd (shape A))).

(** [np.true_divide(X, v)] and [X /= v] for a row [v]: column [j] is
    divided by [v_j]. *)
Definition div_cols (A : matrix) (v : vec) : matrix := map (fun row => zip_with Rdiv row v) A.

Definition dotp (u v : vec) : R := sum (zip_with Rmult u v).

(** [np.dot(A, B)]. *)
Definition dot (A B : matrix) : matrix :=
  map (fun row => map (fun j => dotp row (col B j)) (seq 0 (snd (shape B)))) A.

(** [np.linalg.multi_dot([A, B, C])]. *)
Definition multi_dot (A B C : matrix) : matrix := dot (dot A B) C.

Definition eye (k : nat) : matrix :=
  map (fun i => map (fun j => if Nat.eqb i j then 1 else 0) (seq 0 k)) (seq 0 k).

Definition full (k l : nat) (x : R) : matrix := repeat (repeat x l) k.

Definition msub (A B : matrix) : matrix := zip_with (zip_with Rminus) A B.

(** [a / k] for a Python number [a] and a Python int [k]. *)
Definition py_div (a : R) (k : nat) : result R :=
  if Nat.eqb k 0 then Raise ZeroDivisionError else Ok (a / INR k).

(** [np.where(l == c)[0]]: the positions of [c] in [l], ascending. *)
Fixpoint where_from (i : nat) (c : Z) (l : list Z) : list nat :=
  match l with
  | [] => []
  | y :: t => if Z.eqb y c then i :: where_from (S i) c t else where_from (S i) c t
  end.

Definition where_eq (c : Z) (l : list Z) : list nat := where_from 0 c l.

Fixpoint set_nth (i : nat) (x : R) (v : vec) : vec :=
  match v, i with
  | [], _ => []
  | _ :: t, O => x :: t
  | y :: t, S i' => y :: set_nth i' x t
  end.

(** [e[idx] = x] for an index array [idx]: numpy checks every index
    before it writes. *)
Definition assign (idx : list nat) (x : R) (v : vec) : result vec :=
  if forallb (fun i => Nat.ltb i (length v)) idx
  then Ok (fold_left (fun acc i => set_nth i x acc) idx v)
  else Raise IndexError.

(** [np.isinf]: no real number is infinite, the division that would have
    produced an infinity on floats is [py_div]. *)
Definition isinf (x : R) : bool := false.

(** [e[np.isinf(e)] = 0]. *)
Definition zero_inf (v : vec) : vec := map (fun x => if isinf x then 0 else x) v.

(** [len(np.unique(Ys))]. *)
Definition n_unique (l : list Z) : nat := length (nodup Z.eq_dec l).

(** [range(1, C + 1)]. *)
Definition class_range (C : nat) : list Z := map Z.of_nat (seq 1 C).

(** The marginal weighting vector, [e] of JDA and [Q] of TCA. *)
Definition marginal (ns nt : nat) : result vec :=
  a <- py_div 1 ns ;;
  b <- py_div (-1) nt ;;
  Ok (smul a (ones ns) ++ smul b (ones nt)).

(** ** Library functions the notebooks call *)

(** [sklearn.metrics.pairwise.linear_kernel(A, B)] (rows are samples).
    scikit-learn refuses arrays without a sample or a feature and arrays
    whose numbers of features differ; the operands are taken to conform. *)
Definition linear_kernel (A B : matrix) : matrix :=
  map (fun a => map (fun b => dotp a b) B) A.

Definition sqdist (u v : vec) : R := sumsq (zip_with Rminus u v).

(** [sklearn.metrics.pairwise.rbf_kernel(A, B, gamma)], for operands that
    conform as those of [linear_kernel]. *)
Definition rbf_kernel (A B : matrix) (gamma : R) : matrix :=
  map (fun a => map (fun b => exp (- gamma * sqdist a b)) B) A.

(** [np.argsort(w)]: the positions of [w] in ascending order of value;
    equal values, whose order numpy leaves to its sorting algorithm, stay in
    order of position. *)
Fixpoint insert_by (w : vec) (i : nat) (l : list nat) : list nat :=
  match l with
  | [] => [i]
  | j :: l' =>
      if Rle_dec (nth i w 0) (nth j w 0) then i :: j :: l' else j :: insert_by w i l'
  end.

Definition argsort (w : vec) : list nat :=
  fold_right (insert_by w) [] (seq 0 (length w)).

(** [ind[:k]] for a Python int [k]. *)
Definition slice_to {A : Type} (k : Z) (l : list A) : list A :=
  if (0 <=? k)%Z then firstn (Z.to_nat k) l
  else firstn (length l - Z.to_nat (- k)) l.

(** [V[:, idx]]. *)
Definition take_cols (V : matrix) (idx : list nat) : matrix :=
  map (fun row => map (fun j => nth j row 0) idx) V.

(** [ind = np.argsort(w); A = V[:, ind[:dim]]]. *)
Definition basis (dim : Z) (w : vec) (V : matrix) : matrix :=
  let ind := argsort w in
  take_cols V (slice_to dim ind).

(** [KNeighborsClassifier(n_neighbors=1).fit(X, y).predict(Xq)]: the label
    of the closest training row, the first one among equally close rows.
    [fit] refuses an empty training set, one without features and one whose
    labels do not match its rows; [predict] refuses an empty query. *)
Fixpoint nearest (x : vec) (best : vec * Z) (train : list (vec * Z)) : Z :=
  match train with
  | [] => snd best
  | (u, y) :: t =>
      if Rlt_dec (sqdist x u) (sqdist x (fst best))
      then nearest x (u, y) t
      else nearest x best t
  end.

Definition knn_predict (X : matrix) (y : list Z) (Xq : matrix) : result (list Z) :=
  if negb (Nat.eqb (length X) (length y)) then Raise ValueError
  else if Nat.eqb (snd (shape X)) 0 then Raise ValueError
  else if Nat.eqb (length Xq) 0 then Raise ValueError
  else match combine X y with
       | [] => Raise ValueError
       | b :: t => Ok (map (fun x => nearest x b t) Xq)
       end.

Fixpoint n_equal (a b : list Z) : nat :=
  match a, b with
  | x :: a', y :: b' => ((if Z.eqb x y then 1 else 0) + n_equal a' b')%nat
  | _, _ => O
  end.

(** [sklearn.metrics.accuracy_score(y_true, y_pred)]. *)
Definition accuracy_score (y_true : option (list Z)) (y_pred : list Z) : result R :=
  match y_true with
  | None => Raise TypeError
  | Some yt =>
      if Nat.eqb (length yt) (length y_pred)
      then Ok (INR (n_equal yt y_pred) / INR (length yt))
      else Raise ValueError
  end.

(** [not ker]: [None] and the empty string are false. *)
Definition falsy (ker : option string) : bool :=
  match ker with
  | None => true
  | Some s => String.eqb s ""
  end.

Definition is_str (ker : option string) (s : string) : bool :=
  match ker with
  | None => false
  | Some k => String.eqb k s
  end.

(** The generalized eigensolver [scipy.linalg.eig(a, b)] is a parameter of
    both solvers: it returns the eigenvalues [w] and the matrix [V] whose
    column [j] is the eigenvector of [w_j] (real parts), or raises. *)
Definition eigensolver : Type := matrix -> matrix -> result (vec * matrix).

(** ** TCA.ipynb *)

Module TCA.

(** [kernel(ker, X1, X2, gamma)]; [None] is the value of an unbound [K]. *)
Definition kernel (ker : option string) (X1 : matrix) (X2 : option matrix) (gamma : R)
  : result (option matrix) :=
  let K := None in
  if falsy ker || is_str ker "primal" then Ok (Some X1)
  else if is_str ker "linear" then
    match X2 with
    | Some B => Ok (Some (linear_kernel (transpose X1) (transpose B)))
    | None => Ok (Some (linear_kernel (transpose X1) (transpose X1)))
    end
  else if is_str ker "rbf" then
    match X2 with
    | Some B => Ok (Some (rbf_kernel (transpose X1) (transpose B) gamma))
    | None => Ok (Some (rbf_kernel (transpose X1) (transpose X1) gamma))
    end
  else Ok K.

Record self : Type := init
  { kernel_type : option string;
    dim : Z;
    lamb : R;
    gamma : R }.

(** [TCA()] with the defaults of [__init__]. *)
Definition default : self := init (Some "primal"%string) 30 1 1.

(** [Q = ...; M = Q * Q.T; M = M / np.linalg.norm(M, 'fro')]. *)
Definition alignment (ns nt : nat) : result matrix :=
  Q <- marginal ns nt ;;
  let M := outer Q Q in
  Ok (mdiv M (fro M)).

Section Fit.

Variable eig : eigensolver.

Definition fit (s : self) (Xs Xt : matrix) : result (matrix * matrix) :=
  let X := hstack (transpose Xs) (transpose Xt) in
  let X := div_cols X (col_norms X) in
  let '(m, n) := shape X in
  let '(ns, nt) := (length Xs, length Xt) in
  M <- alignment ns nt ;;
  h <- py_div 1 n ;;
  let H := msub (eye n) (map (smul h) (full n n 1)) in
  oK <- kernel (kernel_type s) X None (gamma s) ;;
  let n_eye := if is_str (kernel_type s) "primal" then m else n in
  match oK with
  | None => Raise AttributeError
  | Some K =>
      let a := madd (multi_dot K M (transpose K)) (map (smul (lamb s)) (eye n_eye)) in
      let b := multi_dot K H (transpose K) in
      '(w, V) <- eig a b ;;
      let A := basis (dim s) w V in
      let Z := dot (transpose A) K in
      let Z := div_cols Z (col_norms Z) in
      Ok (transpose (map (firstn ns) Z), transpose (map (skipn ns) Z))
  end.

Definition fit_predict (s : self) (Xs : matrix) (Ys : list Z) (Xt : matrix)
  (Yt : option (list Z)) : result (R * list Z) :=
  '(Xs_new, Xt_new) <- fit s Xs Xt ;;
  y_pred <- knn_predict Xs_new Ys Xt_new ;;
  acc <- accuracy_score Yt y_pred ;;
  Ok (acc, y_pred).

End Fit.

End TCA.

(** ** JDA.ipynb *)

Module JDA.

(** [if X2:] on an array: numpy refuses to decide the truth of an array of
    more than one element. *)
Definition truth (X2 : option matrix) : result bool :=
  match X2 with
  | None => Ok false
  | Some B =>
      match concat B with
      | [] => Ok false
      | [x] => Ok (if Req_dec_T x 0 then false else true)
      | _ => Raise ValueError
      end
  end.

(** [kernel(ker, X1, X2, gamma)]; [None] is the value of an unbound [K]. *)
Definition kernel (ker : option string) (X1 : matrix) (X2 : option matrix) (gamma : R)
  : result (option matrix) :=
  let K := None in
  if falsy ker || is_str ker "primal" then Ok (Some X1)
  else if is_str ker "linear" then
    t <- truth X2 ;;
    match t, X2 with
    | true, Some B => Ok (Some (linear_kernel (transpose X1) (transpose B)))
    | _, _ => Ok (Some (linear_kernel (transpose X1) (transpose X1)))
    end
  else if is_str ker "rbf" then
    t <- truth X2 ;;
    match t, X2 with
    | true, Some B => Ok (Some (rbf_kernel (transpose X1) (transpose B) gamma))
    | _, _ => Ok (Some (rbf_kernel (transpose X1) (transpose X1) gamma))
    end
  else Ok K.

Record self : Type := init
  { kernel_type : option string;
    dim : Z;
    lamb : R;
    gamma : R;
    T : nat }.

(** [JDA()] with the defaults of [__init__]. *)
Definition default : self := init (Some "primal"%string) 30 1 1 10.

(** *** The alignment matrix: the loop body up to
    [M = M / np.linalg.norm(M, 'fro')] *)

(** One pass of [for c in range(1, C + 1)]: the vector rebound to [e]. *)
Definition class_vector (n ns : nat) (Ys pseudo : list Z) (c : Z) : result vec :=
  let e := zeros n in
  let tt := where_eq c Ys in
  x <- py_div 1 (length tt) ;;
  e <- assign tt x e ;;
  let ind := where_eq c pseudo in
  let inds := map (fun item => (item + ns)%nat) ind in
  y <- py_div (-1) (length ind) ;;
  e <- assign inds y e ;;
  Ok (zero_inf e).

(** The class loop threads [e] (rebound in every pass) and [N]. *)
Fixpoint class_loop (n ns : nat) (Ys pseudo : list Z) (cs : list Z) (e : vec) (N : num)
  : result (vec * num) :=
  match cs with
  | [] => Ok (e, N)
  | c :: cs' =>
      e' <- class_vector n ns Ys pseudo c ;;
      class_loop n ns Ys pseudo cs' e' (np_add N (Mat (outer e' e')))
  end.

(** [M0 = e * e.T * C]. *)
Definition M0_of (e : vec) (C : nat) : matrix := mscale (outer e e) (INR C).

Definition as_matrix (a : num) : matrix :=
  match a with
  | Mat A => A
  | Sc x => [[x]]
  end.

(** [N = 0; M0 = ...; if ...: for c ...; M = M0 + N]: the value of [e]
    after the pass and the matrix [M] before normalisation. *)
Definition alignment_raw (n ns nt C : nat) (Ys : list Z) (e : vec) (Y_tar_pseudo : option (list Z))
  : result (vec * matrix) :=
  let N := Sc 0 in
  let M0 := M0_of e C in
  '(e', N') <-
    match Y_tar_pseudo with
    | Some y =>
        if Nat.eqb (length y) nt
        then class_loop n ns Ys y (class_range C) e N
        else Ok (e, N)
    | None => Ok (e, N)
    end ;;
  Ok (e', as_matrix (np_add (Mat M0) N')).

(** ... followed by [M = M / np.linalg.norm(M, 'fro')]. *)
Definition alignment (n ns nt C : nat) (Ys : list Z) (e : vec) (Y_tar_pseudo : option (list Z))
  : result (vec * matrix) :=
  '(e', M) <- alignment_raw n ns nt C Ys e Y_tar_pseudo ;;
  Ok (e', mdiv M (fro M)).

(** The names [fit_predict] rebinds inside its loop.  [acc], [Xs_new] and
    [Xt_new] are unbound before the first pass. *)
Record locals : Type := Locals
  { e : vec;
    M : num;
    Y_tar_pseudo : option (list Z);
    new : option (matrix * matrix);
    acc : option R;
    list_acc : list R }.

Section FitPredict.

Variable eig : eigensolver.

(** The body of [for t in range(self.T)]. *)
Definition iteration (s : self) (X H : matrix) (m n ns nt C : nat) (Ys : list Z)
  (Yt : option (list Z)) (st : locals) : result locals :=
  '(e', M) <- alignment n ns nt C Ys (e st) (Y_tar_pseudo st) ;;
  oK <- kernel (kernel_type s) X None (gamma s) ;;
  let n_eye := if is_str (kernel_type s) "primal" then m else n in
  match oK with
  | None => Raise AttributeError
  | Some K =>
      let a := madd (multi_dot K M (transpose K)) (map (smul (lamb s)) (eye n_eye)) in
      let b := multi_dot K H (transpose K) in
      '(w, V) <- eig a b ;;
      let A := basis (dim s) w V in
      let Z := dot (transpose A) K in
      let Z := div_cols Z (col_norms Z) in
      let '(Xs_new, Xt_new) := (transpose (map (firstn ns) Z), transpose (map (skipn ns) Z)) in
      y <- knn_predict Xs_new Ys Xt_new ;;
      acc <- accuracy_score Yt y ;;
      Ok (Locals e' (Mat M) (Some y) (Some (Xs_new, Xt_new)) (Some acc) (list_acc st ++ [acc]))
  end.

(** [k] passes of the loop. *)
Fixpoint loop (k : nat) (body : locals -> result locals) (st : locals) : result locals :=
  match k with
  | O => Ok st
  | S k' => st' <- body st ;; loop k' body st'
  end.

(** [fit_predict] up to its [return]: the locals after the loop. *)
Definition run (s : self) (Xs : matrix) (Ys : list Z) (Xt : matrix) (Yt : option (list Z))
  : result locals :=
  let list_acc := [] in
  let X := hstack (transpose Xs) (transpose Xt) in
  let X := div_cols X (col_norms X) in
  let '(m, n) := shape X in
  let '(ns, nt) := (length Xs, length Xt) in
  e <- marginal ns nt ;;
  let C := n_unique Ys in
  h <- py_div 1 n ;;
  let H := msub (eye n) (map (smul h) (full n n 1)) in
  let M := Sc 0 in
  let Y_tar_pseudo := None in
  loop (T s) (iteration s X H m n ns nt C Ys Yt) (Locals e M Y_tar_pseudo None None list_acc).

(** [return acc, Y_tar_pseudo, list_acc]. *)
Definition fit_predict (s : self) (Xs : matrix) (Ys : list Z) (Xt : matrix)
  (Yt : option (list Z)) : result (R * option (list Z) * list R) :=
  st <- run s Xs Ys Xt Yt ;;
  match acc st with
  | None => Raise UnboundLocalError
  | Some a => Ok (a, Y_tar_pseudo st, list_acc st)
  end.

End FitPredict.

End JDA.


(** ** The same functions over a heap of arrays

    To tell what a call does to the arrays of its caller, the functions are
    written a second time with every array the source names (float and label
    arrays) as an object on a heap: a numpy call that returns a new array
    allocates, a name bound to an existing array or to a view of it
    ([K = X1], [Xs.T], [Z[:, :ns].T], [Ys.ravel()]) holds the reference of
    that array, and an update in place ([e[idx] = x], [Z /= v],
    [list_acc.append(acc)]) writes to the object.  The arithmetic is that of
    the functions above.  Boolean and index arrays ([tt], [yy], [ind],
    [inds], [w]) are consumed where they are built and stay values. *)

Module Heap.

Inductive obj : Type :=
| F2 (A : matrix)
| F1 (v : vec)
| L1 (l : list Z).

Definition ref : Type := nat.
Definition heap : Type := list obj.

Definition ST (A : Type) : Type := heap -> result A * heap.

Definition ret {A : Type} (a : A) : ST A := fun h => (Ok a, h).

Definition bind {A B : Type} (m : ST A) (k : A -> ST B) : ST B :=
  fun h =>
    match m h with
    | (Ok a, h') => k a h'
    | (Raise ex, h') => (Raise ex, h')
    end.

(** A computation that touches no array. *)
Definition lift {A : Type} (r : result A) : ST A := fun h => (r, h).

(** A new object. *)
Definition alloc (o : obj) : ST ref := fun h => (Ok (length h), h ++ [o]).

Fixpoint set_obj (r : ref) (o : obj) (h : heap) : heap :=
  match h, r with
  | [], _ => []
  | _ :: t, O => o :: t
  | x :: t, S r' => x :: set_obj r' o t
  end.

(** An update of the object in place. *)
Definition write (r : ref) (o : obj) : ST unit := fun h => (Ok tt, set_obj r o h).

(** Reading an array through a reference; a reference to an object of
    another kind is a [TypeError]. *)
Definition read2 (r : ref) : ST matrix :=
  fun h => match nth_error h r with
           | Some (F2 A) => (Ok A, h)
           | _ => (Raise TypeError, h)
           end.

Definition read1 (r : ref) : ST vec :=
  fun h => match nth_error h r with
           | Some (F1 v) => (Ok v, h)
           | _ => (Raise TypeError, h)
           end.

Definition readl (r : ref) : ST (list Z) :=
  fun h => match nth_error h r with
           | Some (L1 l) => (Ok l, h)
           | _ => (Raise TypeError, h)
           end.

End Heap.

Declare Scope heap_scope.
Delimit Scope heap_scope with heap.
Notation "x <- m ;; k" := (Heap.bind m (fun x => k))
  (at level 61, m at next level, right associativity) : heap_scope.
Notation "' p <- m ;; k" := (Heap.bind m (fun p => k))
  (at level 61, p pattern, m at next level, right associativity) : heap_scope.

Module HeapTCA.

Import Heap.
Local Open Scope heap_scope.

(** [kernel]: [K = X1] binds [K] to the array [X1] itself. *)
Definition kernel (ker : option string) (X1 : ref) (X2 : option ref) (gamma : R)
  : ST (option ref) :=
  let K := None in
  if falsy ker || is_str ker "primal" then ret (Some X1)
  else if is_str ker "linear" then
    x1 <- read2 X1 ;;
    match X2 with
    | Some B =>
        x2 <- read2 B ;;
        K <- alloc (F2 (linear_kernel (transpose x1) (transpose x2))) ;;
        ret (Some K)
    | None =>
        K <- alloc (F2 (linear_kernel (transpose x1) (transpose x1))) ;;
        ret (Some K)
    end
  else if is_str ker "rbf" then
    x1 <- read2 X1 ;;
    match X2 with
    | Some B =>
        x2 <- read2 B ;;
        K <- alloc (F2 (rbf_kernel (transpose x1) (transpose x2) gamma)) ;;
        ret (Some K)
    | None =>
        K <- alloc (F2 (rbf_kernel (transpose x1) (transpose x1) gamma)) ;;
        ret (Some K)
    end
  else ret K.

Section Fit.

Variable eig : eigensolver.

(** [fit] returns two views of [Z]: the array [Z] and the column [ns]
    where they split. *)
Definition fit (s : TCA.self) (Xs Xt : ref) : ST (ref * nat) :=
  xs <- read2 Xs ;;
  xt <- read2 Xt ;;
  X <- alloc (F2 (hstack (transpose xs) (transpose xt))) ;;
  x <- read2 X ;;
  X <- alloc (F2 (div_cols x (col_norms x))) ;;
  x <- read2 X ;;
  let '(m, n) := shape x in
  let '(ns, nt) := (length xs, length xt) in
  q <- lift (marginal ns nt) ;;
  Q <- alloc (F1 q) ;;
  q <- read1 Q ;;
  M <- alloc (F2 (outer q q)) ;;
  mv <- read2 M ;;
  M <- alloc (F2 (mdiv mv (fro mv))) ;;
  h <- lift (py_div 1 n) ;;
  H <- alloc (F2 (msub (eye n) (map (smul h) (full n n 1)))) ;;
  oK <- kernel (TCA.kernel_type s) X None (TCA.gamma s) ;;
  let n_eye := if is_str (TCA.kernel_type s) "primal" then m else n in
  match oK with
  | None => lift (Raise AttributeError)
  | Some K =>
      k <- read2 K ;;
      mv <- read2 M ;;
      hv <- read2 H ;;
      a <- alloc (F2 (madd (multi_dot k mv (transpose k)) (map (smul (TCA.lamb s)) (eye n_eye)))) ;;
      b <- alloc (F2 (multi_dot k hv (transpose k))) ;;
      av <- read2 a ;;
      bv <- read2 b ;;
      '(w, v) <- lift (eig av bv) ;;
      V <- alloc (F2 v) ;;
      v <- read2 V ;;
      A <- alloc (F2 (basis (TCA.dim s) w v)) ;;
      av <- read2 A ;;
      k <- read2 K ;;
      Z <- alloc (F2 (dot (transpose av) k)) ;;
      z <- read2 Z ;;
      _ <- write Z (F2 (div_cols z (col_norms z))) ;;
      ret (Z, ns)
  end.

Definition fit_predict (s : TCA.self) (Xs Ys Xt : ref) (Yt : option ref)
  : ST (R * ref) :=
  '(Z, ns) <- fit s Xs Xt ;;
  z <- read2 Z ;;
  ys <- readl Ys ;;
  y <- lift (knn_predict (transpose (map (firstn ns) z)) ys (transpose (map (skipn ns) z))) ;;
  y_pred <- alloc (L1 y) ;;
  yt <- match Yt with
        | Some r => l <- readl r ;; ret (Some l)
        | None => ret None
        end ;;
  y <- readl y_pred ;;
  acc <- lift (accuracy_score yt y) ;;
  ret (acc, y_pred).

End Fit.

End HeapTCA.

Module HeapJDA.

Import Heap.
Local Open Scope heap_scope.

(** [kernel]: [K = X1] binds [K] to the array [X1] itself. *)
Definition kernel (ker : option string) (X1 : ref) (X2 : option ref) (gamma : R)
  : ST (option ref) :=
  let K := None in
  if falsy ker || is_str ker "primal" then ret (Some X1)
  else if is_str ker "linear" then
    x1 <- read2 X1 ;;
    x2 <- match X2 with
          | Some B => b <- read2 B ;; ret (Some b)
          | None => ret None
          end ;;
    t <- lift (JDA.truth x2) ;;
    match t, x2 with
    | true, Some b =>
        K <- alloc (F2 (linear_kernel (transpose x1) (transpose b))) ;;
        ret (Some K)
    | _, _ =>
        K <- alloc (F2 (linear_kernel (transpose x1) (transpose x1))) ;;
        ret (Some K)
    end
  else if is_str ker "rbf" then
    x1 <- read2 X1 ;;
    x2 <- match X2 with
          | Some B => b <- read2 B ;; ret (Some b)
          | None => ret None
          end ;;
    t <- lift (JDA.truth x2) ;;
    match t, x2 with
    | true, Some b =>
        K <- alloc (F2 (rbf_kernel (transpose x1) (transpose b) gamma)) ;;
        ret (Some K)
    | _, _ =>
        K <- alloc (F2 (rbf_kernel (transpose x1) (transpose x1) gamma)) ;;
        ret (Some K)
    end
  else ret K.

(** [N]: the int [0] or an array. *)
Inductive numref : Type :=
| ScR (x : R)
| MatR (r : ref).

Definition read_num (N : numref) : ST num :=
  match N with
  | ScR x => ret (Sc x)
  | MatR r => A <- read2 r ;; ret (Mat A)
  end.

(** [e[idx] = x], in place. *)
Definition assign (e : ref) (idx : list nat) (x : R) : ST unit :=
  v <- read1 e ;;
  v' <- lift (assign idx x v) ;;
  write e (F1 v').

(** One pass of [for c in range(1, C + 1)]. *)
Definition class_pass (n ns : nat) (Ys pseudo : ref) (c : Z) (N : numref)
  : ST (ref * numref) :=
  e <- alloc (F1 (zeros n)) ;;
  ys <- readl Ys ;;
  let tt := where_eq c ys in
  x <- lift (py_div 1 (length tt)) ;;
  _ <- assign e tt x ;;
  ps <- readl pseudo ;;
  let ind := where_eq c ps in
  let inds := map (fun item => (item + ns)%nat) ind in
  y <- lift (py_div (-1) (length ind)) ;;
  _ <- assign e inds y ;;
  v <- read1 e ;;
  _ <- write e (F1 (zero_inf v)) ;;
  v <- read1 e ;;
  nv <- read_num N ;;
  N' <- alloc (F2 (JDA.as_matrix (np_add nv (Mat (outer v v))))) ;;
  ret (e, MatR N').

Fixpoint class_loop (n ns : nat) (Ys pseudo : ref) (cs : list Z) (e : ref) (N : numref)
  : ST (ref * numref) :=
  match cs with
  | [] => ret (e, N)
  | c :: cs' =>
      '(e', N') <- class_pass n ns Ys pseudo c N ;;
      class_loop n ns Ys pseudo cs' e' N'
  end.

(** The loop body up to [M = M / np.linalg.norm(M, 'fro')]: the arrays
    bound to [e] and to [M] afterwards. *)
Definition alignment (n ns nt C : nat) (Ys : ref) (e : ref) (Y_tar_pseudo : option ref)
  : ST (ref * ref) :=
  let N := ScR 0 in
  v <- read1 e ;;
  M0 <- alloc (F2 (JDA.M0_of v C)) ;;
  '(e', N') <-
    match Y_tar_pseudo with
    | Some p =>
        ps <- readl p ;;
        if Nat.eqb (length ps) nt
        then class_loop n ns Ys p (class_range C) e N
        else ret (e, N)
    | None => ret (e, N)
    end ;;
  m0 <- read2 M0 ;;
  nv <- read_num N' ;;
  M <- alloc (F2 (JDA.as_matrix (np_add (Mat m0) nv))) ;;
  mv <- read2 M ;;
  M <- alloc (F2 (mdiv mv (fro mv))) ;;
  ret (e', M).

(** The names [fit_predict] rebinds inside its loop; [Xs_new] and [Xt_new]
    are views of [Z]. *)
Record locals : Type := Locals
  { e : ref;
    M : numref;
    Y_tar_pseudo : option ref;
    Z : option ref;
    acc : option R;
    list_acc : ref }.

Section FitPredict.

Variable eig : eigensolver.

Definition iteration (s : JDA.self) (X H : ref) (m n ns nt C : nat) (Ys : ref)
  (Yt : option ref) (st : locals) : ST locals :=
  '(e', M) <- alignment n ns nt C Ys (e st) (Y_tar_pseudo st) ;;
  oK <- kernel (JDA.kernel_type s) X None (JDA.gamma s) ;;
  let n_eye := if is_str (JDA.kernel_type s) "primal" then m else n in
  match oK with
  | None => lift (Raise AttributeError)
  | Some K =>
      k <- read2 K ;;
      mv <- read2 M ;;
      hv <- read2 H ;;
      a <- alloc (F2 (madd (multi_dot k mv (transpose k)) (map (smul (JDA.lamb s)) (eye n_eye)))) ;;
      b <- alloc (F2 (multi_dot k hv (transpose k))) ;;
      av <- read2 a ;;
      bv <- read2 b ;;
      '(w, v) <- lift (eig av bv) ;;
      V <- alloc (F2 v) ;;
      v <- read2 V ;;
      A <- alloc (F2 (basis (JDA.dim s) w v)) ;;
      av <- read2 A ;;
      k <- read2 K ;;
      Z <- alloc (F2 (dot (transpose av) k)) ;;
      z <- read2 Z ;;
      _ <- write Z (F2 (div_cols z (col_norms z))) ;;
      z <- read2 Z ;;
      ys <- readl Ys ;;
      y <- lift (knn_predict (transpose (map (firstn ns) z)) ys (transpose (map (skipn ns) z))) ;;
      Y <- alloc (L1 y) ;;
      yt <- match Yt with
            | Some r => l <- readl r ;; ret (Some l)
            | None => ret None
            end ;;
      y <- readl Y ;;
      acc <- lift (accuracy_score yt y) ;;
      l <- read1 (list_acc st) ;;
      _ <- write (list_acc st) (F1 (l ++ [acc])) ;;
      ret (Locals e' (MatR M) (Some Y) (Some Z) (Some acc) (list_acc st))
  end.

Fixpoint loop (k : nat) (body : locals -> ST locals) (st : locals) : ST locals :=
  match k with
  | O => ret st
  | S k' => st' <- body st ;; loop k' body st'
  end.

Definition run (s : JDA.self) (Xs Ys Xt : ref) (Yt : option ref) : ST locals :=
  list_acc <- alloc (F1 []) ;;
  xs <- read2 Xs ;;
  xt <- read2 Xt ;;
  X <- alloc (F2 (hstack (transpose xs) (transpose xt))) ;;
  x <- read2 X ;;
  X <- alloc (F2 (div_cols x (col_norms x))) ;;
  x <- read2 X ;;
  let '(m, n) := shape x in
  let '(ns, nt) := (length xs, length xt) in
  e0 <- lift (marginal ns nt) ;;
  e <- alloc (F1 e0) ;;
  ys <- readl Ys ;;
  let C := n_unique ys in
  h <- lift (py_div 1 n) ;;
  H <- alloc (F2 (msub (eye n) (map (smul h) (full n n 1)))) ;;
  let M := ScR 0 in
  let Y_tar_pseudo := None in
  loop (JDA.T s) (iteration s X H m n ns nt C Ys Yt)
    (Locals e M Y_tar_pseudo None None list_acc).

(** [return acc, Y_tar_pseudo, list_acc]. *)
Definition fit_predict (s : JDA.self) (Xs Ys Xt : ref) (Yt : option ref)
  : ST (R * option ref * ref) :=
  st <- run s Xs Ys Xt Yt ;;
  match acc st with
  | None => lift (Raise UnboundLocalError)
  | Some a => ret (a, Y_tar_pseudo st, list_acc st)
  end.

End FitPredict.

End HeapJDA.

(** ** The first versions: shallow/TCA.ipynb and shallow/JDA.ipynb

    The notebooks under [shallow/] differ from the later ones in one
    statement: [X /= np.linalg.norm(X, axis=0)] divides the pooled array in
    place, where the later versions bind [X] to a new array,
    [np.true_divide(X, ...)].  (TCA's first version names its weighting
    vector [e]; the [kernel] functions are the same.)  Over values the two
    statements are one function; over the heap the first writes to the
    array that [np.hstack] returned. *)

Module Shallow.

Import Heap.
Local Open Scope heap_scope.

Section Fit.

Variable eig : eigensolver.

Definition TCA_fit (s : TCA.self) (Xs Xt : ref) : ST (ref * nat) :=
  xs <- read2 Xs ;;
  xt <- read2 Xt ;;
  X <- alloc (F2 (hstack (transpose xs) (transpose xt))) ;;
  x <- read2 X ;;
  _ <- write X (F2 (div_cols x (col_norms x))) ;;
  x <- read2 X ;;
  let '(m, n) := shape x in
  let '(ns, nt) := (length xs, length xt) in
  e0 <- lift (marginal ns nt) ;;
  e <- alloc (F1 e0) ;;
  ev <- read1 e ;;
  M <- alloc (F2 (outer ev ev)) ;;
  mv <- read2 M ;;
  M <- alloc (F2 (mdiv mv (fro mv))) ;;
  h <- lift (py_div 1 n) ;;
  H <- alloc (F2 (msub (eye n) (map (smul h) (full n n 1)))) ;;
  oK <- HeapTCA.kernel (TCA.kernel_type s) X None (TCA.gamma s) ;;
  let n_eye := if is_str (TCA.kernel_type s) "primal" then m else n in
  match oK with
  | None => lift (Raise AttributeError)
  | Some K =>
      k <- read2 K ;;
      mv <- read2 M ;;
      hv <- read2 H ;;
      a <- alloc (F2 (madd (multi_dot k mv (transpose k)) (map (smul (TCA.lamb s)) (eye n_eye)))) ;;
      b <- alloc (F2 (multi_dot k hv (transpose k))) ;;
      av <- read2 a ;;
      bv <- read2 b ;;
      '(w, v) <- lift (eig av bv) ;;
      V <- alloc (F2 v) ;;
      v <- read2 V ;;
      A <- alloc (F2 (basis (TCA.dim s) w v)) ;;
      av <- read2 A ;;
      k <- read2 K ;;
      Z <- alloc (F2 (dot (transpose av) k)) ;;
      z <- read2 Z ;;
      _ <- write Z (F2 (div_cols z (col_norms z))) ;;
      ret (Z, ns)
  end.

Definition TCA_fit_predict (s : TCA.self) (Xs Ys Xt : ref) (Yt : option ref)
  : ST (R * ref) :=
  '(Z, ns) <- TCA_fit s Xs Xt ;;
  z <- read2 Z ;;
  ys <- readl Ys ;;
  y <- lift (knn_predict (transpose (map (firstn ns) z)) ys (transpose (map (skipn ns) z))) ;;
  y_pred <- alloc (L1 y) ;;
  yt <- match Yt with
        | Some r => l <- readl r ;; ret (Some l)
        | None => ret None
        end ;;
  y <- readl y_pred ;;
  acc <- lift (accuracy_score yt y) ;;
  ret (acc, y_pred).

(** The body of the loop is that of the later version. *)
Definition JDA_run (s : JDA.self) (Xs Ys Xt : ref) (Yt : option ref) : ST HeapJDA.locals :=
  list_acc <- alloc (F1 []) ;;
  xs <- read2 Xs ;;
  xt <- read2 Xt ;;
  X <- alloc (F2 (hstack (transpose xs) (transpose xt))) ;;
  x <- read2 X ;;
  _ <- write X (F2 (div_cols x (col_norms x))) ;;
  x <- read2 X ;;
  let '(m, n) := shape x in
  let '(ns, nt) := (length xs, length xt) in
  e0 <- lift (marginal ns nt) ;;
  e <- alloc (F1 e0) ;;
  ys <- readl Ys ;;
  let C := n_unique ys in
  h <- lift (py_div 1 n) ;;
  H <- alloc (F2 (msub (eye n) (map (smul h) (full n n 1)))) ;;
  let M := HeapJDA.ScR 0 in
  let Y_tar_pseudo := None in
  HeapJDA.loop (JDA.T s) (HeapJDA.iteration eig s X H m n ns nt C Ys Yt)
    (HeapJDA.Locals e M Y_tar_pseudo None None list_acc).

Definition JDA_fit_predict (s : JDA.self) (Xs Ys Xt : ref) (Yt : option ref)
  : ST (R * option ref * ref) :=
  st <- JDA_run s Xs Ys Xt Yt ;;
  match HeapJDA.acc st with
  | None => lift (Raise UnboundLocalError)
  | Some a => ret (a, HeapJDA.Y_tar_pseudo st, HeapJDA.list_acc st)
  end.

End Fit.

End Shallow.

(** ** CORAL.ipynb

    [scipy.linalg.fractional_matrix_power(A, t)] is a parameter, as the
    eigensolver is: it returns the power [A^t] (real parts) or raises.  The
    later version of the notebook ends [fit] with [.astype(float)], which
    leaves an array of reals as it is. *)

Module CORAL.

Definition fractional_power : Type := matrix -> R -> result matrix.

(** [np.cov(m)] for a two-dimensional [m]: every row is a variable, every
    column an observation; the rows are centred on their means and the
    products are divided by [N - 1], which numpy replaces by [0] when it is
    not positive.  With fewer than two observations numpy divides by that
    zero and fills the array with [nan], which the reals do not have: the
    definition stands for [np.cov] for [N >= 2] only, and the statements
    about CORAL are made for at least two samples. *)
Definition cov (m : matrix) : matrix :=
  let N := snd (shape m) in
  let avg := fun r => sum r / INR N in
  let X := map (fun r => map (fun x => x - avg r) r) m in
  let fact := INR (N - 1) in
  let c := map (fun a => map (fun b => dotp a b) X) X in
  mscale c (1 / fact).

Section Fit.

Variable fractional_matrix_power : fractional_power.

Definition fit (Xs Xt : matrix) : result matrix :=
  let cov_src := madd (cov (transpose Xs)) (eye (snd (shape Xs))) in
  let cov_tar := madd (cov (transpose Xt)) (eye (snd (shape Xt))) in
  a <- fractional_matrix_power cov_src (-0.5) ;;
  b <- fractional_matrix_power cov_tar 0.5 ;;
  let A_coral := dot a b in
  let Xs_new := dot Xs A_coral in
  Ok Xs_new.

Definition fit_predict (Xs : matrix) (Ys : list Z) (Xt : matrix) (Yt : option (list Z))
  : result (R * list Z) :=
  Xs_new <- fit Xs Xt ;;
  y_pred <- knn_predict Xs_new Ys Xt ;;
  acc <- accuracy_score Yt y_pred ;;
  Ok (acc, y_pred).

End Fit.

End CORAL.

(** ** Definitions used in the statements *)

(** The sum of the squares of the entries: [fro A = sqrt (ssq A)]. *)
Definition ssq (A : matrix) : R := sum (map sumsq A).

(** The JDA instance with the configuration of a TCA instance. *)
Definition as_JDA (s : TCA.self) (T : nat) : JDA.self :=
  JDA.init (TCA.kernel_type s) (TCA.dim s) (TCA.lamb s) (TCA.gamma s) T.

(** A sample solver for the examples: when [a] is diagonal and [b] is the
    identity, the eigenvalues are the diagonal of [a] and the eigenvectors
    the unit vectors. *)
Definition diagonal (A : matrix) : vec :=
  map (fun i => nth i (nth i A []) 0) (seq 0 (length A)).

Definition eig_diag : eigensolver := fun a b => Ok (diagonal a, eye (length a)).

(** [self] with another [dim], another [T]. *)
Definition TCA_with_dim (s : TCA.self) (d : Z) : TCA.self :=
  TCA.init (TCA.kernel_type s) d (TCA.lamb s) (TCA.gamma s).

Definition JDA_with_T (s : JDA.self) (T : nat) : JDA.self :=
  JDA.init (JDA.kernel_type s) (JDA.dim s) (JDA.lamb s) (JDA.gamma s) T.

(** [h'] holds every object of the first [b] places of [h] unchanged. *)
Definition same_below (b : nat) (h h' : Heap.heap) : Prop :=
  (b <= length h')%nat /\ forall p, (p < b)%nat -> nth_error h' p = nth_error h p.

(** [m], run on a heap of at least [b] objects, changes none of the first
    [b], and what it returns satisfies [Q]. *)
Definition keeps {A : Type} (b : nat) (Q : A -> Prop) (m : Heap.ST A) : Prop :=
  forall h, (b <= length h)%nat ->
    same_below b h (snd (m h))
    /\ match fst (m h) with Ok a => Q a | Raise _ => True end.

(** The arrays that a pass of JDA's loop writes to are arrays of the call. *)
Definition local (b : nat) (st : HeapJDA.locals) : Prop :=
  (b <= HeapJDA.e st)%nat /\ (b <= HeapJDA.list_acc st)%nat.

(** [r] refers to the object [o] in [h]. *)
Definition pts (h : Heap.heap) (r : Heap.ref) (o : Heap.obj) : Prop :=
  nth_error h r = Some o.

Definition opt_pts (h : Heap.heap) (r : option Heap.ref) (l : option (list Z)) : Prop :=
  match r, l with
  | Some r, Some l => pts h r (Heap.L1 l)
  | None, None => True
  | _, _ => False
  end.

Definition num_pts (h : Heap.heap) (N : HeapJDA.numref) (v : num) : Prop :=
  match N, v with
  | HeapJDA.ScR x, Sc y => x = y
  | HeapJDA.MatR r, Mat A => pts h r (Heap.F2 A)
  | _, _ => False
  end.

(** Every object of [h] is in [h'] as it was. *)
Definition mono (h h' : Heap.heap) : Prop := forall x y, pts h x y -> pts h' x y.

(** The outcome [x] of a function over the heap agrees with the result [p]
    of the function over values: both raise the same exception, or both
    return and what they return is related by [R] in the final heap. *)
Definition agree {A B : Type} (x : result A * Heap.heap) (p : result B)
  (R : A -> B -> Heap.heap -> Prop) : Prop :=
  match fst x, p with
  | Ok a, Ok b => R a b (snd x)
  | Raise e, Raise e' => e = e'
  | _, _ => False
  end.

(** Between two passes of JDA's loop: the locals over the heap refer to
    the values of the locals over values, and [list_acc] is an object of
    its own. *)
Definition inv (X Hr Ys : Heap.ref) (Yt : option Heap.ref) (xv hv : matrix)
  (ys : list Z) (yt : option (list Z))
  (stH : HeapJDA.locals) (stP : JDA.locals) (h : Heap.heap) : Prop :=
  let la := HeapJDA.list_acc stH in
  pts h X (Heap.F2 xv) /\ pts h Hr (Heap.F2 hv) /\ pts h Ys (Heap.L1 ys)
  /\ opt_pts h Yt yt
  /\ pts h (HeapJDA.e stH) (Heap.F1 (JDA.e stP))
  /\ opt_pts h (HeapJDA.Y_tar_pseudo stH) (JDA.Y_tar_pseudo stP)
  /\ pts h la (Heap.F1 (JDA.list_acc stP))
  /\ HeapJDA.acc stH = JDA.acc stP
  /\ X <> la /\ Hr <> la /\ Ys <> la /\ Yt <> Some la
  /\ (la < HeapJDA.e stH)%nat
  /\ (forall p, HeapJDA.Y_tar_pseudo stH = Some p -> (la < p)%nat).

(** A two-dimensional array with at least one row and one column. *)
Definition has_entries (A : matrix) : Prop := hd [] A <> [].

(** Entry [(i, j)] of an array, [0] outside it. *)
Definition entry (A : matrix) (i j : nat) : R := nth j (nth i A []) 0.

(** [A] is an [n] by [n] array. *)
Definition square (n : nat) (A : matrix) : Prop :=
  length A = n /\ Forall (fun row => length row = n) A.

Definition symmetric (A : matrix) : Prop := forall i j, entry A i j = entry A j i.

Definition rows_sum_to_zero (A : matrix) : Prop := Forall (fun row => sum row = 0) A.

(** What the construction of [M] keeps: a symmetric [n] by [n] array every
    row of which sums to zero. *)
Definition mmd (n : nat) (A : matrix) : Prop :=
  square n A /\ symmetric A /\ rows_sum_to_zero A.

(** What a pass keeps of the weighting vector [e]: [n] entries that sum to
    zero, not all of them zero. *)
Definition weighting (n : nat) (e : vec) : Prop :=
  length e = n /\ sum e = 0 /\ exists i, nth i e 0 <> 0.

Definition diag_nonneg (A : matrix) : Prop := forall i, 0 <= entry A i i.

(** What the class loop keeps of [N]: the int [0] or a sum of outer
    products of class vectors. *)
Definition accumulated (n : nat) (N : num) : Prop :=
  match N with
  | Sc x => x = 0
  | Mat A => mmd n A /\ diag_nonneg A
  end.

(** The order [np.argsort(w)] sorts positions by. *)
Definition by_value (w : vec) (i j : nat) : Prop := nth i w 0 <= nth j w 0.

(** The arrays that the locals of JDA's loop hand to the caller are arrays
    of the call. *)
Definition fresh_locals (b : nat) (st : HeapJDA.locals) : Prop :=
  local b st /\ forall p, HeapJDA.Y_tar_pseudo st = Some p -> (b <= p)%nat.



(** A sample power for the examples: the identity matrix of the same size,
    which is [A^t] when [A] is the identity. *)
Definition power_of_identity : CORAL.fractional_power := fun A t => Ok (eye (length A)).

(** [A] is a two-dimensional array of shape [(r, c)]. *)
Definition of_shape (r c : nat) (A : matrix) : Prop :=
  length A = r /\ Forall (fun row => length row = c) A.

(** An optional reference to an array and the value it refers to. *)
Definition opt_pts2 (h : Heap.heap) (r : option Heap.ref) (A : option matrix) : Prop :=
  match r, A with
  | Some r, Some A => pts h r (Heap.F2 A)
  | None, None => True
  | _, _ => False
  end.

(** Two runs of [kernel] end the same way: with the same exception, with
    [None], or with arrays of the same value. *)
Definition same_outcome (x x' : result (option Heap.ref) * Heap.heap) : Prop :=
  match fst x, fst x' with
  | Ok (Some K), Ok (Some K') =>
      exists k, pts (snd x) K (Heap.F2 k) /\ pts (snd x') K' (Heap.F2 k)
  | Ok None, Ok None => True
  | Raise e, Raise e' => e = e'
  | _, _ => False
  end.

(** * Properties *)

Unset Implicit Arguments.

(** ** The Frobenius norm *)

Lemma sum_scale (c : R) (v : vec) : sum (map (fun x => x * c) v) = sum v * c.
Proof. induction v as [|x v IH]; simpl; [ring | rewrite IH; ring]. Qed.

Lemma sumsq_scale (c : R) (v : vec) :
  sumsq (map (fun x => x * c) v) = sumsq v * (c * c).
Proof.
  unfold sumsq. induction v as [|x v IH]; simpl; [ring | rewrite IH; ring].
Qed.

Lemma ssq_mscale (A : matrix) (c : R) : ssq (mscale A c) = ssq A * (c * c).
Proof.
  unfold ssq, mscale. induction A as [|r A IH]; simpl; [ring|].
  rewrite IH, sumsq_scale. ring.
Qed.

Lemma sumsq_nonneg (v : vec) : 0 <= sumsq v.
Proof.
  unfold sumsq. induction v as [|x v IH]; simpl; [lra|].
  pose proof (Rle_0_sqr x) as Hx. unfold Rsqr in Hx. lra.
Qed.

Lemma ssq_nonneg (A : matrix) : 0 <= ssq A.
Proof.
  unfold ssq. induction A as [|r A IH]; simpl; [lra|].
  pose proof (sumsq_nonneg r). lra.
Qed.

Lemma fro_mscale (A : matrix) (c : R) : 0 <= c -> fro (mscale A c) = fro A * c.
Proof.
  intros Hc. unfold fro. fold (ssq (mscale A c)). fold (ssq A).
  rewrite ssq_mscale, sqrt_mult; [|apply ssq_nonneg|nra].
  now rewrite sqrt_square.
Qed.

Lemma mdiv_mscale_inv (A : matrix) (c : R) : mdiv A c = mscale A (/ c).
Proof. reflexivity. Qed.

Lemma fro_mdiv_self (A : matrix) : fro A <> 0 -> fro (mdiv A (fro A)) = 1.
Proof.
  intros Hn. rewrite mdiv_mscale_inv, fro_mscale.
  - now apply Rinv_r.
  - left. apply Rinv_0_lt_compat. unfold fro in *. pose proof (sqrt_pos (sum (map sumsq A))). lra.
Qed.

Lemma mscale_mscale (A : matrix) (c d : R) : mscale (mscale A c) d = mscale A (c * d).
Proof.
  unfold mscale. rewrite map_map. apply map_ext. intros r.
  rewrite map_map. apply map_ext. intros x. ring.
Qed.

(** Scaling by a positive factor is undone by the normalisation. *)
Lemma mdiv_fro_mscale (A : matrix) (c : R) :
  0 < c -> mdiv (mscale A c) (fro (mscale A c)) = mdiv A (fro A).
Proof.
  intros Hc. rewrite fro_mscale by lra.
  rewrite !mdiv_mscale_inv, mscale_mscale. f_equal.
  rewrite Rinv_mult, (Rmult_comm (/ fro A)), <- Rmult_assoc.
  rewrite Rinv_r by lra. ring.
Qed.

Lemma madd_zero_r (A : matrix) : map (map (fun x => x + 0)) A = A.
Proof.
  rewrite <- (map_id A) at 2. apply map_ext. intros r.
  rewrite <- (map_id r) at 2. apply map_ext. intros x. ring.
Qed.

Lemma sumsq_scale_l (c : R) (v : vec) :
  sumsq (map (fun y => c * y) v) = (c * c) * sumsq v.
Proof.
  unfold sumsq. induction v as [|x v IH]; simpl; [ring | rewrite IH; ring].
Qed.

Lemma ssq_outer (u v : vec) : ssq (outer u v) = sumsq u * sumsq v.
Proof.
  unfold ssq, outer. induction u as [|x u IH]; simpl.
  - unfold sumsq. simpl. ring.
  - rewrite IH, sumsq_scale_l. unfold sumsq. simpl. ring.
Qed.

Lemma fro_outer (u : vec) : fro (outer u u) = sumsq u.
Proof.
  unfold fro. fold (ssq (outer u u)). rewrite ssq_outer.
  apply sqrt_square, sumsq_nonneg.
Qed.

Lemma py_div_ok (a : R) (k : nat) (x : R) :
  py_div a k = Ok x -> (0 < k)%nat /\ x = a / INR k.
Proof.
  unfold py_div. destruct (Nat.eqb_spec k 0); [discriminate|].
  intros [= <-]. split; [lia | reflexivity].
Qed.

Lemma marginal_ok (ns nt : nat) (Q : vec) :
  marginal ns nt = Ok Q ->
  (0 < ns)%nat /\ (0 < nt)%nat /\
  Q = smul (1 / INR ns) (ones ns) ++ smul (-1 / INR nt) (ones nt).
Proof.
  unfold marginal. destruct (py_div 1 ns) as [a|] eqn:Ha; [|discriminate].
  destruct (py_div (-1) nt) as [b|] eqn:Hb; [|discriminate]. simpl.
  apply py_div_ok in Ha, Hb. destruct Ha as [? ->], Hb as [? ->].
  intros [= <-]. auto.
Qed.

Lemma sumsq_marginal_pos (ns nt : nat) (Q : vec) :
  marginal ns nt = Ok Q -> 0 < sumsq Q.
Proof.
  intros H. apply marginal_ok in H. destruct H as (Hs & _ & ->).
  destruct ns as [|k]; [lia|]. unfold sumsq. cbn [ones repeat smul map app sum fold_right].
  assert (Hk : 0 < INR (S k)) by (apply lt_0_INR; lia).
  assert (Hq : 0 < 1 / INR (S k)) by (apply Rdiv_lt_0_compat; lra).
  match goal with |- 0 < ?a + ?b => assert (0 <= b) end.
  { apply (sumsq_nonneg (map (fun x => 1 / INR (S k) * x) (repeat 1 k)
                          ++ smul (-1 / INR nt) (ones nt))). }
  nra.
Qed.

Lemma n_unique_pos (l : list Z) : l <> [] -> (0 < n_unique l)%nat.
Proof.
  destruct l as [|y t]; [congruence|]. intros _. unfold n_unique.
  assert (H : In y (nodup Z.eq_dec (y :: t))) by (apply nodup_In; now left).
  destruct (nodup Z.eq_dec (y :: t)); [destruct H | simpl; lia].
Qed.

(** Without pseudo-labels the alignment matrix of JDA is that of TCA. *)
Lemma alignment_round0 (n ns nt C : nat) (Ys : list Z) (e : vec) :
  (0 < C)%nat ->
  JDA.alignment n ns nt C Ys e None = Ok (e, mdiv (outer e e) (fro (outer e e))).
Proof.
  intros HC. unfold JDA.alignment, JDA.alignment_raw. simpl.
  rewrite madd_zero_r. unfold JDA.M0_of.
  rewrite mdiv_fro_mscale; [reflexivity | apply lt_0_INR; lia].
Qed.

Lemma kernel_no_X2 (ker : option string) (X : matrix) (g : R) :
  JDA.kernel ker X None g = TCA.kernel ker X None g.
Proof.
  unfold JDA.kernel, TCA.kernel.
  destruct (falsy ker || is_str ker "primal"); [reflexivity|].
  destruct (is_str ker "linear"); [reflexivity|].
  destruct (is_str ker "rbf"); reflexivity.
Qed.

(** C1. Run with [T = 1] and the configuration of a TCA instance, JDA's
    [fit_predict] returns what TCA's [fit_predict] returns (the accuracy, the
    predicted target labels; the history is the accuracy alone), raises when
    it raises, and leaves in [Xs_new], [Xt_new] the projection that
    [TCA.fit] returns: the factor [C] of [M0] is cancelled by the Frobenius
    normalisation.  Valid input: one source label per source row. *)
Theorem JDA_one_round_is_TCA (eig : eigensolver) (s : TCA.self)
  (Xs : matrix) (Ys : list Z) (Xt : matrix) (Yt : option (list Z)) :
  length Ys = length Xs ->
  JDA.fit_predict eig (as_JDA s 1) Xs Ys Xt Yt
  = ('(acc, y) <- TCA.fit_predict eig s Xs Ys Xt Yt ;; Ok (acc, Some y, [acc]))
  /\ (forall st, JDA.run eig (as_JDA s 1) Xs Ys Xt Yt = Ok st ->
        exists P, TCA.fit eig s Xs Xt = Ok P /\ JDA.new st = Some P).
Proof.
  intros Hlen.
  unfold JDA.fit_predict, JDA.run, TCA.fit_predict, TCA.fit, TCA.alignment.
  set (X := div_cols _ _).
  destruct (shape X) as [m n].
  destruct (marginal (length Xs) (length Xt)) as [Q|ex] eqn:HQ; simpl; [|split; [reflexivity | discriminate]].
  assert (HC : (0 < n_unique Ys)%nat).
  { apply n_unique_pos. apply marginal_ok in HQ. destruct HQ as (Hs & _).
    intros ->. simpl in Hlen. lia. }
  destruct (py_div 1 n) as [h|ex] eqn:Hh; simpl; [|split; [reflexivity | discriminate]].
  unfold JDA.iteration. rewrite (alignment_round0 _ _ _ _ _ _ HC). simpl.
  rewrite kernel_no_X2.
  destruct (TCA.kernel (TCA.kernel_type s) X None (TCA.gamma s)) as [[K|]|ex]; simpl;
    try (split; [reflexivity | discriminate]).
  destruct (eig _ _) as [[w V]|ex]; simpl; [|split; [reflexivity | discriminate]].
  destruct (knn_predict _ _ _) as [y|ex]; simpl; [|split; [reflexivity | discriminate]].
  destruct (accuracy_score Yt y) as [a|ex]; simpl; [|split; [reflexivity | discriminate]].
  split; [reflexivity|]. intros st [= <-]. simpl. eauto.
Qed.

(** C4. The matrix [M] that a pass of JDA's loop hands to the eigenproblem
    has Frobenius norm 1 whenever the norm of [M0 + N] is not zero, with or
    without pseudo-labels (the construction does not read the kernel type),
    and so has the matrix [M] of every TCA call that reaches its
    normalisation. *)
Theorem M_unit_norm (n ns nt C : nat) (Ys : list Z) (e : vec) (ps : option (list Z))
  (e' : vec) (Mraw : matrix) (ns' nt' : nat) (Q : vec) :
  JDA.alignment_raw n ns nt C Ys e ps = Ok (e', Mraw) ->
  fro Mraw <> 0 ->
  marginal ns' nt' = Ok Q ->
  (exists M, JDA.alignment n ns nt C Ys e ps = Ok (e', M) /\ fro M = 1)
  /\ (exists M, TCA.alignment ns' nt' = Ok M /\ fro M = 1).
Proof.
  intros Hraw Hnz HQ. split.
  - exists (mdiv Mraw (fro Mraw)). unfold JDA.alignment. rewrite Hraw. simpl.
    split; [reflexivity | now apply fro_mdiv_self].
  - exists (mdiv (outer Q Q) (fro (outer Q Q))). unfold TCA.alignment. rewrite HQ. simpl.
    split; [reflexivity|]. apply fro_mdiv_self. rewrite fro_outer.
    apply Rgt_not_eq, Rlt_gt. eapply sumsq_marginal_pos; eauto.
Qed.

Lemma M_unit_norm_witness :
  (exists M, JDA.alignment 2 1 1 1 [1%Z] [1; -1] (Some [1%Z]) = Ok ([1 / INR 1; -1 / INR 1], M)
             /\ fro M = 1)
  /\ (exists M, TCA.alignment 1 1 = Ok M /\ fro M = 1).
Proof.
  eapply (M_unit_norm 2 1 1 1 [1%Z] [1; -1] (Some [1%Z])).
  - reflexivity.
  - apply Rgt_not_eq, Rlt_gt, sqrt_lt_R0. unfold sumsq. simpl. lra.
  - reflexivity.
Defined.

(** ** The class loop *)

Lemma where_from_bound (i : nat) (c : Z) (l : list Z) (j : nat) :
  In j (where_from i c l) -> (i <= j < i + length l)%nat.
Proof.
  revert i. induction l as [|y t IH]; simpl; intros i H; [contradiction|].
  destruct (Z.eqb y c).
  - destruct H as [<-|H]; [lia | apply IH in H; lia].
  - apply IH in H. lia.
Qed.

Lemma where_from_nil (i : nat) (c : Z) (l : list Z) :
  where_from i c l = [] <-> ~ In c l.
Proof.
  revert i. induction l as [|y t IH]; simpl; intros i; [tauto|].
  destruct (Z.eqb_spec y c) as [->|Hne].
  - split; [discriminate | intros H; exfalso; apply H; now left].
  - rewrite IH. split; [intros H [?|?]; congruence | tauto].
Qed.

Lemma where_eq_nil (c : Z) (l : list Z) : where_eq c l = [] <-> ~ In c l.
Proof. apply where_from_nil. Qed.

Lemma set_nth_length (i : nat) (x : R) (v : vec) : length (set_nth i x v) = length v.
Proof.
  revert i. induction v as [|y t IH]; intros [|i]; simpl; auto.
Qed.

Lemma assign_ok (idx : list nat) (x : R) (v : vec) :
  (forall i, In i idx -> (i < length v)%nat) ->
  exists v', assign idx x v = Ok v' /\ length v' = length v.
Proof.
  intros H. unfold assign.
  replace (forallb (fun i => Nat.ltb i (length v)) idx) with true.
  - eexists. split; [reflexivity|].
    clear H. revert v. induction idx as [|i idx IH]; simpl; intros v; [reflexivity|].
    now rewrite IH, set_nth_length.
  - symmetry. apply forallb_forall. intros i Hi. apply Nat.ltb_lt. auto.
Qed.

Section ClassLoop.

Variables n ns nt : nat.
Variables Ys ps : list Z.
Hypothesis HYs : length Ys = ns.
Hypothesis Hps : length ps = nt.
Hypothesis Hn : n = (ns + nt)%nat.

(** A pass of the class loop raises exactly when the class has no source
    sample or no pseudo-labelled target sample. *)
Lemma class_vector_cases (c : Z) :
  (In c Ys /\ In c ps /\ exists e, JDA.class_vector n ns Ys ps c = Ok e)
  \/ ((~ In c Ys \/ ~ In c ps) /\ JDA.class_vector n ns Ys ps c = Raise ZeroDivisionError).
Proof.
  unfold JDA.class_vector, py_div.
  destruct (where_eq c Ys) as [|i tt] eqn:Htt.
  { right. split; [left; now apply where_eq_nil | reflexivity]. }
  assert (HinY : In c Ys).
  { destruct (in_dec Z.eq_dec c Ys) as [|Hn']; [assumption|].
    apply where_eq_nil in Hn'. congruence. }
  cbn [length Nat.eqb bind].
  destruct (assign_ok (i :: tt) (1 / INR (S (length tt))) (zeros n)) as (e1 & -> & Hl1).
  { intros j Hj. rewrite <- Htt in Hj. apply where_from_bound in Hj.
    unfold zeros. rewrite repeat_length. lia. }
  cbn [bind].
  destruct (where_eq c ps) as [|j ind] eqn:Hind.
  { right. split; [right; now apply where_eq_nil | reflexivity]. }
  assert (HinP : In c ps).
  { destruct (in_dec Z.eq_dec c ps) as [|Hn']; [assumption|].
    apply where_eq_nil in Hn'. congruence. }
  cbn [length Nat.eqb bind].
  destruct (assign_ok (map (fun item => (item + ns)%nat) (j :: ind))
              (-1 / INR (S (length ind))) e1) as (e2 & -> & Hl2).
  { intros k Hk. apply in_map_iff in Hk. destruct Hk as (k' & <- & Hk').
    rewrite <- Hind in Hk'. apply where_from_bound in Hk'.
    rewrite Hl1. unfold zeros. rewrite repeat_length. lia. }
  left. cbn [bind]. eauto.
Qed.

Lemma class_loop_raises (cs : list Z) (e : vec) (N : num) :
  (exists c, In c cs /\ (~ In c Ys \/ ~ In c ps)) ->
  JDA.class_loop n ns Ys ps cs e N = Raise ZeroDivisionError.
Proof.
  revert e N. induction cs as [|c cs IH]; intros e N (c0 & Hin & Hc0); [destruct Hin|].
  simpl. destruct (class_vector_cases c) as [(HY & HP & e1 & ->)|[_ ->]]; [|reflexivity].
  simpl. apply IH. exists c0. split; [|assumption].
  destruct Hin as [->|]; [tauto | assumption].
Qed.

Lemma class_loop_returns (cs : list Z) (e : vec) (N : num) :
  (forall c, In c cs -> In c Ys /\ In c ps) ->
  exists r, JDA.class_loop n ns Ys ps cs e N = Ok r.
Proof.
  revert e N. induction cs as [|c cs IH]; intros e N H; simpl; [eauto|].
  destruct (class_vector_cases c) as [(HY & HP & e1 & ->)|[Hc _]].
  - simpl. apply IH. intros c' Hc'. apply H. now right.
  - destruct (H c (or_introl eq_refl)). tauto.
Qed.

(** After the loop [e] is the vector of the last class. *)
Lemma class_loop_last (cs : list Z) (c : Z) (e e' : vec) (N N' : num) :
  JDA.class_loop n ns Ys ps (cs ++ [c]) e N = Ok (e', N') ->
  JDA.class_vector n ns Ys ps c = Ok e'.
Proof.
  revert e N. induction cs as [|c0 cs IH]; intros e N; simpl.
  - destruct (JDA.class_vector n ns Ys ps c) as [e1|]; simpl; [|discriminate].
    now intros [= <- _].
  - destruct (JDA.class_vector n ns Ys ps c0) as [e1|]; simpl; [|discriminate].
    apply IH.
Qed.

End ClassLoop.

Lemma class_range_spec (C : nat) (y : Z) :
  In y (class_range C) <-> (1 <= y <= Z.of_nat C)%Z.
Proof.
  unfold class_range. rewrite in_map_iff. split.
  - intros (k & <- & Hk). apply in_seq in Hk. lia.
  - intros Hy. exists (Z.to_nat y). split; [lia | apply in_seq; lia].
Qed.

Lemma class_range_NoDup (C : nat) : NoDup (class_range C).
Proof.
  unfold class_range. apply Injective_map_NoDup.
  - intros a b Hab. lia.
  - apply seq_NoDup.
Qed.

Lemma class_range_length (C : nat) : length (class_range C) = C.
Proof. unfold class_range. now rewrite length_map, length_seq. Qed.

(** [C] distinct labels that are not exactly [1..C] leave a class of
    [range(1, C + 1)] without a source sample. *)
Lemma missing_class (Ys : list Z) :
  ~ (forall y, In y Ys <-> (1 <= y <= Z.of_nat (n_unique Ys))%Z) ->
  exists c, In c (class_range (n_unique Ys)) /\ ~ In c Ys.
Proof.
  intros Hnot.
  destruct (Exists_dec (fun c => ~ In c Ys) (class_range (n_unique Ys))) as [Hex|Hall].
  { intros c. destruct (in_dec Z.eq_dec c Ys); [right; tauto | now left]. }
  { apply Exists_exists in Hex. exact Hex. }
  exfalso. apply Hnot.
  assert (Hincl : incl (class_range (n_unique Ys)) (nodup Z.eq_dec Ys)).
  { intros c Hc. apply nodup_In.
    destruct (in_dec Z.eq_dec c Ys) as [|Hn]; [assumption|].
    exfalso. apply Hall, Exists_exists. eauto. }
  assert (Hback : incl (nodup Z.eq_dec Ys) (class_range (n_unique Ys))).
  { apply NoDup_length_incl; [apply class_range_NoDup| |assumption].
    rewrite class_range_length. unfold n_unique. lia. }
  intros y. rewrite <- class_range_spec. split.
  - intros Hy. apply Hback, nodup_In, Hy.
  - intros Hy. apply Hincl in Hy. now apply nodup_In in Hy.
Qed.

Lemma alignment_raises (n ns nt C : nat) (Ys ps : list Z) (e : vec) :
  length Ys = ns -> length ps = nt -> n = (ns + nt)%nat ->
  (exists c, In c (class_range C) /\ (~ In c Ys \/ ~ In c ps)) ->
  JDA.alignment n ns nt C Ys e (Some ps) = Raise ZeroDivisionError.
Proof.
  intros HY HP Hn Hc. unfold JDA.alignment, JDA.alignment_raw.
  rewrite HP, Nat.eqb_refl.
  rewrite (class_loop_raises n ns nt Ys ps HY HP Hn _ _ _ Hc). reflexivity.
Qed.

(** C10. When the distinct source labels are not exactly [1..C], some class
    of [range(1, C + 1)] has no source sample, and every pass of the loop
    that has pseudo-labels (every pass but the first) divides by that zero
    count: [ZeroDivisionError].  A label above [C] is not visited by the
    class loop. *)
Theorem label_encoding_precondition (eig : eigensolver) (s : JDA.self) (X H : matrix)
  (m n ns nt : nat) (Ys : list Z) (Yt : option (list Z)) (st : JDA.locals) (ps : list Z) :
  length Ys = ns ->
  n = (ns + nt)%nat ->
  JDA.Y_tar_pseudo st = Some ps ->
  length ps = nt ->
  ~ (forall y, In y Ys <-> (1 <= y <= Z.of_nat (n_unique Ys))%Z) ->
  (exists c, In c (class_range (n_unique Ys)) /\ count_occ Z.eq_dec Ys c = 0%nat)
  /\ JDA.iteration eig s X H m n ns nt (n_unique Ys) Ys Yt st = Raise ZeroDivisionError
  /\ (forall y, (Z.of_nat (n_unique Ys) < y)%Z -> ~ In y (class_range (n_unique Ys))).
Proof.
  intros HY Hn Hst HP Hnot.
  destruct (missing_class Ys Hnot) as (c & Hc & HcY).
  split; [|split].
  - exists c. split; [assumption | now apply count_occ_not_In].
  - unfold JDA.iteration. rewrite Hst.
    rewrite (alignment_raises n ns nt _ Ys ps (JDA.e st) HY HP Hn); [reflexivity|].
    exists c. tauto.
  - intros y Hy Hin. apply class_range_spec in Hin. lia.
Qed.

(** C3 (the code at a failing input). Two source classes, every target
    sample pseudo-labelled 1: the pass for class 2 divides by the zero count
    of its pseudo-labelled samples before [e[np.isinf(e)] = 0] is reached. *)
Theorem degenerate_class_raises (e : vec) :
  JDA.alignment 4 2 2 2 [1%Z; 2%Z] e (Some [1%Z; 1%Z]) = Raise ZeroDivisionError.
Proof. reflexivity. Qed.

(** C2 (the code at a failing input). Two source samples of classes 1 and
    2, pseudo-labels 1 and 2: the pass leaves in [e] the vector of class 2,
    and the [M0] that the next pass builds from it is not [C] times the
    outer product of the marginal weighting vector. *)
Theorem M0_after_class_loop :
  exists e0 e1 M1,
    marginal 2 2 = Ok e0
    /\ JDA.alignment 4 2 2 2 [1%Z; 2%Z] e0 (Some [1%Z; 2%Z]) = Ok (e1, M1)
    /\ e1 = [0; 1 / INR 1; 0; -1 / INR 1]
    /\ JDA.M0_of e1 2 <> JDA.M0_of e0 2.
Proof.
  eexists. eexists. eexists.
  split; [reflexivity|]. split; [reflexivity|]. split; [reflexivity|].
  unfold JDA.M0_of, mscale, outer. simpl. intros Heq.
  injection Heq as Heq _. lra.
Qed.

(** ** Shapes along the projection *)

Lemma zip_with_length {A B C : Type} (f : A -> B -> C) (l : list A) (l' : list B) :
  length (zip_with f l l') = Nat.min (length l) (length l').
Proof.
  revert l'. induction l as [|a l IH]; intros [|b l']; simpl; auto.
Qed.

Lemma length_transpose (A : matrix) : length (transpose A) = snd (shape A).
Proof. unfold transpose. now rewrite length_map, length_seq. Qed.

Lemma length_col_norms (A : matrix) : length (col_norms A) = snd (shape A).
Proof. unfold col_norms. now rewrite length_map, length_seq. Qed.

Lemma shape_dot (A B : matrix) :
  snd (shape (dot A B)) = match A with [] => O | _ => snd (shape B) end.
Proof.
  destruct A as [|r A]; simpl; [reflexivity|]. now rewrite length_map, length_seq.
Qed.

Lemma shape_div_cols (A : matrix) : snd (shape (div_cols A (col_norms A))) = snd (shape A).
Proof.
  destruct A as [|r A]; [reflexivity|].
  unfold div_cols. cbn [map shape hd snd].
  rewrite zip_with_length, length_col_norms. simpl. lia.
Qed.

Lemma shape_skip_cols (k : nat) (A : matrix) :
  snd (shape (map (skipn k) A)) = (snd (shape A) - k)%nat.
Proof.
  destruct A as [|r A]; simpl; [reflexivity | apply length_skipn].
Qed.

(** The number of rows of [Xt_new]. *)
Lemma length_Xt_new (ns : nat) (A K : matrix) :
  length (transpose (map (skipn ns)
            (div_cols (dot A K) (col_norms (dot A K)))))
  = match A with [] => O | _ => (snd (shape K) - ns)%nat end.
Proof.
  rewrite length_transpose, shape_skip_cols, shape_div_cols, shape_dot.
  destruct A; reflexivity.
Qed.

Lemma shape_linear_kernel (A : matrix) : snd (shape (linear_kernel A A)) = length A.
Proof.
  destruct A as [|r A]; [reflexivity|]. unfold linear_kernel. simpl. now rewrite length_map.
Qed.

Lemma shape_rbf_kernel (A : matrix) (g : R) : snd (shape (rbf_kernel A A g)) = length A.
Proof.
  destruct A as [|r A]; [reflexivity|]. unfold rbf_kernel. simpl. now rewrite length_map.
Qed.

(** Every kernel has one column per pooled sample. *)
Lemma kernel_columns (ker : option string) (X K : matrix) (g : R) :
  JDA.kernel ker X None g = Ok (Some K) -> snd (shape K) = snd (shape X).
Proof.
  unfold JDA.kernel.
  destruct (falsy ker || is_str ker "primal"); [now intros [= <-]|].
  destruct (is_str ker "linear").
  { cbn [JDA.truth bind]. intros [= <-]. now rewrite shape_linear_kernel, length_transpose. }
  destruct (is_str ker "rbf"); [|discriminate].
  cbn [JDA.truth bind]. intros [= <-]. now rewrite shape_rbf_kernel, length_transpose.
Qed.

Lemma knn_predict_length (X : matrix) (y : list Z) (Xq : matrix) (r : list Z) :
  knn_predict X y Xq = Ok r -> length r = length Xq /\ length Xq <> O.
Proof.
  unfold knn_predict.
  destruct (negb _); [discriminate|].
  destruct (Nat.eqb (snd (shape X)) 0); [discriminate|].
  destruct (Nat.eqb_spec (length Xq) 0); [discriminate|].
  destruct (combine X y); [discriminate|].
  intros [= <-]. now rewrite length_map.
Qed.

(** A pass that returns leaves one pseudo-label per column of [X] past the
    source columns: the guard [len(Y_tar_pseudo) == nt] of the next pass
    holds. *)
Lemma iteration_labels (eig : eigensolver) (s : JDA.self) (X H : matrix)
  (m n ns nt C : nat) (Ys : list Z) (Yt : option (list Z)) (st st' : JDA.locals) :
  snd (shape X) = n ->
  JDA.iteration eig s X H m n ns nt C Ys Yt st = Ok st' ->
  exists y, JDA.Y_tar_pseudo st' = Some y /\ length y = (n - ns)%nat.
Proof.
  intros HX. unfold JDA.iteration.
  destruct (JDA.alignment _ _ _ _ _ _ _) as [[e' M]|]; simpl; [|discriminate].
  destruct (JDA.kernel _ _ _ _) as [[K|]|] eqn:HK; simpl; try discriminate.
  apply kernel_columns in HK.
  destruct (eig _ _) as [[w V]|]; simpl; [|discriminate].
  destruct (knn_predict _ _ _) as [y|] eqn:Hy; simpl; [|discriminate].
  destruct (accuracy_score Yt y) as [a|]; simpl; [|discriminate].
  intros [= <-]. simpl. exists y. split; [reflexivity|].
  apply knn_predict_length in Hy. destruct Hy as [Hlen Hne].
  rewrite length_Xt_new in Hlen, Hne.
  destruct (transpose (basis (JDA.dim s) w V)); [contradiction|].
  congruence.
Qed.

(** A pass that returns binds [acc] and appends it to [list_acc]. *)
Lemma iteration_acc (eig : eigensolver) (s : JDA.self) (X H : matrix)
  (m n ns nt C : nat) (Ys : list Z) (Yt : option (list Z)) (st st' : JDA.locals) :
  JDA.iteration eig s X H m n ns nt C Ys Yt st = Ok st' ->
  exists a, JDA.acc st' = Some a /\ JDA.list_acc st' = JDA.list_acc st ++ [a].
Proof.
  unfold JDA.iteration.
  destruct (JDA.alignment _ _ _ _ _ _ _) as [[e' M]|]; cbn [bind]; [|discriminate].
  destruct (JDA.kernel _ _ _ _) as [[K|]|]; cbn [bind]; try discriminate.
  destruct (eig _ _) as [[w V]|]; cbn [bind]; [|discriminate].
  destruct (knn_predict _ _ _) as [y|]; cbn [bind]; [|discriminate].
  destruct (accuracy_score Yt y) as [a|]; cbn [bind]; [|discriminate].
  intros [= <-]. simpl. eauto.
Qed.

(** C5 (the code at a failing input). Two source samples of classes 1 and
    2, one target sample, [T = 2].  Either the first pass raises (the call
    with [T = 1] raises the same exception), or it returns and the second
    pass raises [ZeroDivisionError]: one pseudo-label cannot cover two
    classes.  The call never returns its two-entry history. *)
Theorem fit_predict_stops_early (eig : eigensolver) :
  let s := JDA.init (Some "primal"%string) 30 1 1 2 in
  let Xs := [[1; 0]; [0; 1]] in
  let Ys := [1%Z; 2%Z] in
  let Xt := [[1; 1]] in
  let Yt := Some [1%Z] in
  ((exists r, JDA.fit_predict eig (JDA_with_T s 1) Xs Ys Xt Yt = Ok r)
   /\ JDA.fit_predict eig s Xs Ys Xt Yt = Raise ZeroDivisionError)
  \/ (exists ex, JDA.fit_predict eig (JDA_with_T s 1) Xs Ys Xt Yt = Raise ex
                 /\ JDA.fit_predict eig s Xs Ys Xt Yt = Raise ex).
Proof.
  intros s Xs Ys Xt Yt.
  unfold JDA.fit_predict, JDA.run.
  set (X := div_cols _ _).
  assert (HX : shape X = (2%nat, 3%nat)) by reflexivity.
  rewrite HX.
  change (length Xs) with 2%nat. change (length Xt) with 1%nat.
  change (n_unique Ys) with 2%nat.
  destruct (marginal 2 1) as [e0|] eqn:He0; [|discriminate].
  destruct (py_div 1 3) as [h|] eqn:Hh; [|discriminate].
  cbn [bind JDA.T s JDA_with_T JDA.loop].
  change (JDA.iteration eig (JDA_with_T s 1)) with (JDA.iteration eig s).
  set (H := msub _ _).
  set (body := JDA.iteration eig s X H 2 3 2 1 2 Ys Yt).
  set (st0 := JDA.Locals e0 _ _ _ _ _).
  destruct (body st0) as [st1|ex] eqn:H1; cbn [bind].
  - left. split.
    + subst body. apply iteration_acc in H1. destruct H1 as (a & -> & _). eauto.
    + subst body.
      destruct (iteration_labels _ _ _ _ _ _ _ _ _ _ _ _ _ (f_equal snd HX) H1)
        as (y & Hy & Hlen).
      unfold JDA.iteration at 1. rewrite Hy.
      rewrite (alignment_raises 3 2 1 2 Ys y (JDA.e st1)); try reflexivity; try assumption.
      destruct y as [|v [|? ?]]; try discriminate.
      destruct (Z.eq_dec v 1) as [->|Hv].
      * exists 2%Z. split; [simpl; tauto|]. right. simpl. intros [?|[]]. lia.
      * exists 1%Z. split; [simpl; tauto|]. right. simpl. intros [?|[]]. lia.
  - right. exists ex. split; reflexivity.
Qed.

(** ** The subspace dimension *)

Lemma insert_by_length (w : vec) (i : nat) (l : list nat) :
  length (insert_by w i l) = S (length l).
Proof.
  induction l as [|j l IH]; simpl; [reflexivity|].
  destruct (Rle_dec _ _); simpl; [reflexivity | now rewrite IH].
Qed.

Lemma argsort_length (w : vec) : length (argsort w) = length w.
Proof.
  unfold argsort.
  assert (H : forall l, length (fold_right (insert_by w) [] l) = length l).
  { induction l as [|i l IH]; simpl; [reflexivity|]. now rewrite insert_by_length, IH. }
  now rewrite H, length_seq.
Qed.

Lemma basis_columns (d : Z) (w : vec) (V : matrix) (row : list R) :
  (0 <= d)%Z -> In row (basis d w V) ->
  length row = Nat.min (Z.to_nat d) (length w).
Proof.
  intros Hd Hrow. unfold basis, take_cols in Hrow.
  apply in_map_iff in Hrow. destruct Hrow as (r & <- & _).
  rewrite length_map. unfold slice_to.
  destruct (Z.leb_spec 0 d); [|lia].
  now rewrite length_firstn, argsort_length.
Qed.

(** C6 (as amended). Neither solver checks [dim]: for [dim >= 0] the basis
    [A = V[:, ind[:dim]]] has [min(dim, number of eigenvalues)] columns, so
    a [dim] above the number of eigenpairs is clamped, a [dim] equal to it
    keeps them all and [dim = 0] keeps none; and the exception that
    [TCA.fit] raises, if any, is the same for every [dim]. *)
Theorem dim_is_clamped (eig : eigensolver) (s : TCA.self) (d : Z) (Xs Xt : matrix)
  (w : vec) (V : matrix) (row : list R) :
  (0 <= d)%Z ->
  In row (basis d w V) ->
  length row = Nat.min (Z.to_nat d) (length w)
  /\ (forall ex, TCA.fit eig s Xs Xt = Raise ex
                 <-> TCA.fit eig (TCA_with_dim s d) Xs Xt = Raise ex).
Proof.
  intros Hd Hrow. split; [now apply (basis_columns d w V)|].
  intros ex. unfold TCA.fit, TCA_with_dim. cbn [TCA.kernel_type TCA.gamma TCA.lamb TCA.dim].
  destruct (shape _) as [m n].
  destruct (TCA.alignment _ _) as [M|]; cbn [bind]; [|tauto].
  destruct (py_div 1 n) as [h|]; cbn [bind]; [|tauto].
  destruct (TCA.kernel _ _ _ _) as [[K|]|]; cbn [bind]; try tauto.
  destruct (eig _ _) as [[w' V']|]; cbn [bind]; [|tauto].
  split; discriminate.
Qed.

Lemma dim_is_clamped_witness :
  length [1; 0] = Nat.min (Z.to_nat 5) (length [1; 1])
  /\ (forall ex, TCA.fit eig_diag TCA.default [[1; 0]] [[0; 1]] = Raise ex
                 <-> TCA.fit eig_diag (TCA_with_dim TCA.default 5) [[1; 0]] [[0; 1]] = Raise ex).
Proof.
  apply (dim_is_clamped eig_diag TCA.default 5 [[1; 0]] [[0; 1]] [1; 1] [[1; 0]; [0; 1]]).
  - lia.
  - unfold basis, argsort. simpl. destruct (Rle_dec 1 1) as [_|Hn]; [|exfalso; lra].
    simpl. now left.
Defined.

(** C6 (counterexample). [dim = 5] with two features and the primal
    kernel: two eigenpairs are available, and [TCA.fit] returns. *)
Lemma dim_above_eigenpairs_returns :
  exists P, TCA.fit eig_diag (TCA.init (Some "primal"%string) 5 1 1) [[1; 0]] [[0; 1]] = Ok P.
Proof. eexists. reflexivity. Qed.

(** ** Kernel types *)

(** C7 (counterexample). ['poly'] is not a supported kernel type, and
    [kernel] returns (the value [None]). *)
Lemma kernel_poly_returns :
  JDA.kernel (Some "poly"%string) [[1; 2]; [3; 4]] None 1 = Ok None.
Proof. reflexivity. Qed.

(** ** Target labels *)

Lemma iteration_no_Yt (eig : eigensolver) (s : JDA.self) (X H : matrix)
  (m n ns nt C : nat) (Ys : list Z) (st : JDA.locals) :
  exists ex, JDA.iteration eig s X H m n ns nt C Ys None st = Raise ex.
Proof.
  unfold JDA.iteration.
  destruct (JDA.alignment _ _ _ _ _ _ _) as [[e' M]|]; cbn [bind]; [|eauto].
  destruct (JDA.kernel _ _ _ _) as [[K|]|]; cbn [bind]; eauto.
  destruct (eig _ _) as [[w V]|]; cbn [bind]; [|eauto].
  destruct (knn_predict _ _ _) as [y|]; cbn [bind accuracy_score]; eauto.
Qed.

(** C8 (as amended). [Yt] is not optional: called with [Yt = None],
    [fit_predict] of JDA and of TCA raise for every input, every
    configuration and every [T], and return no labels. *)
Theorem Yt_is_required (eig : eigensolver) (s : JDA.self) (s' : TCA.self)
  (Xs : matrix) (Ys : list Z) (Xt : matrix) :
  (exists ex, JDA.fit_predict eig s Xs Ys Xt None = Raise ex)
  /\ (exists ex, TCA.fit_predict eig s' Xs Ys Xt None = Raise ex).
Proof.
  split.
  - unfold JDA.fit_predict, JDA.run.
    destruct (shape _) as [m n].
    destruct (marginal _ _) as [e0|]; cbn [bind]; [|eauto].
    destruct (py_div 1 n) as [h|]; cbn [bind]; [|eauto].
    destruct (JDA.T s) as [|k]; cbn [JDA.loop bind JDA.acc]; [eauto|].
    match goal with |- context [JDA.iteration ?a ?b ?c ?d ?e ?f ?g ?h ?i ?j None ?st] =>
      destruct (iteration_no_Yt a b c d e f g h i j st) as (ex & ->) end.
    cbn [bind]. eauto.
  - unfold TCA.fit_predict.
    destruct (TCA.fit _ _ _ _) as [[Xs_new Xt_new]|]; cbn [bind]; [|eauto].
    destruct (knn_predict _ _ _) as [y|]; cbn [bind accuracy_score]; eauto.
Qed.

(** C8 (counterexample). One source and one target sample, one feature,
    one round, no [Yt]: the call raises [TypeError] at [accuracy_score]. *)
Lemma no_Yt_raises :
  JDA.fit_predict eig_diag (JDA.init (Some "primal"%string) 30 1 1 1)
    [[1]] [1%Z] [[1]] None = Raise TypeError.
Proof. reflexivity. Qed.

(** ** What a call leaves of the caller's arrays *)

Section Frame.

Import Heap.
Local Open Scope heap_scope.

Lemma same_below_refl (b : nat) (h : heap) : (b <= length h)%nat -> same_below b h h.
Proof. intros H. split; auto. Qed.

Lemma same_below_trans (b : nat) (h1 h2 h3 : heap) :
  same_below b h1 h2 -> same_below b h2 h3 -> same_below b h1 h3.
Proof.
  intros [L1 E1] [L2 E2]. split; [assumption|].
  intros p Hp. now rewrite E2, E1.
Qed.

Lemma keeps_ret {A : Type} (b : nat) (Q : A -> Prop) (a : A) : Q a -> keeps b Q (ret a).
Proof. intros HQ h Hh. split; [now apply same_below_refl | exact HQ]. Qed.

Lemma keeps_lift {A : Type} (b : nat) (r : result A) : keeps b (fun _ => True) (lift r).
Proof. intros h Hh. split; [now apply same_below_refl | simpl; now destruct r]. Qed.

Lemma keeps_read2 (b : nat) (r : ref) : keeps b (fun _ => True) (read2 r).
Proof.
  intros h Hh. unfold read2. destruct (nth_error h r) as [[| |]|]; simpl;
    (split; [now apply same_below_refl | exact I]).
Qed.

Lemma keeps_read1 (b : nat) (r : ref) : keeps b (fun _ => True) (read1 r).
Proof.
  intros h Hh. unfold read1. destruct (nth_error h r) as [[| |]|]; simpl;
    (split; [now apply same_below_refl | exact I]).
Qed.

Lemma keeps_readl (b : nat) (r : ref) : keeps b (fun _ => True) (readl r).
Proof.
  intros h Hh. unfold readl. destruct (nth_error h r) as [[| |]|]; simpl;
    (split; [now apply same_below_refl | exact I]).
Qed.

(** A new object lies past every object there was. *)
Lemma keeps_alloc (b : nat) (o : obj) : keeps b (fun r => (b <= r)%nat) (alloc o).
Proof.
  intros h Hh. unfold alloc. simpl. split; [|assumption].
  split; [rewrite length_app; lia|].
  intros p Hp. apply nth_error_app1. lia.
Qed.

Lemma set_obj_length (r : ref) (o : obj) (h : heap) : length (set_obj r o h) = length h.
Proof. revert r. induction h as [|x h IH]; intros [|r]; simpl; auto. Qed.

Lemma set_obj_other (r : ref) (o : obj) (h : heap) (p : nat) :
  p <> r -> nth_error (set_obj r o h) p = nth_error h p.
Proof.
  revert r p. induction h as [|x h IH]; intros [|r] [|p] Hp; simpl; auto; try congruence.
Qed.

(** A write to an object of the call touches no object of the caller. *)
Lemma keeps_write (b : nat) (r : ref) (o : obj) :
  (b <= r)%nat -> keeps b (fun _ => True) (write r o).
Proof.
  intros Hr h Hh. unfold write. simpl. split; [|exact I].
  split; [now rewrite set_obj_length|].
  intros p Hp. apply set_obj_other. lia.
Qed.

Lemma keeps_bind {A B : Type} (b : nat) (Q : A -> Prop) (Q' : B -> Prop)
  (m : ST A) (k : A -> ST B) :
  keeps b Q m -> (forall a, Q a -> keeps b Q' (k a)) -> keeps b Q' (bind m k).
Proof.
  intros Hm Hk h Hh. unfold bind.
  destruct (Hm h Hh) as [Hs HQ]. destruct (m h) as [[a|ex] h1]; simpl in *.
  - destruct (Hk a HQ h1 (proj1 Hs)) as [Hs' HQ'].
    split; [eapply same_below_trans; eauto | assumption].
  - split; [assumption | exact I].
Qed.

Lemma keeps_weaken {A : Type} (b : nat) (Q Q' : A -> Prop) (m : ST A) :
  keeps b Q m -> (forall a, Q a -> Q' a) -> keeps b Q' m.
Proof.
  intros Hm HQ h Hh. destruct (Hm h Hh) as [Hs Ha]. split; [assumption|].
  destruct (fst (m h)); auto.
Qed.

End Frame.

Ltac keeps_prim :=
  lazymatch goal with
  | |- keeps _ _ (Heap.alloc _) => apply keeps_alloc
  | |- keeps _ _ (Heap.read2 _) => apply keeps_read2
  | |- keeps _ _ (Heap.read1 _) => apply keeps_read1
  | |- keeps _ _ (Heap.readl _) => apply keeps_readl
  | |- keeps _ _ (Heap.lift _) => apply keeps_lift
  | |- keeps _ _ (Heap.write _ _) => apply keeps_write; lia
  end.

Ltac keeps_step :=
  lazymatch goal with
  | |- keeps _ _ (Heap.bind _ _) => eapply keeps_bind; [keeps_prim | cbv beta; intros ? ?]
  end.

Section FramePrograms.

Import Heap.
Local Open Scope heap_scope.

Variable eig : eigensolver.
Variable b : nat.

Lemma keeps_opt_readl (Yt : option ref) :
  keeps b (fun _ => True)
    (match Yt with
     | Some r => l <- readl r ;; ret (Some l)
     | None => ret None
     end).
Proof.
  destruct Yt as [r|]; [|now apply keeps_ret].
  keeps_step. now apply keeps_ret.
Qed.

Lemma keeps_opt_read2 (X2 : option ref) :
  keeps b (fun _ => True)
    (match X2 with
     | Some B => v <- read2 B ;; ret (Some v)
     | None => ret None
     end).
Proof.
  destruct X2 as [r|]; [|now apply keeps_ret].
  keeps_step. now apply keeps_ret.
Qed.

Lemma keeps_TCA_kernel (ker : option string) (X1 : ref) (X2 : option ref) (g : R) :
  keeps b (fun _ => True) (HeapTCA.kernel ker X1 X2 g).
Proof.
  unfold HeapTCA.kernel.
  destruct (falsy ker || is_str ker "primal"); [now apply keeps_ret|].
  destruct (is_str ker "linear").
  { keeps_step. destruct X2; repeat keeps_step; now apply keeps_ret. }
  destruct (is_str ker "rbf"); [|now apply keeps_ret].
  keeps_step. destruct X2; repeat keeps_step; now apply keeps_ret.
Qed.

Lemma keeps_JDA_kernel (ker : option string) (X1 : ref) (X2 : option ref) (g : R) :
  keeps b (fun _ => True) (HeapJDA.kernel ker X1 X2 g).
Proof.
  unfold HeapJDA.kernel.
  destruct (falsy ker || is_str ker "primal"); [now apply keeps_ret|].
  destruct (is_str ker "linear").
  { keeps_step. eapply keeps_bind; [apply keeps_opt_read2 | intros x2 _].
    keeps_step. match goal with t : bool |- _ => destruct t end;
      destruct x2; repeat keeps_step; now apply keeps_ret. }
  destruct (is_str ker "rbf"); [|now apply keeps_ret].
  keeps_step. eapply keeps_bind; [apply keeps_opt_read2 | intros x2 _].
  keeps_step. match goal with t : bool |- _ => destruct t end;
    destruct x2; repeat keeps_step; now apply keeps_ret.
Qed.

Lemma keeps_TCA_fit (s : TCA.self) (Xs Xt : ref) :
  keeps b (fun _ => True) (HeapTCA.fit eig s Xs Xt).
Proof.
  unfold HeapTCA.fit.
  repeat keeps_step. destruct (shape _) as [m n].
  repeat keeps_step.
  eapply keeps_bind; [apply keeps_TCA_kernel | intros [K|] _]; [|apply keeps_lift].
  repeat keeps_step. match goal with p : (vec * matrix)%type |- _ => destruct p as [w v] end.
  repeat keeps_step. now apply keeps_ret.
Qed.

Lemma keeps_TCA_fit_predict (s : TCA.self) (Xs Ys Xt : ref) (Yt : option ref) :
  keeps b (fun _ => True) (HeapTCA.fit_predict eig s Xs Ys Xt Yt).
Proof.
  unfold HeapTCA.fit_predict.
  eapply keeps_bind; [apply keeps_TCA_fit | intros [Z ns] _].
  repeat keeps_step.
  eapply keeps_bind; [apply keeps_opt_readl | intros yt _].
  repeat keeps_step. now apply keeps_ret.
Qed.

Lemma keeps_read_num (N : HeapJDA.numref) : keeps b (fun _ => True) (HeapJDA.read_num N).
Proof.
  destruct N as [x|r]; simpl; [now apply keeps_ret|].
  keeps_step. now apply keeps_ret.
Qed.

Lemma keeps_assign (e : ref) (idx : list nat) (x : R) :
  (b <= e)%nat -> keeps b (fun _ => True) (HeapJDA.assign e idx x).
Proof.
  intros He. unfold HeapJDA.assign. repeat keeps_step. keeps_prim.
Qed.

Lemma keeps_class_pass (n ns : nat) (Ys ps : ref) (c : Z) (N : HeapJDA.numref) :
  keeps b (fun r => (b <= fst r)%nat) (HeapJDA.class_pass n ns Ys ps c N).
Proof.
  unfold HeapJDA.class_pass.
  repeat keeps_step.
  eapply keeps_bind; [now apply keeps_assign | intros _ _].
  repeat keeps_step.
  eapply keeps_bind; [now apply keeps_assign | intros _ _].
  repeat keeps_step.
  eapply keeps_bind; [apply keeps_read_num | intros nv _].
  keeps_step. now apply keeps_ret.
Qed.

Lemma keeps_class_loop (n ns : nat) (Ys ps : ref) (cs : list Z) (e : ref)
  (N : HeapJDA.numref) :
  (b <= e)%nat ->
  keeps b (fun r => (b <= fst r)%nat) (HeapJDA.class_loop n ns Ys ps cs e N).
Proof.
  revert e N. induction cs as [|c cs IH]; intros e N He; simpl.
  - now apply keeps_ret.
  - eapply keeps_bind; [apply keeps_class_pass | intros [e' N'] He'].
    now apply IH.
Qed.

Lemma keeps_class_loop_any (n ns : nat) (Ys ps : ref) (cs : list Z) (e : ref)
  (N : HeapJDA.numref) :
  keeps b (fun _ => True) (HeapJDA.class_loop n ns Ys ps cs e N).
Proof.
  revert e N. induction cs as [|c cs IH]; intros e N; simpl.
  - now apply keeps_ret.
  - eapply keeps_bind; [apply keeps_class_pass | intros [e' N'] _]. apply IH.
Qed.

Lemma keeps_alignment_any (n ns nt C : nat) (Ys e : ref) (ps : option ref) :
  keeps b (fun _ => True) (HeapJDA.alignment n ns nt C Ys e ps).
Proof.
  unfold HeapJDA.alignment.
  repeat keeps_step.
  eapply keeps_bind with (Q := fun _ => True).
  { destruct ps as [p|]; [|now apply keeps_ret].
    keeps_step. destruct (Nat.eqb _ _); [apply keeps_class_loop_any | now apply keeps_ret]. }
  intros [e' N'] _.
  keeps_step.
  eapply keeps_bind; [apply keeps_read_num | intros nv _].
  repeat keeps_step. now apply keeps_ret.
Qed.

Lemma keeps_alignment (n ns nt C : nat) (Ys e : ref) (ps : option ref) :
  (b <= e)%nat ->
  keeps b (fun r => (b <= fst r)%nat) (HeapJDA.alignment n ns nt C Ys e ps).
Proof.
  intros He. unfold HeapJDA.alignment.
  repeat keeps_step.
  eapply keeps_bind with (Q := fun r => (b <= fst r)%nat).
  { destruct ps as [p|]; [|now apply keeps_ret].
    keeps_step. destruct (Nat.eqb _ _); [now apply keeps_class_loop | now apply keeps_ret]. }
  intros [e' N'] He'.
  keeps_step.
  eapply keeps_bind; [apply keeps_read_num | intros nv _].
  repeat keeps_step. now apply keeps_ret.
Qed.

Lemma keeps_iteration (s : JDA.self) (X H : ref) (m n ns nt C : nat) (Ys : ref)
  (Yt : option ref) (st : HeapJDA.locals) :
  local b st ->
  keeps b (local b) (HeapJDA.iteration eig s X H m n ns nt C Ys Yt st).
Proof.
  intros [He Hl]. unfold HeapJDA.iteration.
  eapply keeps_bind; [now apply keeps_alignment | intros [e' M] He'].
  eapply keeps_bind; [apply keeps_JDA_kernel | intros [K|] _]; [|apply keeps_lift].
  repeat keeps_step. match goal with p : (vec * matrix)%type |- _ => destruct p as [w v] end.
  repeat keeps_step.
  eapply keeps_bind; [apply keeps_opt_readl | intros yt _].
  repeat keeps_step. apply keeps_ret. split; assumption.
Qed.

Lemma keeps_loop (k : nat) (body : HeapJDA.locals -> ST HeapJDA.locals)
  (st : HeapJDA.locals) :
  (forall st, local b st -> keeps b (local b) (body st)) ->
  local b st -> keeps b (local b) (HeapJDA.loop k body st).
Proof.
  intros Hbody. revert st. induction k as [|k IH]; intros st Hst; simpl.
  - now apply keeps_ret.
  - eapply keeps_bind; [now apply Hbody | intros st' Hst']. now apply IH.
Qed.

Lemma keeps_JDA_fit_predict (s : JDA.self) (Xs Ys Xt : ref) (Yt : option ref) :
  keeps b (fun _ => True) (HeapJDA.fit_predict eig s Xs Ys Xt Yt).
Proof.
  unfold HeapJDA.fit_predict, HeapJDA.run.
  eapply keeps_bind with (Q := local b).
  - repeat keeps_step. destruct (shape _) as [m n].
    repeat keeps_step.
    apply keeps_loop.
    + intros st Hst. now apply keeps_iteration.
    + split; assumption.
  - intros st _. destruct (HeapJDA.acc st); [now apply keeps_ret | apply keeps_lift].
Qed.

End FramePrograms.

Lemma same_below_app (h h' : Heap.heap) :
  same_below (length h) h h' -> exists fresh, h' = h ++ fresh.
Proof.
  intros [Hlen Heq]. exists (skipn (length h) h').
  rewrite <- (firstn_skipn (length h) h') at 1. f_equal.
  apply nth_error_ext. intros p.
  destruct (Nat.lt_ge_cases p (length h)) as [Hp|Hp].
  - rewrite nth_error_firstn. destruct (Nat.ltb_spec p (length h)); [auto | lia].
  - rewrite (proj2 (nth_error_None h p) Hp).
    apply nth_error_None. rewrite length_firstn. lia.
Qed.

(** C9. Whatever the heap, the references passed for [Xs], [Ys], [Xt],
    [Yt] and the configuration, and whether the call returns or raises,
    [fit_predict] of JDA, [fit_predict] of TCA and [TCA.fit] leave every
    object that existed before the call as it was: the heap after the call
    is the heap before it followed by the arrays the call created. *)
Theorem caller_arrays_unchanged (eig : eigensolver) (s : JDA.self) (s' : TCA.self)
  (h : Heap.heap) (Xs Ys Xt : Heap.ref) (Yt : option Heap.ref) :
  (exists fresh, snd (HeapJDA.fit_predict eig s Xs Ys Xt Yt h) = h ++ fresh)
  /\ (exists fresh, snd (HeapTCA.fit_predict eig s' Xs Ys Xt Yt h) = h ++ fresh)
  /\ (exists fresh, snd (HeapTCA.fit eig s' Xs Xt h) = h ++ fresh).
Proof.
  split; [|split]; apply same_below_app.
  - apply (keeps_JDA_fit_predict eig (length h) s Xs Ys Xt Yt h). lia.
  - apply (keeps_TCA_fit_predict eig (length h) s' Xs Ys Xt Yt h). lia.
  - apply (keeps_TCA_fit eig (length h) s' Xs Xt h). lia.
Qed.

(** ** The functions over the heap compute what the functions over values do *)

Section HeapRun.

Import Heap.
Local Open Scope heap_scope.

Lemma pts_lt h r o : pts h r o -> (r < length h)%nat.
Proof. unfold pts. intros H. apply nth_error_Some. congruence. Qed.

Lemma pts_app h L r o : pts h r o -> pts (h ++ L) r o.
Proof.
  intros H. unfold pts. rewrite nth_error_app1; [assumption | eapply pts_lt; eauto].
Qed.

Lemma pts_new h o : pts (h ++ [o]) (length h) o.
Proof. unfold pts. rewrite nth_error_app2 by lia. now rewrite Nat.sub_diag. Qed.

Lemma pts_set_same h r o o' : pts h r o -> pts (set_obj r o' h) r o'.
Proof.
  unfold pts. revert r. induction h as [|x h IH]; intros [|r]; simpl; try discriminate; auto.
Qed.

Lemma pts_set_other h r x o o' : x <> r -> pts h x o -> pts (set_obj r o' h) x o.
Proof. unfold pts. intros Hx H. now rewrite set_obj_other. Qed.

Lemma run_alloc {B} o (k : ref -> ST B) h :
  Heap.bind (alloc o) k h = k (length h) (h ++ [o]).
Proof. reflexivity. Qed.

Lemma run_read2 {B} r A (k : matrix -> ST B) h :
  pts h r (F2 A) -> Heap.bind (read2 r) k h = k A h.
Proof. unfold pts, Heap.bind, read2. now intros ->. Qed.

Lemma run_read1 {B} r v (k : vec -> ST B) h :
  pts h r (F1 v) -> Heap.bind (read1 r) k h = k v h.
Proof. unfold pts, Heap.bind, read1. now intros ->. Qed.

Lemma run_readl {B} r l (k : list Z -> ST B) h :
  pts h r (L1 l) -> Heap.bind (readl r) k h = k l h.
Proof. unfold pts, Heap.bind, readl. now intros ->. Qed.

Lemma run_write {B} r o (k : unit -> ST B) h :
  Heap.bind (write r o) k h = k tt (set_obj r o h).
Proof. reflexivity. Qed.

Lemma run_lift {A B} (x : result A) (k : A -> ST B) h :
  Heap.bind (lift x) k h = match x with Ok a => k a h | Raise ex => (Raise ex, h) end.
Proof. unfold Heap.bind, lift. now destruct x. Qed.

Lemma run_ret {A B} (a : A) (k : A -> ST B) h : Heap.bind (ret a) k h = k a h.
Proof. reflexivity. Qed.

Lemma run_bind {A B C} (m : ST A) (k : A -> ST B) (k' : B -> ST C) h :
  Heap.bind (Heap.bind m k) k' h = Heap.bind m (fun a => Heap.bind (k a) k') h.
Proof. unfold Heap.bind. destruct (m h) as [[a|ex] h']; reflexivity. Qed.

Lemma run_ok {A B} (m : ST A) (k : A -> ST B) h a h' :
  m h = (Ok a, h') -> Heap.bind m k h = k a h'.
Proof. unfold Heap.bind. now intros ->. Qed.

Lemma run_raise {A B} (m : ST A) (k : A -> ST B) h ex h' :
  m h = (Raise ex, h') -> Heap.bind m k h = (Raise ex, h').
Proof. unfold Heap.bind. now intros ->. Qed.

Lemma same_below_mono h h' : same_below (length h) h h' -> mono h h'.
Proof.
  intros [_ H] x y Hx. unfold pts in *. rewrite H; [assumption|].
  apply nth_error_Some. congruence.
Qed.

Lemma keeps_mono {A} (Q : nat -> A -> Prop) (m : ST A) h :
  (forall b, keeps b (Q b) m) -> mono h (snd (m h)).
Proof. intros H. apply same_below_mono. apply (H (length h) h). lia. Qed.

Lemma opt_pts_mono h h' r l : mono h h' -> opt_pts h r l -> opt_pts h' r l.
Proof. intros Hm. destruct r, l; simpl; auto. Qed.

Lemma num_pts_mono h h' N v : mono h h' -> num_pts h N v -> num_pts h' N v.
Proof. intros Hm. destruct N, v; simpl; auto. Qed.

End HeapRun.

(** One step of a run: the facts [pts h r o] of the context are carried
    to the heap after the step, with the order of the references. *)
Ltac after_alloc h o :=
  let r := fresh "r" in
  let h' := fresh "h" in
  pose proof (pts_new h o);
  repeat match goal with
         | H : pts h ?x ?y |- _ =>
             pose proof (pts_lt h x y H);
             apply (pts_app h [o]) in H
         end;
  set (r := length h) in *; clearbody r;
  set (h' := (h ++ [o])%list) in *; clearbody h'; try clear h.

Ltac after_write h r o :=
  let h' := fresh "h" in
  repeat match goal with
         | H : pts h r ?y |- _ => apply (pts_set_same h r y o) in H
         | H : pts h ?x ?y |- _ => apply (pts_set_other h r x y o ltac:(lia)) in H
         end;
  set (h' := Heap.set_obj r o h) in *; clearbody h'; try clear h.

Ltac hstep :=
  lazymatch goal with
  | |- context [Heap.bind (Heap.bind ?m ?k1) ?k2 ?h] =>
      rewrite (run_bind m k1 k2 h)
  | |- context [Heap.bind (Heap.alloc ?o) ?k ?h] =>
      rewrite (run_alloc o k h); after_alloc h o
  | |- context [Heap.bind (Heap.write ?r ?o) ?k ?h] =>
      rewrite (run_write r o k h); after_write h r o
  | |- context [Heap.bind (Heap.read2 ?r) ?k ?h] =>
      erewrite (run_read2 r _ k h) by eassumption
  | |- context [Heap.bind (Heap.read1 ?r) ?k ?h] =>
      erewrite (run_read1 r _ k h) by eassumption
  | |- context [Heap.bind (Heap.readl ?r) ?k ?h] =>
      erewrite (run_readl r _ k h) by eassumption
  | |- context [Heap.bind (Heap.ret ?a) ?k ?h] =>
      rewrite (run_ret a k h)
  end; cbv beta.

(** Reduction of the result monad's bind. *)
Ltac pbind := cbn [bind].

Ltac hlift :=
  lazymatch goal with
  | |- context [Heap.bind (Heap.lift ?x) ?k ?h] =>
      rewrite (run_lift x k h);
      let E := fresh "E" in
      destruct x eqn:E; cbn [bind]; [|reflexivity]
  end.

Ltac transport Hm :=
  repeat match goal with
         | H : pts ?h ?x ?y |- _ =>
             lazymatch type of Hm with
             | mono h _ => apply Hm in H
             end
         | H : opt_pts ?h ?x ?y |- _ =>
             lazymatch type of Hm with
             | mono h _ => apply (opt_pts_mono _ _ _ _ Hm) in H
             end
         | H : num_pts ?h ?x ?y |- _ =>
             lazymatch type of Hm with
             | mono h _ => apply (num_pts_mono _ _ _ _ Hm) in H
             end
         end.

(** A call of a function whose correspondence [Hsim] is known. *)
Ltac hcall Hsim Hmono :=
  let E := fresh "E" in
  let Ep := fresh "Ep" in
  let Hs := fresh "Hs" in
  let Hm := fresh "Hm" in
  lazymatch type of Hsim with
  | agree (?m ?h) ?p _ =>
      pose proof Hsim as Hs; pose proof Hmono as Hm;
      revert Hs Hm;
      destruct (m h) as [[? | ?] ?] eqn:E; destruct p eqn:Ep;
      cbn [agree fst snd]; intros Hs Hm; try contradiction;
      [ rewrite (run_ok _ _ _ _ _ E); cbn [bind]; transport Hm
      | rewrite (run_raise _ _ _ _ _ E); subst; reflexivity ]
  end.

Section Correspondence.

Import Heap.
Local Open Scope heap_scope.

Variable eig : eigensolver.

Lemma TCA_kernel_sim ker h X xv g :
  pts h X (F2 xv) ->
  agree (HeapTCA.kernel ker X None g h) (TCA.kernel ker xv None g)
    (fun oK okv h' => match oK, okv with
                      | Some K, Some kv => pts h' K (F2 kv)
                      | None, None => True
                      | _, _ => False
                      end).
Proof.
  intros HX. unfold TCA.kernel, HeapTCA.kernel.
  destruct (falsy ker || is_str ker "primal"); [exact HX|].
  destruct (is_str ker "linear").
  { repeat hstep. cbn. assumption. }
  destruct (is_str ker "rbf"); [|exact I].
  repeat hstep. cbn. assumption.
Qed.

Lemma TCA_fit_sim s h Xs Xt xs xt :
  pts h Xs (F2 xs) -> pts h Xt (F2 xt) ->
  agree (HeapTCA.fit eig s Xs Xt h) (TCA.fit eig s xs xt)
    (fun r P h' => exists z, pts h' (fst r) (F2 z)
       /\ P = (transpose (map (firstn (snd r)) z), transpose (map (skipn (snd r)) z))).
Proof.
  intros HXs HXt.
  unfold HeapTCA.fit, TCA.fit, TCA.alignment.
  repeat hstep. destruct (shape _) as [m n].
  hlift. repeat hstep. hlift. repeat hstep.
  lazymatch goal with
  | |- context [Heap.bind (HeapTCA.kernel ?ker ?X None ?g) _ ?h] =>
      lazymatch goal with
      | HX : pts h X (F2 ?xv) |- _ =>
          hcall (TCA_kernel_sim ker h X xv g HX)
                (keeps_mono _ (HeapTCA.kernel ker X None g) h
                   (fun b => keeps_TCA_kernel b ker X None g))
      end
  end.
  match goal with o : option ref |- _ => destruct o as [K|] end;
    match goal with o : option matrix |- _ => destruct o as [kv|] end;
    try contradiction; [|reflexivity].
  repeat hstep. hlift.
  match goal with p : (vec * matrix)%type |- _ => destruct p as [w v] end.
  repeat hstep. cbn. eexists. split; [eassumption | reflexivity].
Qed.

Lemma TCA_fit_predict_sim s h Xs Ys Xt Yt xs ys xt yt :
  pts h Xs (F2 xs) -> pts h Ys (L1 ys) -> pts h Xt (F2 xt) -> opt_pts h Yt yt ->
  agree (HeapTCA.fit_predict eig s Xs Ys Xt Yt h) (TCA.fit_predict eig s xs ys xt yt)
    (fun r r' h' => fst r = fst r' /\ pts h' (snd r) (L1 (snd r'))).
Proof.
  intros HXs HYs HXt HYt.
  unfold HeapTCA.fit_predict, TCA.fit_predict.
  destruct Yt as [yr|], yt as [yl|]; try contradiction; cbn [opt_pts] in HYt.
  - hcall (TCA_fit_sim s h Xs Xt xs xt HXs HXt)
          (keeps_mono _ (HeapTCA.fit eig s Xs Xt) h
             (fun b => keeps_TCA_fit eig b s Xs Xt)).
    match goal with H : exists z, _ |- _ => destruct H as (z & Hz & ->) end.
    match goal with p : (ref * nat)%type |- _ => destruct p as [Z ns] end.
    cbn [fst snd] in *.
    repeat hstep. hlift. repeat hstep. hlift. repeat hstep. cbn. auto.
  - hcall (TCA_fit_sim s h Xs Xt xs xt HXs HXt)
          (keeps_mono _ (HeapTCA.fit eig s Xs Xt) h
             (fun b => keeps_TCA_fit eig b s Xs Xt)).
    match goal with H : exists z, _ |- _ => destruct H as (z & Hz & ->) end.
    match goal with p : (ref * nat)%type |- _ => destruct p as [Z ns] end.
    cbn [fst snd] in *.
    repeat hstep. hlift. repeat hstep. hlift. discriminate.
Qed.

Lemma JDA_kernel_sim ker h X xv g :
  pts h X (F2 xv) ->
  agree (HeapJDA.kernel ker X None g h) (JDA.kernel ker xv None g)
    (fun oK okv h' => match oK, okv with
                      | Some K, Some kv => pts h' K (F2 kv)
                      | None, None => True
                      | _, _ => False
                      end).
Proof.
  intros HX. unfold JDA.kernel, HeapJDA.kernel.
  destruct (falsy ker || is_str ker "primal"); [exact HX|].
  destruct (is_str ker "linear").
  { repeat hstep. rewrite run_lift. cbn [JDA.truth bind].
    repeat hstep. cbn. assumption. }
  destruct (is_str ker "rbf"); [|exact I].
  repeat hstep. rewrite run_lift. cbn [JDA.truth bind].
  repeat hstep. cbn. assumption.
Qed.

Lemma class_pass_sim n ns h Ys ps c N ysv psv Nv :
  pts h Ys (L1 ysv) -> pts h ps (L1 psv) -> num_pts h N Nv ->
  agree (HeapJDA.class_pass n ns Ys ps c N h) (JDA.class_vector n ns ysv psv c)
    (fun r ev h' => pts h' (fst r) (F1 ev)
                    /\ num_pts h' (snd r) (np_add Nv (Mat (outer ev ev)))).
Proof.
  intros HYs Hps HN.
  unfold HeapJDA.class_pass, JDA.class_vector, HeapJDA.assign.
  destruct N as [x|rN], Nv as [y|A]; try contradiction; cbn [num_pts] in HN.
  - subst y. repeat hstep. hlift. repeat hstep. hlift. repeat hstep.
    hlift. repeat hstep. hlift. repeat hstep.
    cbn [HeapJDA.read_num]. repeat hstep. cbn. split; assumption.
  - repeat hstep. hlift. repeat hstep. hlift. repeat hstep.
    hlift. repeat hstep. hlift. repeat hstep.
    cbn [HeapJDA.read_num]. repeat hstep. cbn. split; assumption.
Qed.

Lemma class_loop_sim n ns Ys ps ysv psv cs :
  forall h e N ev Nv,
    pts h Ys (L1 ysv) -> pts h ps (L1 psv) -> pts h e (F1 ev) -> num_pts h N Nv ->
    agree (HeapJDA.class_loop n ns Ys ps cs e N h) (JDA.class_loop n ns ysv psv cs ev Nv)
      (fun r r' h' => pts h' (fst r) (F1 (fst r')) /\ num_pts h' (snd r) (snd r')).
Proof.
  induction cs as [|c cs IH]; intros h e N ev Nv HYs Hps He HN.
  - cbn. split; assumption.
  - cbn [HeapJDA.class_loop JDA.class_loop].
    hcall (class_pass_sim n ns h Ys ps c N ysv psv Nv HYs Hps HN)
          (keeps_mono _ (HeapJDA.class_pass n ns Ys ps c N) h
             (fun b => keeps_class_pass b n ns Ys ps c N)).
    match goal with p : (ref * HeapJDA.numref)%type |- _ => destruct p as [e' N'] end.
    match goal with H : _ /\ _ |- _ => destruct H as [He' HN'] end.
    cbn [fst snd] in *.
    now apply IH.
Qed.

Lemma alignment_sim n ns nt C h Ys e ps ysv ev psv :
  pts h Ys (L1 ysv) -> pts h e (F1 ev) -> opt_pts h ps psv ->
  agree (HeapJDA.alignment n ns nt C Ys e ps h) (JDA.alignment n ns nt C ysv ev psv)
    (fun r r' h' => pts h' (fst r) (F1 (fst r')) /\ pts h' (snd r) (F2 (snd r'))).
Proof.
  intros HYs He Hps.
  unfold HeapJDA.alignment, JDA.alignment, JDA.alignment_raw.
  destruct ps as [p|], psv as [pv|]; try contradiction; cbn [opt_pts] in Hps.
  - repeat hstep.
    destruct (Nat.eqb (length pv) nt).
    + lazymatch goal with
      | |- context [Heap.bind (HeapJDA.class_loop ?n ?ns ?Ys ?p ?cs ?e ?N) _ ?h] =>
          lazymatch goal with
          | H1 : pts h Ys (L1 ?ysv), H2 : pts h p (L1 ?pv), H3 : pts h e (F1 ?ev) |- _ =>
              hcall (class_loop_sim n ns Ys p ysv pv cs h e N ev (Sc 0) H1 H2 H3 eq_refl)
                    (keeps_mono _ (HeapJDA.class_loop n ns Ys p cs e N) h
                       (fun b => keeps_class_loop_any b n ns Ys p cs e N))
          end
      end.
      match goal with p : (ref * HeapJDA.numref)%type |- _ => destruct p as [e' N'] end.
      match goal with p : (vec * num)%type |- _ => destruct p as [ev' Nv'] end.
      match goal with H : _ /\ _ |- _ => destruct H as [He' HN'] end.
      cbn [fst snd] in *.
      destruct N' as [x|rN], Nv' as [y|A]; try contradiction; cbn [num_pts] in HN'.
      * subst y. cbn [HeapJDA.read_num]. repeat hstep. cbn. split; assumption.
      * cbn [HeapJDA.read_num]. repeat hstep. cbn. split; assumption.
    + repeat hstep. cbn [HeapJDA.read_num]. repeat hstep. cbn. split; assumption.
  - repeat hstep. cbn [HeapJDA.read_num]. repeat hstep. cbn. split; assumption.
Qed.

Lemma iteration_sim s X Hr m n ns nt C Ys Yt xv hv ys yt stH stP h :
  inv X Hr Ys Yt xv hv ys yt stH stP h ->
  agree (HeapJDA.iteration eig s X Hr m n ns nt C Ys Yt stH h)
        (JDA.iteration eig s xv hv m n ns nt C ys yt stP)
        (inv X Hr Ys Yt xv hv ys yt).
Proof.
  destruct stH as [e M ps Z acc la], stP as [ev Mv psv new accv lv].
  unfold inv. cbn [HeapJDA.e HeapJDA.Y_tar_pseudo HeapJDA.list_acc HeapJDA.acc
                   JDA.e JDA.Y_tar_pseudo JDA.list_acc JDA.acc].
  intros (HX & HH & HYs & HYt & He & Hps & Hla & Hacc & NX & NH & NYs & NYt & Lte & Ltp).
  unfold HeapJDA.iteration, JDA.iteration.
  cbn [HeapJDA.e HeapJDA.Y_tar_pseudo HeapJDA.list_acc HeapJDA.acc
       JDA.e JDA.Y_tar_pseudo JDA.list_acc JDA.acc].
  assert (Hb : match fst (HeapJDA.alignment n ns nt C Ys e ps h) with
               | Ok r => (S la <= fst r)%nat
               | Raise _ => True
               end).
  { apply (keeps_alignment (S la) n ns nt C Ys e ps Lte h).
    apply pts_lt in Hla. lia. }
  hcall (alignment_sim n ns nt C h Ys e ps ys ev psv HYs He Hps)
        (keeps_mono _ (HeapJDA.alignment n ns nt C Ys e ps) h
           (fun b => keeps_alignment_any b n ns nt C Ys e ps)).
  match goal with p : (ref * ref)%type |- _ => destruct p as [e' Mr] end.
  match goal with p : (vec * matrix)%type |- _ => destruct p as [ev' Mv'] end.
  match goal with H : _ /\ _ |- _ => destruct H as [He' HM'] end.
  cbn [fst snd] in *.
  lazymatch goal with
  | |- context [Heap.bind (HeapJDA.kernel ?ker X None ?g) _ ?h] =>
      lazymatch goal with
      | HX' : pts h X (F2 xv) |- _ =>
          hcall (JDA_kernel_sim ker h X xv g HX')
                (keeps_mono _ (HeapJDA.kernel ker X None g) h
                   (fun b => keeps_JDA_kernel b ker X None g))
      end
  end.
  match goal with o : option ref |- _ => destruct o as [K|] end;
    match goal with o : option matrix |- _ => destruct o as [kv|] end;
    try contradiction; [|reflexivity].
  assert (NYt' : forall r, Yt = Some r -> r <> la) by (intros r -> ->; now apply NYt).
  destruct Yt as [yr|], yt as [yl|]; try contradiction; cbn [opt_pts] in *.
  - specialize (NYt' yr eq_refl).
    repeat hstep. hlift.
    match goal with p : (vec * matrix)%type |- _ => destruct p as [w v] end.
    repeat hstep. hlift. repeat hstep. hlift. repeat hstep.
    cbn. repeat (split; try assumption; try lia).
    intros p [= <-]. lia.
  - repeat hstep. hlift.
    match goal with p : (vec * matrix)%type |- _ => destruct p as [w v] end.
    repeat hstep. hlift. repeat hstep. hlift. discriminate.
Qed.

Lemma agree_weaken {A B : Type} (x : result A * heap) (p : result B)
  (R R' : A -> B -> heap -> Prop) :
  agree x p R -> (forall a b h, R a b h -> R' a b h) -> agree x p R'.
Proof.
  unfold agree. destruct (fst x), p; auto.
Qed.

Lemma loop_sim s X Hr m n ns nt C Ys Yt xv hv ys yt k :
  forall stH stP h,
    inv X Hr Ys Yt xv hv ys yt stH stP h ->
    agree (HeapJDA.loop k (HeapJDA.iteration eig s X Hr m n ns nt C Ys Yt) stH h)
          (JDA.loop k (JDA.iteration eig s xv hv m n ns nt C ys yt) stP)
          (inv X Hr Ys Yt xv hv ys yt).
Proof.
  induction k as [|k IH]; intros stH stP h Hinv; [exact Hinv|].
  cbn [HeapJDA.loop JDA.loop].
  pose proof (iteration_sim s X Hr m n ns nt C Ys Yt xv hv ys yt stH stP h Hinv) as Hs.
  revert Hs.
  destruct (HeapJDA.iteration eig s X Hr m n ns nt C Ys Yt stH h) as [[stH'|ex] h'] eqn:E;
    destruct (JDA.iteration eig s xv hv m n ns nt C ys yt stP) as [stP'|ex'];
    cbn [agree fst snd]; intros Hs; try contradiction.
  - rewrite (run_ok _ _ _ _ _ E). pbind. now apply IH.
  - rewrite (run_raise _ _ _ _ _ E). exact Hs.
Qed.

Lemma run_sim s h Xs Ys Xt Yt xs ys xt yt :
  pts h Xs (F2 xs) -> pts h Ys (L1 ys) -> pts h Xt (F2 xt) -> opt_pts h Yt yt ->
  agree (HeapJDA.run eig s Xs Ys Xt Yt h) (JDA.run eig s xs ys xt yt)
    (fun stH stP h' =>
       HeapJDA.acc stH = JDA.acc stP
       /\ opt_pts h' (HeapJDA.Y_tar_pseudo stH) (JDA.Y_tar_pseudo stP)
       /\ pts h' (HeapJDA.list_acc stH) (F1 (JDA.list_acc stP))).
Proof.
  intros HXs HYs HXt HYt.
  unfold HeapJDA.run, JDA.run.
  destruct Yt as [yr|], yt as [yl|]; try contradiction; cbn [opt_pts] in HYt.
  - repeat hstep. destruct (shape _) as [m n].
    hlift. repeat hstep. hlift. repeat hstep.
    eapply agree_weaken.
    + apply loop_sim. unfold inv. cbn.
      repeat (split; try assumption; try lia).
      * intros [= ->]. lia.
      * discriminate.
    + intros stH stP h' Hinv. unfold inv in Hinv. tauto.
  - repeat hstep. destruct (shape _) as [m n].
    hlift. repeat hstep. hlift. repeat hstep.
    eapply agree_weaken.
    + apply loop_sim. unfold inv. cbn.
      repeat (split; try assumption; try lia); discriminate.
    + intros stH stP h' Hinv. unfold inv in Hinv. tauto.
Qed.

(** X1. Run on a heap in which [Xs], [Ys], [Xt] (and [Yt], when given)
    refer to arrays, the functions over the heap raise what the functions over the
    values of these arrays raise, or return what they return: the same
    accuracy, and references to the predicted labels and to the history. *)
Theorem heap_functions_agree (s : JDA.self) (s' : TCA.self) (h : heap)
  (Xs Ys Xt : ref) (Yt : option ref)
  (xs : matrix) (ys : list Z) (xt : matrix) (yt : option (list Z)) :
  pts h Xs (F2 xs) -> pts h Ys (L1 ys) -> pts h Xt (F2 xt) -> opt_pts h Yt yt ->
  agree (HeapJDA.fit_predict eig s Xs Ys Xt Yt h) (JDA.fit_predict eig s xs ys xt yt)
    (fun r r' h' =>
       fst (fst r) = fst (fst r')
       /\ opt_pts h' (snd (fst r)) (snd (fst r'))
       /\ pts h' (snd r) (F1 (snd r')))
  /\ agree (HeapTCA.fit_predict eig s' Xs Ys Xt Yt h) (TCA.fit_predict eig s' xs ys xt yt)
       (fun r r' h' => fst r = fst r' /\ pts h' (snd r) (L1 (snd r'))).
Proof.
  intros HXs HYs HXt HYt. split; [|now apply TCA_fit_predict_sim].
  unfold HeapJDA.fit_predict, JDA.fit_predict.
  pose proof (run_sim s h Xs Ys Xt Yt xs ys xt yt HXs HYs HXt HYt) as Hs.
  revert Hs.
  destruct (HeapJDA.run eig s Xs Ys Xt Yt h) as [[stH|ex] h'] eqn:E;
    destruct (JDA.run eig s xs ys xt yt) as [stP|ex'];
    cbn [agree fst snd]; intros Hs; try contradiction.
  - rewrite (run_ok _ _ _ _ _ E). pbind.
    destruct Hs as (Hacc & Hps & Hla). rewrite <- Hacc.
    destruct (HeapJDA.acc stH) as [a|]; cbn; auto.
  - rewrite (run_raise _ _ _ _ _ E). exact Hs.
Qed.

End Correspondence.

(** ** Instances *)

Lemma JDA_one_round_is_TCA_witness :
  length [1%Z] = length [[1]]
  /\ JDA.fit_predict eig_diag (as_JDA TCA.default 1) [[1]] [1%Z] [[1]] (Some [1%Z])
     = ('(acc, y) <- TCA.fit_predict eig_diag TCA.default [[1]] [1%Z] [[1]] (Some [1%Z]) ;;
        Ok (acc, Some y, [acc]))
  /\ (forall st,
        JDA.run eig_diag (as_JDA TCA.default 1) [[1]] [1%Z] [[1]] (Some [1%Z]) = Ok st ->
        exists P, TCA.fit eig_diag TCA.default [[1]] [[1]] = Ok P /\ JDA.new st = Some P).
Proof.
  split; [reflexivity|].
  apply (JDA_one_round_is_TCA eig_diag TCA.default [[1]] [1%Z] [[1]] (Some [1%Z])).
  reflexivity.
Defined.

Lemma label_encoding_precondition_witness :
  (exists c, In c (class_range (n_unique [1%Z; 3%Z]))
             /\ count_occ Z.eq_dec [1%Z; 3%Z] c = 0%nat)
  /\ JDA.iteration eig_diag JDA.default [[1; 0; 1; 0]] (eye 4) 1 4 2 2
       (n_unique [1%Z; 3%Z]) [1%Z; 3%Z] (Some [1%Z; 3%Z])
       (JDA.Locals [1; 1; -1; -1] (Sc 0) (Some [1%Z; 3%Z]) None None [])
     = Raise ZeroDivisionError
  /\ (forall y, (Z.of_nat (n_unique [1%Z; 3%Z]) < y)%Z
                -> ~ In y (class_range (n_unique [1%Z; 3%Z]))).
Proof.
  apply (label_encoding_precondition eig_diag JDA.default [[1; 0; 1; 0]] (eye 4) 1 4 2 2
           [1%Z; 3%Z] (Some [1%Z; 3%Z])
           (JDA.Locals [1; 1; -1; -1] (Sc 0) (Some [1%Z; 3%Z]) None None [])
           [1%Z; 3%Z]); try reflexivity.
  intros Hall. destruct (Hall 2%Z) as [_ H2].
  assert (Hin : In 2%Z [1%Z; 3%Z]) by (apply H2; vm_compute; split; discriminate).
  simpl in Hin. destruct Hin as [Hin|[Hin|[]]]; discriminate.
Defined.

Lemma heap_functions_agree_witness :
  agree (HeapJDA.fit_predict eig_diag JDA.default 0%nat 1%nat 2%nat (Some 3%nat)
           [Heap.F2 [[1]]; Heap.L1 [1%Z]; Heap.F2 [[1]]; Heap.L1 [1%Z]])
        (JDA.fit_predict eig_diag JDA.default [[1]] [1%Z] [[1]] (Some [1%Z]))
        (fun r r' h' =>
           fst (fst r) = fst (fst r')
           /\ opt_pts h' (snd (fst r)) (snd (fst r'))
           /\ pts h' (snd r) (Heap.F1 (snd r')))
  /\ agree (HeapTCA.fit_predict eig_diag TCA.default 0%nat 1%nat 2%nat (Some 3%nat)
              [Heap.F2 [[1]]; Heap.L1 [1%Z]; Heap.F2 [[1]]; Heap.L1 [1%Z]])
           (TCA.fit_predict eig_diag TCA.default [[1]] [1%Z] [[1]] (Some [1%Z]))
           (fun r r' h' => fst r = fst r' /\ pts h' (snd r) (Heap.L1 (snd r'))).
Proof.
  apply (heap_functions_agree eig_diag JDA.default TCA.default
           [Heap.F2 [[1]]; Heap.L1 [1%Z]; Heap.F2 [[1]]; Heap.L1 [1%Z]]
           0%nat 1%nat 2%nat (Some 3%nat) [[1]] [1%Z] [[1]] (Some [1%Z])); reflexivity.
Defined.

(** ** A call that returns *)

Lemma loop_history (eig : eigensolver) (s : JDA.self) (X H : matrix)
  (m n ns nt C : nat) (Ys : list Z) (Yt : option (list Z)) (k : nat) :
  forall st st',
    JDA.loop k (JDA.iteration eig s X H m n ns nt C Ys Yt) st = Ok st' ->
    length (JDA.list_acc st') = (length (JDA.list_acc st) + k)%nat
    /\ ((0 < k)%nat ->
        exists a y, JDA.acc st' = Some a
                    /\ nth_error (JDA.list_acc st') (length (JDA.list_acc st) + k - 1) = Some a
                    /\ JDA.Y_tar_pseudo st' = Some y).
Proof.
  induction k as [|k IH]; intros st st' Hrun; simpl in Hrun.
  - injection Hrun as <-. split; [lia | intros Hk; lia].
  - destruct (JDA.iteration eig s X H m n ns nt C Ys Yt st) as [st1|] eqn:H1;
      simpl in Hrun; [|discriminate].
    destruct (iteration_acc _ _ _ _ _ _ _ _ _ _ _ _ _ H1) as (a1 & Hacc1 & Hl1).
    destruct (IH st1 st' Hrun) as [Hlen Hlast].
    rewrite Hl1, length_app in Hlen. simpl in Hlen.
    split; [lia|]. intros _.
    destruct k as [|k'].
    + simpl in Hrun. injection Hrun as <-.
      unfold JDA.iteration in H1.
      destruct (JDA.alignment _ _ _ _ _ _ _) as [[e' M]|]; cbn [bind] in H1; [|discriminate].
      destruct (JDA.kernel _ _ _ _) as [[K|]|]; cbn [bind] in H1; try discriminate.
      destruct (eig _ _) as [[w V]|]; cbn [bind] in H1; [|discriminate].
      destruct (knn_predict _ _ _) as [y|]; cbn [bind] in H1; [|discriminate].
      destruct (accuracy_score Yt y) as [a|]; cbn [bind] in H1; [|discriminate].
      injection H1 as <-. cbn. exists a, y. split; [reflexivity|]. split; [|reflexivity].
      rewrite nth_error_app2 by lia.
      replace (length (JDA.list_acc st) + 1 - 1 - length (JDA.list_acc st))%nat with O by lia.
      reflexivity.
    + destruct Hlast as (a & y & Ha & Hn & Hy); [lia|].
      exists a, y. split; [assumption|]. split; [|assumption].
      rewrite Hl1, length_app in Hn. simpl in Hn.
      replace (length (JDA.list_acc st) + S (S k') - 1)%nat
        with (length (JDA.list_acc st) + 1 + S k' - 1)%nat by lia.
      exact Hn.
Qed.

(** X2. When [JDA.fit_predict] returns, it has made [T >= 1] passes: the
    history has [T] entries, the last of them is the accuracy it returns,
    and the labels it returns are those of the last pass. *)
Theorem history_of_a_returning_call (eig : eigensolver) (s : JDA.self)
  (Xs : matrix) (Ys : list Z) (Xt : matrix) (Yt : option (list Z))
  (a : R) (y : option (list Z)) (l : list R) :
  JDA.fit_predict eig s Xs Ys Xt Yt = Ok (a, y, l) ->
  (0 < JDA.T s)%nat
  /\ length l = JDA.T s
  /\ nth_error l (JDA.T s - 1) = Some a
  /\ exists labels, y = Some labels.
Proof.
  unfold JDA.fit_predict, JDA.run.
  destruct (shape _) as [m n].
  destruct (marginal _ _) as [e0|]; cbn [bind]; [|discriminate].
  destruct (py_div 1 n) as [h|]; cbn [bind]; [|discriminate].
  destruct (JDA.T s) as [|k] eqn:HT; [discriminate|].
  destruct (JDA.loop _ _ _) as [st|] eqn:Hloop; cbn [bind]; [|discriminate].
  apply loop_history in Hloop. cbn [JDA.list_acc length Nat.add] in Hloop.
  destruct Hloop as [Hlen Hlast].
  destruct Hlast as (a0 & y0 & Ha & Hn & Hy); [lia|].
  rewrite Ha. intros [= <- <- <-].
  split; [lia|]. split; [assumption|]. split; [assumption|]. eauto.
Qed.

Lemma history_of_a_returning_call_witness :
  JDA.fit_predict eig_diag (JDA.init (Some "primal"%string) 30 1 1 2)
    [[1]] [1%Z] [[1]] (Some [1%Z])
  = Ok (INR 1 / INR 1, Some [1%Z], [INR 1 / INR 1; INR 1 / INR 1])
  /\ (0 < 2)%nat
  /\ length [INR 1 / INR 1; INR 1 / INR 1] = 2%nat
  /\ nth_error [INR 1 / INR 1; INR 1 / INR 1] (2 - 1) = Some (INR 1 / INR 1)
  /\ exists labels, Some [1%Z] = Some labels.
Proof.
  split; [reflexivity|].
  apply (history_of_a_returning_call eig_diag (JDA.init (Some "primal"%string) 30 1 1 2)
           [[1]] [1%Z] [[1]] (Some [1%Z])).
  reflexivity.
Defined.

Lemma class_range_succ (C : nat) :
  class_range (S C) = class_range C ++ [Z.of_nat (S C)].
Proof.
  unfold class_range. rewrite seq_S, map_app. reflexivity.
Qed.

(** X3. A pass that has pseudo-labels for every target sample and at least
    one class leaves in [e] the vector of the last class, [C]: this, and not
    the marginal weighting vector, is what the next pass multiplies into
    [M0 = e * e.T * C]. *)
Theorem e_after_a_pass (n ns nt C : nat) (Ys ps : list Z) (e e' : vec) (M : matrix) :
  length ps = nt ->
  (0 < C)%nat ->
  JDA.alignment n ns nt C Ys e (Some ps) = Ok (e', M) ->
  JDA.class_vector n ns Ys ps (Z.of_nat C) = Ok e'.
Proof.
  intros Hps HC. unfold JDA.alignment, JDA.alignment_raw.
  rewrite Hps, Nat.eqb_refl.
  destruct C as [|C']; [lia|]. rewrite class_range_succ.
  destruct (JDA.class_loop _ _ _ _ _ _ _) as [[e1 N1]|] eqn:Hloop; cbn [bind]; [|discriminate].
  intros [= <- _].
  exact (class_loop_last n ns Ys ps _ _ _ _ _ _ Hloop).
Qed.

Lemma e_after_a_pass_witness :
  length [1%Z; 2%Z] = 2%nat
  /\ (0 < 2)%nat
  /\ JDA.class_vector 4 2 [1%Z; 2%Z] [1%Z; 2%Z] (Z.of_nat 2) = Ok [0; 1 / INR 1; 0; -1 / INR 1].
Proof.
  split; [reflexivity|]. split; [lia|].
  eapply (e_after_a_pass 4 2 2 2 [1%Z; 2%Z] [1%Z; 2%Z] [1; 1; -1; -1]).
  - reflexivity.
  - lia.
  - reflexivity.
Defined.

(** ** Edge cases of the drivers *)

Lemma shape_hstack (A B : matrix) :
  A <> [] -> B <> [] ->
  snd (shape (hstack A B)) = (length (hd [] A) + length (hd [] B))%nat.
Proof.
  destruct A as [|a A], B as [|b B]; try congruence. intros _ _.
  simpl. apply length_app.
Qed.

Lemma transpose_first_row (A : matrix) :
  has_entries A -> transpose A <> [] /\ length (hd [] (transpose A)) = length A.
Proof.
  unfold has_entries, transpose. destruct A as [|r A]; simpl; [congruence|].
  destruct r as [|x r]; [congruence|]. intros _.
  cbn [shape snd hd length seq map]. split; [discriminate|].
  unfold col. now rewrite length_map.
Qed.

(** The pooled matrix has one column per source and target sample. *)
Lemma pooled_columns (Xs Xt : matrix) :
  has_entries Xs -> has_entries Xt ->
  snd (shape (div_cols (hstack (transpose Xs) (transpose Xt))
                (col_norms (hstack (transpose Xs) (transpose Xt)))))
  = (length Xs + length Xt)%nat.
Proof.
  intros Hs Ht.
  destruct (transpose_first_row Xs Hs) as [Hs1 Hs2].
  destruct (transpose_first_row Xt Ht) as [Ht1 Ht2].
  rewrite shape_div_cols, shape_hstack by assumption. lia.
Qed.

Lemma has_entries_length (A : matrix) : has_entries A -> (0 < length A)%nat.
Proof. unfold has_entries. destruct A; simpl; [congruence | lia]. Qed.

Lemma marginal_raises (ns nt : nat) :
  ns = O \/ nt = O -> marginal ns nt = Raise ZeroDivisionError.
Proof.
  unfold marginal, py_div. intros [-> | ->]; [reflexivity|].
  destruct (Nat.eqb ns 0); reflexivity.
Qed.

(** X4. An empty source set or an empty target set (an array of no rows)
    never gives a result: [TCA.fit], [TCA.fit_predict] and
    [JDA.fit_predict] raise, whatever the other arguments, the
    configuration and [T] are. *)
Theorem empty_domain_raises (eig : eigensolver) (s : JDA.self) (s' : TCA.self)
  (Xs : matrix) (Ys : list Z) (Xt : matrix) (Yt : option (list Z)) :
  Xs = [] \/ Xt = [] ->
  (exists ex, TCA.fit eig s' Xs Xt = Raise ex)
  /\ (exists ex, TCA.fit_predict eig s' Xs Ys Xt Yt = Raise ex)
  /\ (exists ex, JDA.fit_predict eig s Xs Ys Xt Yt = Raise ex).
Proof.
  intros Hempty.
  assert (Hm : marginal (length Xs) (length Xt) = Raise ZeroDivisionError).
  { apply marginal_raises. destruct Hempty as [-> | ->]; auto. }
  assert (Hfit : TCA.fit eig s' Xs Xt = Raise ZeroDivisionError).
  { unfold TCA.fit, TCA.alignment. destruct (shape _) as [m n]. now rewrite Hm. }
  split; [eauto|]. split.
  - exists ZeroDivisionError. unfold TCA.fit_predict. now rewrite Hfit.
  - exists ZeroDivisionError. unfold JDA.fit_predict, JDA.run.
    destruct (shape _) as [m n]. now rewrite Hm.
Qed.

Lemma empty_domain_raises_witness :
  (exists ex, TCA.fit eig_diag TCA.default [] [[1]] = Raise ex)
  /\ (exists ex, TCA.fit_predict eig_diag TCA.default [] [] [[1]] (Some [1%Z]) = Raise ex)
  /\ (exists ex, JDA.fit_predict eig_diag JDA.default [] [] [[1]] (Some [1%Z]) = Raise ex).
Proof.
  apply (empty_domain_raises eig_diag JDA.default TCA.default [] [] [[1]] (Some [1%Z])).
  now left.
Defined.

Lemma of_shape_has_entries (r c : nat) (A : matrix) :
  of_shape r c A -> (0 < r)%nat -> (0 < c)%nat -> has_entries A.
Proof.
  intros [Hl Hr] H0 Hc. unfold has_entries.
  destruct A as [|row A]; [simpl in Hl; lia|].
  inversion Hr as [|? ? Hrow _]; subst. cbn [hd]. destruct row; [simpl in Hc; lia | discriminate].
Qed.

(** X5. With [T = 0], on a source array of shape [(ns, d)] and a target
    array of shape [(nt, d)] with [ns], [nt] and [d] positive (the
    operands of [np.hstack] conform), [JDA.fit_predict] makes no pass and
    its [return] finds [acc] unbound: [UnboundLocalError]. *)
Theorem no_round_raises (eig : eigensolver) (s : JDA.self)
  (Xs : matrix) (Ys : list Z) (Xt : matrix) (Yt : option (list Z)) (ns nt d : nat) :
  JDA.T s = O ->
  (0 < ns)%nat -> (0 < nt)%nat -> (0 < d)%nat ->
  of_shape ns d Xs -> of_shape nt d Xt ->
  JDA.fit_predict eig s Xs Ys Xt Yt = Raise UnboundLocalError.
Proof.
  intros HT Hns Hnt Hd HXs HXt.
  pose proof (of_shape_has_entries ns d Xs HXs Hns Hd) as Hs.
  pose proof (of_shape_has_entries nt d Xt HXt Hnt Hd) as Ht.
  unfold JDA.fit_predict, JDA.run.
  pose proof (pooled_columns Xs Xt Hs Ht) as Hn.
  destruct (shape _) as [m n]. simpl in Hn. subst n.
  apply has_entries_length in Hs, Ht.
  unfold marginal, py_div.
  destruct (Nat.eqb_spec (length Xs) 0); [lia|].
  destruct (Nat.eqb_spec (length Xt) 0); [lia|].
  destruct (Nat.eqb_spec (length Xs + length Xt) 0); [lia|].
  cbn [bind]. rewrite HT. reflexivity.
Qed.

Lemma no_round_raises_witness :
  JDA.fit_predict eig_diag (JDA.init (Some "linear"%string) 30 1 1 0)
    [[1; 2]] [1%Z] [[3; 4]] (Some [1%Z]) = Raise UnboundLocalError.
Proof.
  apply (no_round_raises eig_diag (JDA.init (Some "linear"%string) 30 1 1 0)
           [[1; 2]] [1%Z] [[3; 4]] (Some [1%Z]) 1 1 2); try lia; try reflexivity.
  - split; [reflexivity | repeat constructor].
  - split; [reflexivity | repeat constructor].
Defined.

(** ** What the drivers return *)

Lemma nearest_in (x : vec) (best : vec * Z) (train : list (vec * Z)) :
  In (nearest x best train) (map snd (best :: train)).
Proof.
  revert best. induction train as [|[u y] t IH]; intros best; simpl.
  - now left.
  - destruct (Rlt_dec _ _).
    + destruct (IH (u, y)) as [H|H]; simpl in *; auto.
    + destruct (IH best) as [H|H]; simpl in *; auto.
Qed.

(** The 1-nearest-neighbour classifier answers with training labels, one
    per query row. *)
Lemma knn_predict_labels (X : matrix) (y : list Z) (Xq : matrix) (r : list Z) :
  knn_predict X y Xq = Ok r -> Forall (fun v => In v y) r.
Proof.
  unfold knn_predict.
  destruct (negb _); [discriminate|].
  destruct (Nat.eqb (snd (shape X)) 0); [discriminate|].
  destruct (Nat.eqb (length Xq) 0); [discriminate|].
  destruct (combine X y) as [|b t] eqn:Hc; [discriminate|].
  intros [= <-]. apply Forall_forall. intros v Hv.
  apply in_map_iff in Hv. destruct Hv as (x & <- & _).
  assert (Hin : In (nearest x b t) (map snd (combine X y)))
    by (rewrite Hc; apply nearest_in).
  apply in_map_iff in Hin. destruct Hin as ([u l] & Hl & Hin). simpl in Hl. subst l.
  eapply in_combine_r; eauto.
Qed.

Lemma n_equal_le (a b : list Z) : (n_equal a b <= length a)%nat.
Proof.
  revert b. induction a as [|x a IH]; intros [|y b]; simpl; try lia.
  specialize (IH b). destruct (Z.eqb x y); lia.
Qed.

Lemma accuracy_score_bounds (yt : option (list Z)) (y : list Z) (a : R) :
  accuracy_score yt y = Ok a -> 0 <= a <= 1.
Proof.
  unfold accuracy_score. destruct yt as [l|]; [|discriminate].
  destruct (Nat.eqb _ _); [|discriminate]. intros [= <-].
  pose proof (n_equal_le l y) as Hle. apply le_INR in Hle.
  pose proof (pos_INR (n_equal l y)) as H0.
  destruct (length l) as [|k] eqn:Hk.
  - simpl in *. assert (INR (n_equal l y) = 0) by lra.
    rewrite H. unfold Rdiv. rewrite Rmult_0_l. lra.
  - assert (Hpos : 0 < INR (S k)) by (apply lt_0_INR; lia).
    split.
    + apply Rmult_le_pos; [assumption|]. left. now apply Rinv_0_lt_compat.
    + apply (Rmult_le_reg_r (INR (S k))); [assumption|].
      unfold Rdiv. rewrite Rmult_assoc, Rinv_l by lra. lra.
Qed.

(** What a pass that returns leaves in the locals. *)
Lemma iteration_outcome (eig : eigensolver) (s : JDA.self) (X H : matrix)
  (m n ns nt C : nat) (Ys : list Z) (Yt : option (list Z)) (st st' : JDA.locals) :
  snd (shape X) = n ->
  JDA.iteration eig s X H m n ns nt C Ys Yt st = Ok st' ->
  exists y a,
    JDA.Y_tar_pseudo st' = Some y
    /\ length y = (n - ns)%nat
    /\ Forall (fun v => In v Ys) y
    /\ JDA.acc st' = Some a
    /\ JDA.list_acc st' = JDA.list_acc st ++ [a]
    /\ 0 <= a <= 1.
Proof.
  intros HX Hit.
  destruct (iteration_labels _ _ _ _ _ _ _ _ _ _ _ _ _ HX Hit) as (y & Hy & Hlen).
  destruct (iteration_acc _ _ _ _ _ _ _ _ _ _ _ _ _ Hit) as (a & Ha & Hl).
  exists y, a. repeat (split; try assumption).
  - unfold JDA.iteration in Hit.
    destruct (JDA.alignment _ _ _ _ _ _ _) as [[e' M]|]; cbn [bind] in Hit; [|discriminate].
    destruct (JDA.kernel _ _ _ _) as [[K|]|]; cbn [bind] in Hit; try discriminate.
    destruct (eig _ _) as [[w V]|]; cbn [bind] in Hit; [|discriminate].
    destruct (knn_predict _ _ _) as [y'|] eqn:Hk; cbn [bind] in Hit; [|discriminate].
    destruct (accuracy_score Yt y') as [a'|]; cbn [bind] in Hit; [|discriminate].
    injection Hit as <-. simpl in Hy. injection Hy as <-.
    eapply knn_predict_labels; eauto.
  - unfold JDA.iteration in Hit.
    destruct (JDA.alignment _ _ _ _ _ _ _) as [[e' M]|]; cbn [bind] in Hit; [|discriminate].
    destruct (JDA.kernel _ _ _ _) as [[K|]|]; cbn [bind] in Hit; try discriminate.
    destruct (eig _ _) as [[w V]|]; cbn [bind] in Hit; [|discriminate].
    destruct (knn_predict _ _ _) as [y'|] eqn:Hk; cbn [bind] in Hit; [|discriminate].
    destruct (accuracy_score Yt y') as [a'|] eqn:Hs; cbn [bind] in Hit; [|discriminate].
    injection Hit as <-. simpl in Ha. injection Ha as <-.
    eapply accuracy_score_bounds; eauto.
  - unfold JDA.iteration in Hit.
    destruct (JDA.alignment _ _ _ _ _ _ _) as [[e' M]|]; cbn [bind] in Hit; [|discriminate].
    destruct (JDA.kernel _ _ _ _) as [[K|]|]; cbn [bind] in Hit; try discriminate.
    destruct (eig _ _) as [[w V]|]; cbn [bind] in Hit; [|discriminate].
    destruct (knn_predict _ _ _) as [y'|] eqn:Hk; cbn [bind] in Hit; [|discriminate].
    destruct (accuracy_score Yt y') as [a'|] eqn:Hs; cbn [bind] in Hit; [|discriminate].
    injection Hit as <-. simpl in Ha. injection Ha as <-.
    eapply accuracy_score_bounds; eauto.
Qed.

(** A property of the locals that every pass keeps holds after the loop. *)
Lemma loop_keeps (body : JDA.locals -> result JDA.locals) (I : JDA.locals -> Prop) (k : nat) :
  (forall st st', I st -> body st = Ok st' -> I st') ->
  forall st st', I st -> JDA.loop k body st = Ok st' -> I st'.
Proof.
  intros Hbody. induction k as [|k IH]; intros st st' HI Hrun; simpl in Hrun.
  - now injection Hrun as <-.
  - destruct (body st) as [st1|] eqn:H1; cbn [bind] in Hrun; [|discriminate].
    eapply IH; [|eassumption]. eapply Hbody; eauto.
Qed.

(** X6. When both sets have a row and a column, the labels that a returning
    call of [JDA.fit_predict] hands back are one per target row, and each
    of them is a source label: the classifier of the last pass was fitted
    on [Ys]. *)
Theorem JDA_predicted_labels (eig : eigensolver) (s : JDA.self)
  (Xs : matrix) (Ys : list Z) (Xt : matrix) (Yt : option (list Z))
  (a : R) (y : option (list Z)) (l : list R) :
  has_entries Xs -> has_entries Xt ->
  JDA.fit_predict eig s Xs Ys Xt Yt = Ok (a, y, l) ->
  exists labels, y = Some labels /\ length labels = length Xt
                 /\ Forall (fun v => In v Ys) labels.
Proof.
  intros Hs Ht. pose proof (pooled_columns Xs Xt Hs Ht) as Hn.
  unfold JDA.fit_predict, JDA.run.
  destruct (shape _) as [m n] eqn:Hshape. simpl in Hn. subst n.
  destruct (marginal _ _) as [e0|]; cbn [bind]; [|discriminate].
  destruct (py_div 1 _) as [h|]; cbn [bind]; [|discriminate].
  destruct (JDA.loop _ _ _) as [st|] eqn:Hloop; cbn [bind]; [|discriminate].
  destruct (JDA.acc st) as [a'|] eqn:Hacc; [|discriminate].
  intros [= <- <- <-].
  assert (HI : JDA.acc st = None
               \/ exists labels, JDA.Y_tar_pseudo st = Some labels
                    /\ length labels = length Xt /\ Forall (fun v => In v Ys) labels).
  { eapply (loop_keeps _ (fun st => JDA.acc st = None
               \/ exists labels, JDA.Y_tar_pseudo st = Some labels
                    /\ length labels = length Xt /\ Forall (fun v => In v Ys) labels));
      [| |exact Hloop].
    - intros st0 st1 _ Hit. right.
      eapply iteration_outcome in Hit; [|now rewrite Hshape].
      destruct Hit as (y & a0 & Hy & Hlen & Hin & _).
      exists y. repeat (split; try assumption). lia.
    - now left. }
  destruct HI as [HI|HI]; [congruence | exact HI].
Qed.

Lemma JDA_predicted_labels_witness :
  exists labels, Some [1%Z; 1%Z] = Some labels /\ length labels = length [[3]; [5]]
                 /\ Forall (fun v => In v [1%Z]) labels.
Proof.
  apply (JDA_predicted_labels eig_diag (JDA.init (Some "primal"%string) 30 1 1 2)
           [[1]] [1%Z] [[3]; [5]] (Some [1%Z; 2%Z])
           (INR 1 / INR 2) (Some [1%Z; 1%Z]) [INR 1 / INR 2; INR 1 / INR 2]).
  - discriminate.
  - discriminate.
  - reflexivity.
Defined.

(** X7. The accuracy that a returning call of [JDA.fit_predict] hands back
    and every entry of its history lie between 0 and 1. *)
Theorem JDA_accuracies_are_fractions (eig : eigensolver) (s : JDA.self)
  (Xs : matrix) (Ys : list Z) (Xt : matrix) (Yt : option (list Z))
  (a : R) (y : option (list Z)) (l : list R) :
  JDA.fit_predict eig s Xs Ys Xt Yt = Ok (a, y, l) ->
  0 <= a <= 1 /\ Forall (fun x => 0 <= x <= 1) l.
Proof.
  unfold JDA.fit_predict, JDA.run.
  destruct (shape _) as [m n] eqn:Hshape.
  destruct (marginal _ _) as [e0|]; cbn [bind]; [|discriminate].
  destruct (py_div 1 _) as [h|]; cbn [bind]; [|discriminate].
  destruct (JDA.loop _ _ _) as [st|] eqn:Hloop; cbn [bind]; [|discriminate].
  destruct (JDA.acc st) as [a0|] eqn:Hacc; [|discriminate].
  intros [= <- <- <-].
  assert (HI : (forall x, JDA.acc st = Some x -> 0 <= x <= 1)
               /\ Forall (fun x => 0 <= x <= 1) (JDA.list_acc st)).
  { eapply (loop_keeps _ (fun st => (forall x, JDA.acc st = Some x -> 0 <= x <= 1)
                                     /\ Forall (fun x => 0 <= x <= 1) (JDA.list_acc st)));
      [| |exact Hloop].
    - intros st0 st1 [_ Hall] Hit.
      eapply iteration_outcome in Hit; [|now rewrite Hshape].
      destruct Hit as (y1 & a1 & _ & _ & _ & Ha1 & Hl1 & Hb).
      split.
      + intros x Hx. rewrite Ha1 in Hx. now injection Hx as <-.
      + rewrite Hl1. apply Forall_app. split; [assumption | now constructor].
    - split; [discriminate | constructor]. }
  destruct HI as [Ha Hl]. split; [now apply Ha | assumption].
Qed.

Lemma JDA_accuracies_are_fractions_witness :
  0 <= INR 1 / INR 2 <= 1 /\ Forall (fun x => 0 <= x <= 1) [INR 1 / INR 2; INR 1 / INR 2].
Proof.
  apply (JDA_accuracies_are_fractions eig_diag (JDA.init (Some "primal"%string) 30 1 1 2)
           [[1]] [1%Z] [[3]; [5]] (Some [1%Z; 2%Z])
           _ (Some [1%Z; 1%Z])).
  reflexivity.
Defined.

(** X8. When both sets have a row and a column, a returning call of
    [TCA.fit_predict] hands back an accuracy between 0 and 1 and one label
    per target row, each of them a source label. *)
Theorem TCA_fit_predict_result (eig : eigensolver) (s : TCA.self)
  (Xs : matrix) (Ys : list Z) (Xt : matrix) (Yt : option (list Z))
  (a : R) (y : list Z) :
  has_entries Xs -> has_entries Xt ->
  TCA.fit_predict eig s Xs Ys Xt Yt = Ok (a, y) ->
  0 <= a <= 1 /\ length y = length Xt /\ Forall (fun v => In v Ys) y.
Proof.
  intros Hs Ht. pose proof (pooled_columns Xs Xt Hs Ht) as Hn.
  unfold TCA.fit_predict, TCA.fit.
  destruct (shape _) as [m n] eqn:Hshape. simpl in Hn. subst n.
  destruct (TCA.alignment _ _) as [M|]; cbn [bind]; [|discriminate].
  destruct (py_div 1 _) as [h|]; cbn [bind]; [|discriminate].
  destruct (TCA.kernel _ _ _ _) as [[K|]|] eqn:HK; cbn [bind]; try discriminate.
  rewrite <- kernel_no_X2 in HK. apply kernel_columns in HK. rewrite Hshape in HK.
  destruct (eig _ _) as [[w V]|]; cbn [bind]; [|discriminate].
  destruct (knn_predict _ _ _) as [y'|] eqn:Hk; cbn [bind]; [|discriminate].
  destruct (accuracy_score Yt y') as [a'|] eqn:Hacc; cbn [bind]; [|discriminate].
  intros [= <- <-].
  split; [eapply accuracy_score_bounds; eauto|].
  split; [|eapply knn_predict_labels; eauto].
  apply knn_predict_length in Hk. destruct Hk as [Hlen Hne].
  rewrite length_Xt_new in Hlen, Hne.
  destruct (transpose (basis (TCA.dim s) w V)); [contradiction|].
  cbn [snd] in HK. rewrite HK in Hlen. lia.
Qed.

Lemma TCA_fit_predict_result_witness :
  0 <= INR 1 / INR 2 <= 1
  /\ length [1%Z; 1%Z] = length [[3]; [5]]
  /\ Forall (fun v => In v [1%Z]) [1%Z; 1%Z].
Proof.
  apply (TCA_fit_predict_result eig_diag TCA.default
           [[1]] [1%Z] [[3]; [5]] (Some [1%Z; 2%Z])).
  - discriminate.
  - discriminate.
  - reflexivity.
Defined.

(** ** [kernel] with a second array *)

(** X9. Called with a second array of two or more elements and the kernel
    type ['linear'] or ['rbf'], JDA's [kernel] raises [ValueError] at
    [if X2:]; TCA's [kernel] ([if X2 is not None:]), given arrays of shapes
    [(m, n1)] and [(m, n2)] with [m], [n1], [n2] positive (operands that
    scikit-learn accepts), returns the [n1] by [n2] Gram matrix between
    the columns of the two arrays. *)
Theorem kernel_second_array (ker : option string) (X1 B : matrix) (g : R) :
  is_str ker "linear" || is_str ker "rbf" = true ->
  (2 <= length (concat B))%nat ->
  JDA.kernel ker X1 (Some B) g = Raise ValueError
  /\ forall m n1 n2,
       (0 < m)%nat -> (0 < n1)%nat -> (0 < n2)%nat ->
       of_shape m n1 X1 -> of_shape m n2 B ->
       let K := if is_str ker "linear"
                then linear_kernel (transpose X1) (transpose B)
                else rbf_kernel (transpose X1) (transpose B) g in
       TCA.kernel ker X1 (Some B) g = Ok (Some K) /\ of_shape n1 n2 K.
Proof.
  intros Hker HB.
  assert (Hp : falsy ker || is_str ker "primal" = false).
  { destruct ker as [k|]; [|discriminate]. unfold falsy, is_str in *.
    apply orb_true_iff in Hker. destruct Hker as [H|H]; apply String.eqb_eq in H; subst k;
      reflexivity. }
  assert (Ht : JDA.truth (Some B) = Raise ValueError).
  { unfold JDA.truth. destruct (concat B) as [|x [|y t]]; simpl in HB; try lia. reflexivity. }
  split.
  { unfold JDA.kernel. rewrite Hp, Ht.
    destruct (is_str ker "linear") eqn:Hl; [reflexivity|].
    simpl in Hker. rewrite Hker. reflexivity. }
  intros m n1 n2 Hm Hn1 Hn2 HX1 HB2 K. split.
  { unfold TCA.kernel, K. rewrite Hp.
    destruct (is_str ker "linear") eqn:Hl; [reflexivity|].
    simpl in Hker. rewrite Hker. reflexivity. }
  pose proof (of_shape_has_entries m n1 X1 HX1 Hm Hn1) as E1.
  pose proof (of_shape_has_entries m n2 B HB2 Hm Hn2) as E2.
  assert (L1 : length (transpose X1) = n1).
  { rewrite length_transpose. destruct HX1 as [Hl Hr].
    destruct X1 as [|r X1]; [simpl in Hl; lia|]. now inversion Hr. }
  assert (L2 : length (transpose B) = n2).
  { rewrite length_transpose. destruct HB2 as [Hl Hr].
    destruct B as [|r B']; [simpl in Hl; lia|]. now inversion Hr. }
  unfold K. destruct (is_str ker "linear").
  - unfold linear_kernel. split; [now rewrite length_map|].
    apply Forall_map. apply Forall_forall. intros a _. now rewrite length_map.
  - unfold rbf_kernel. split; [now rewrite length_map|].
    apply Forall_map. apply Forall_forall. intros a _. now rewrite length_map.
Qed.

Lemma kernel_second_array_witness :
  JDA.kernel (Some "rbf"%string) [[1; 2]] (Some [[3; 4]]) 1 = Raise ValueError
  /\ TCA.kernel (Some "rbf"%string) [[1; 2]] (Some [[3; 4]]) 1
     = Ok (Some (rbf_kernel (transpose [[1; 2]]) (transpose [[3; 4]]) 1))
  /\ of_shape 2 2 (rbf_kernel (transpose [[1; 2]]) (transpose [[3; 4]]) 1).
Proof.
  destruct (kernel_second_array (Some "rbf"%string) [[1; 2]] [[3; 4]] 1) as [H1 H2].
  - reflexivity.
  - simpl. lia.
  - split; [exact H1|].
    apply (H2 1%nat 2%nat 2%nat); try lia.
    + split; [reflexivity | repeat constructor].
    + split; [reflexivity | repeat constructor].
Defined.

(** ** The alignment matrix *)

Lemma nth_map0 (f : R -> R) (v : vec) (j : nat) :
  f 0 = 0 -> nth j (map f v) 0 = f (nth j v 0).
Proof.
  intros H. transitivity (nth j (map f v) (f 0)); [now rewrite H | apply map_nth].
Qed.

Lemma nth_nil_R (j : nat) : nth j (@nil R) 0 = 0.
Proof. now destruct j. Qed.

Lemma entry_outer (u v : vec) (i j : nat) :
  entry (outer u v) i j = nth i u 0 * nth j v 0.
Proof.
  unfold entry, outer.
  destruct (Nat.lt_ge_cases i (length u)) as [Hi|Hi].
  - rewrite (nth_indep _ [] ((fun x => map (fun y => x * y) v) 0))
      by (now rewrite length_map).
    rewrite (map_nth (fun x => map (fun y => x * y) v)).
    apply (nth_map0 (fun y => nth i u 0 * y)). ring.
  - rewrite (nth_overflow (map _ u)) by (now rewrite length_map).
    rewrite (nth_overflow u) by assumption. rewrite nth_nil_R. ring.
Qed.

Lemma entry_map (f : R -> R) (A : matrix) (i j : nat) :
  f 0 = 0 -> entry (map (map f) A) i j = f (entry A i j).
Proof.
  intros H. unfold entry.
  replace (nth i (map (map f) A) []) with (map f (nth i A []))
    by (symmetry; apply (map_nth (map f) A [] i)).
  now apply nth_map0.
Qed.

Lemma nth_zip_with {A B C : Type} (f : A -> B -> C) (l : list A) (l' : list B)
  (da : A) (db : B) (d : C) (i : nat) :
  length l = length l' -> f da db = d ->
  nth i (zip_with f l l') d = f (nth i l da) (nth i l' db).
Proof.
  intros Hl Hd. revert l' i Hl.
  induction l as [|a l IH]; intros [|b l'] i Hl; try discriminate.
  - now destruct i.
  - destruct i; simpl; [reflexivity|]. apply IH. now injection Hl.
Qed.

Lemma Forall_zip_with {A B C : Type} (P : A -> Prop) (Q : B -> Prop) (S : C -> Prop)
  (f : A -> B -> C) (l : list A) (l' : list B) :
  (forall a b, P a -> Q b -> S (f a b)) ->
  Forall P l -> Forall Q l' -> Forall S (zip_with f l l').
Proof.
  intros Hf Hl. revert l'. induction Hl as [|a l Ha Hl IH]; intros l' Hl'; simpl.
  - constructor.
  - destruct Hl' as [|b l' Hb Hl']; constructor; auto.
Qed.

Lemma square_row (n : nat) (A B : matrix) (i : nat) :
  square n A -> square n B -> length (nth i A []) = length (nth i B []).
Proof.
  intros [HA HA'] [HB HB'].
  destruct (Nat.lt_ge_cases i n) as [Hi|Hi].
  - rewrite Forall_forall in HA', HB'.
    rewrite (HA' (nth i A [])) by (apply nth_In; lia).
    rewrite (HB' (nth i B [])) by (apply nth_In; lia). reflexivity.
  - now rewrite !nth_overflow by lia.
Qed.

Lemma entry_madd (n : nat) (A B : matrix) (i j : nat) :
  square n A -> square n B -> entry (madd A B) i j = entry A i j + entry B i j.
Proof.
  intros HA HB. unfold entry, madd.
  rewrite (nth_zip_with (zip_with Rplus) A B [] [] [] i);
    [| destruct HA, HB; congruence | reflexivity].
  apply nth_zip_with; [eapply square_row; eauto | lra].
Qed.

Lemma sum_app (u v : vec) : sum (u ++ v) = sum u + sum v.
Proof. induction u as [|x u IH]; simpl; [lra | rewrite IH; lra]. Qed.

Lemma sum_scale_l (c : R) (v : vec) : sum (map (fun y => c * y) v) = c * sum v.
Proof. induction v as [|x v IH]; simpl; [ring | rewrite IH; ring]. Qed.

Lemma sum_zip_plus (u v : vec) :
  length u = length v -> sum (zip_with Rplus u v) = sum u + sum v.
Proof.
  revert v. induction u as [|x u IH]; intros [|y v] H; try discriminate; simpl; [lra|].
  rewrite IH by (now injection H). lra.
Qed.

Lemma sum_ones (k : nat) : sum (ones k) = INR k.
Proof.
  induction k as [|k IH]; [reflexivity|].
  change (sum (ones (S k))) with (1 + sum (ones k)). rewrite IH, S_INR. lra.
Qed.

Lemma mmd_outer (n : nat) (e : vec) : length e = n -> sum e = 0 -> mmd n (outer e e).
Proof.
  intros Hl Hs. split; [|split].
  - split; [unfold outer; now rewrite length_map|].
    apply Forall_forall. intros r Hr. apply in_map_iff in Hr.
    destruct Hr as (x & <- & _). now rewrite length_map.
  - intros i j. rewrite !entry_outer. ring.
  - apply Forall_forall. intros r Hr. apply in_map_iff in Hr.
    destruct Hr as (x & <- & _). rewrite sum_scale_l, Hs. ring.
Qed.

Lemma mmd_mscale (n : nat) (A : matrix) (c : R) : mmd n A -> mmd n (mscale A c).
Proof.
  intros ([Hl Hr] & Hsym & Hz). unfold mscale. split; [|split].
  - split; [now rewrite length_map|].
    apply Forall_map. eapply Forall_impl; [|exact Hr].
    intros r Hlen. now rewrite length_map.
  - intros i j. rewrite !entry_map by ring. now rewrite Hsym.
  - apply Forall_map. eapply Forall_impl; [|exact Hz].
    intros r Hsum. cbv beta. rewrite sum_scale, Hsum. ring.
Qed.

Lemma mmd_madd (n : nat) (A B : matrix) : mmd n A -> mmd n B -> mmd n (madd A B).
Proof.
  intros (HA & HsA & HzA) (HB & HsB & HzB). split; [|split].
  - destruct HA as [HlA HrA], HB as [HlB HrB]. split.
    + unfold madd. rewrite zip_with_length. lia.
    + unfold madd. eapply Forall_zip_with; [|exact HrA|exact HrB].
      intros a b Ha Hb. cbv beta in *. rewrite zip_with_length. lia.
  - intros i j. rewrite !(entry_madd n) by assumption. now rewrite HsA, HsB.
  - destruct HA as [HlA HrA], HB as [HlB HrB]. unfold madd, rows_sum_to_zero in *.
    eapply (Forall_zip_with (fun r => length r = n /\ sum r = 0)
              (fun r => length r = n /\ sum r = 0)).
    + intros a b [Hla Hsa] [Hlb Hsb]. cbv beta.
      rewrite sum_zip_plus by congruence. lra.
    + apply Forall_forall. intros r Hr. rewrite Forall_forall in HrA, HzA. auto.
    + apply Forall_forall. intros r Hr. rewrite Forall_forall in HrB, HzB. auto.
Qed.

Lemma madd_zero_l (A : matrix) : map (map (fun y => 0 + y)) A = A.
Proof.
  rewrite <- (map_id A) at 2. apply map_ext. intros r.
  rewrite <- (map_id r) at 2. apply map_ext. intros x. ring.
Qed.

Lemma sum_marginal (ns nt : nat) (Q : vec) :
  marginal ns nt = Ok Q -> length Q = (ns + nt)%nat /\ sum Q = 0.
Proof.
  intros H. apply marginal_ok in H. destruct H as (Hs & Ht & ->). split.
  - unfold smul, ones. now rewrite length_app, !length_map, !repeat_length.
  - unfold smul. rewrite sum_app, !sum_scale_l, !sum_ones.
    assert (INR ns <> 0) by (apply not_0_INR; lia).
    assert (INR nt <> 0) by (apply not_0_INR; lia).
    field. split; assumption.
Qed.

(** X10. The matrix [M] that [TCA.fit] builds from the weighting vector [Q]
    is a symmetric [ns + nt] by [ns + nt] array every row of which sums to
    zero: a feature that is constant over all samples contributes nothing
    to the distance that [M] measures. *)
Theorem TCA_alignment_matrix (ns nt : nat) (M : matrix) :
  TCA.alignment ns nt = Ok M ->
  square (ns + nt) M /\ symmetric M /\ rows_sum_to_zero M.
Proof.
  unfold TCA.alignment. destruct (marginal ns nt) as [Q|] eqn:HQ; [|discriminate].
  cbn [bind]. intros [= <-].
  destruct (sum_marginal ns nt Q HQ) as [Hl Hs].
  rewrite mdiv_mscale_inv. apply mmd_mscale. now apply mmd_outer.
Qed.

Lemma TCA_alignment_matrix_witness :
  exists M, TCA.alignment 1 1 = Ok M
            /\ square (1 + 1) M /\ symmetric M /\ rows_sum_to_zero M.
Proof.
  eexists. split; [reflexivity|].
  apply (TCA_alignment_matrix 1 1). reflexivity.
Defined.

(** *** Index assignment *)

Lemma sum_set_nth (i : nat) (x : R) (v : vec) :
  (i < length v)%nat -> sum (set_nth i x v) = sum v - nth i v 0 + x.
Proof.
  revert i. induction v as [|y v IH]; intros [|i] H; simpl in *; try lia.
  - lra.
  - rewrite IH by lia. lra.
Qed.

Lemma nth_set_nth_other (i j : nat) (x : R) (v : vec) :
  i <> j -> nth j (set_nth i x v) 0 = nth j v 0.
Proof.
  revert i j. induction v as [|y v IH]; intros [|i] [|j] H; simpl;
    try reflexivity; try congruence.
  apply IH. congruence.
Qed.

Lemma nth_set_nth_same (i : nat) (x : R) (v : vec) :
  (i < length v)%nat -> nth i (set_nth i x v) 0 = x.
Proof.
  revert i. induction v as [|y v IH]; intros [|i] H; simpl in *; try lia.
  - reflexivity.
  - apply IH. lia.
Qed.

Lemma length_upd (x : R) (idx : list nat) (v : vec) :
  length (fold_left (fun acc i => set_nth i x acc) idx v) = length v.
Proof.
  revert v. induction idx as [|i idx IH]; intros v; simpl; [reflexivity|].
  now rewrite IH, set_nth_length.
Qed.

Lemma nth_upd_other (x : R) (idx : list nat) (v : vec) (j : nat) :
  ~ In j idx -> nth j (fold_left (fun acc i => set_nth i x acc) idx v) 0 = nth j v 0.
Proof.
  revert v. induction idx as [|i idx IH]; intros v Hj; simpl; [reflexivity|].
  rewrite IH by (intros H; apply Hj; now right).
  apply nth_set_nth_other. intros ->. apply Hj. now left.
Qed.

Lemma nth_upd_in (x : R) (idx : list nat) (v : vec) (j : nat) :
  In j idx -> (j < length v)%nat ->
  nth j (fold_left (fun acc i => set_nth i x acc) idx v) 0 = x.
Proof.
  revert v. induction idx as [|i idx IH]; intros v Hj Hlt; [destruct Hj|]. simpl.
  destruct (in_dec Nat.eq_dec j idx) as [Hin|Hout].
  - apply IH; [assumption | now rewrite set_nth_length].
  - destruct Hj as [->|Hj]; [|contradiction].
    rewrite (nth_upd_other x idx _ j Hout). now apply nth_set_nth_same.
Qed.

(** Writing [x] at distinct places that held [0] adds [x] once per place. *)
Lemma sum_upd (x : R) (idx : list nat) (v : vec) :
  NoDup idx ->
  (forall i, In i idx -> (i < length v)%nat /\ nth i v 0 = 0) ->
  sum (fold_left (fun acc i => set_nth i x acc) idx v) = sum v + INR (length idx) * x.
Proof.
  revert v. induction idx as [|i idx IH]; intros v Hnd Hz.
  - simpl. lra.
  - inversion Hnd as [|? ? Hi Hnd']; subst.
    cbn [fold_left]. rewrite IH; [|assumption|].
    + destruct (Hz i (or_introl eq_refl)) as [Hlt H0].
      rewrite sum_set_nth by assumption. rewrite H0.
      change (length (i :: idx)) with (S (length idx)). rewrite S_INR. lra.
    + intros j Hj. destruct (Hz j (or_intror Hj)) as [Hlt H0].
      rewrite set_nth_length. split; [assumption|].
      rewrite nth_set_nth_other; [assumption|]. intros ->. contradiction.
Qed.

Lemma where_from_NoDup (i : nat) (c : Z) (l : list Z) : NoDup (where_from i c l).
Proof.
  revert i. induction l as [|y t IH]; intros i; simpl; [constructor|].
  destruct (Z.eqb y c); [|apply IH].
  constructor; [|apply IH]. intros H. apply where_from_bound in H. lia.
Qed.

Lemma zero_inf_id (v : vec) : zero_inf v = v.
Proof. unfold zero_inf, isinf. apply map_id. Qed.

Lemma sum_zeros (n : nat) : sum (zeros n) = 0.
Proof.
  induction n as [|n IH]; [reflexivity|].
  change (sum (zeros (S n))) with (0 + sum (zeros n)). rewrite IH. lra.
Qed.

Lemma nth_zeros (n j : nat) : nth j (zeros n) 0 = 0.
Proof.
  revert j. induction n as [|n IH]; intros [|j]; simpl; auto.
Qed.

(** The vector of a class: [1 / k] at the [k] source samples of the class,
    [-1 / l] at its [l] pseudo-labelled target samples, [0] elsewhere. *)
Lemma class_vector_weighting (n ns : nat) (Ys ps : list Z) (c : Z) (e' : vec) :
  length Ys = ns ->
  JDA.class_vector n ns Ys ps c = Ok e' -> weighting n e'.
Proof.
  intros HYs. unfold JDA.class_vector.
  destruct (py_div 1 _) as [x|] eqn:Hx; cbn [bind]; [|discriminate].
  unfold assign at 1.
  destruct (forallb _ (where_eq c Ys)) eqn:Hf1; cbn [bind]; [|discriminate].
  destruct (py_div (-1) _) as [y|] eqn:Hy; cbn [bind]; [|discriminate].
  unfold assign.
  destruct (forallb _ (map _ _)) eqn:Hf2; cbn [bind]; [|discriminate].
  intros [= <-]. rewrite zero_inf_id.
  apply py_div_ok in Hx, Hy. destruct Hx as [Hk ->], Hy as [Hl ->].
  set (tt := where_eq c Ys) in *. set (ind := where_eq c ps) in *.
  set (inds := map (fun item => (item + ns)%nat) ind) in *.
  set (e1 := fold_left (fun acc i => set_nth i (1 / INR (length tt)) acc) tt (zeros n)) in *.
  assert (Hl1 : length e1 = n).
  { unfold e1. rewrite length_upd. unfold zeros. apply repeat_length. }
  assert (Htt : forall i, In i tt -> (i < n)%nat /\ (i < ns)%nat).
  { intros i Hi. split.
    - rewrite forallb_forall in Hf1. apply Hf1 in Hi. apply Nat.ltb_lt in Hi.
      unfold zeros in Hi. now rewrite repeat_length in Hi.
    - apply where_from_bound in Hi. lia. }
  assert (Hinds : forall j, In j inds -> (j < n)%nat /\ (ns <= j)%nat).
  { intros j Hj. split.
    - rewrite forallb_forall in Hf2. apply Hf2 in Hj. apply Nat.ltb_lt in Hj. lia.
    - apply in_map_iff in Hj. destruct Hj as (j' & <- & _). lia. }
  assert (Hs1 : sum e1 = 1).
  { unfold e1. rewrite sum_upd.
    - rewrite sum_zeros. field. apply not_0_INR. lia.
    - apply where_from_NoDup.
    - intros i Hi. destruct (Htt i Hi). unfold zeros at 1. rewrite repeat_length.
      split; [assumption | apply nth_zeros]. }
  split; [|split].
  - now rewrite length_upd.
  - rewrite sum_upd.
    + rewrite Hs1. unfold inds. rewrite length_map. field. apply not_0_INR. lia.
    + unfold inds. apply Injective_map_NoDup; [|apply where_from_NoDup].
      intros a b Hab. lia.
    + intros j Hj. destruct (Hinds j Hj) as [Hjn Hjs]. split; [lia|].
      unfold e1. rewrite nth_upd_other; [apply nth_zeros|].
      intros Hin. apply Htt in Hin. lia.
  - destruct tt as [|i tt'] eqn:Ett; [simpl in Hk; lia|].
    exists i. destruct (Htt i (or_introl eq_refl)) as [Hin His].
    rewrite nth_upd_other.
    + unfold e1. rewrite nth_upd_in; [| now left | unfold zeros; now rewrite repeat_length].
      apply Rgt_not_eq, Rlt_gt. apply Rdiv_lt_0_compat; [lra | apply lt_0_INR; assumption].
    + intros Hj. apply Hinds in Hj. lia.
Qed.

Lemma diag_outer (e : vec) : diag_nonneg (outer e e).
Proof. intros i. rewrite entry_outer. nra. Qed.

Lemma class_loop_keeps (n ns : nat) (Ys ps : list Z) (cs : list Z) :
  length Ys = ns ->
  forall e N e' N',
    weighting n e -> accumulated n N ->
    JDA.class_loop n ns Ys ps cs e N = Ok (e', N') ->
    weighting n e' /\ accumulated n N'.
Proof.
  intros HYs. induction cs as [|c cs IH]; intros e N e' N' He HN; simpl.
  - intros [= <- <-]. now split.
  - destruct (JDA.class_vector n ns Ys ps c) as [e1|] eqn:Hc; cbn [bind]; [|discriminate].
    apply class_vector_weighting in Hc; [|assumption].
    apply IH; [assumption|].
    destruct Hc as (Hl & Hs & _).
    destruct N as [x|A]; simpl in *.
    + subst x. rewrite madd_zero_l. split; [now apply mmd_outer | apply diag_outer].
    + destruct HN as [HA HdA]. split; [apply mmd_madd; [assumption | now apply mmd_outer]|].
      intros i. rewrite (entry_madd n); [| apply HA | now apply mmd_outer].
      pose proof (HdA i). pose proof (diag_outer e1 i). lra.
Qed.

Lemma alignment_raw_keeps (n ns nt C : nat) (Ys : list Z) (e : vec) (ps : option (list Z))
  (e' : vec) (M : matrix) :
  weighting n e -> length Ys = ns -> (0 < C)%nat ->
  JDA.alignment_raw n ns nt C Ys e ps = Ok (e', M) ->
  weighting n e' /\ mmd n M /\ exists i, 0 < entry M i i.
Proof.
  intros He HYs HC. unfold JDA.alignment_raw.
  assert (H0 : mmd n (JDA.M0_of e C)).
  { destruct He as (Hl & Hs & _). apply mmd_mscale. now apply mmd_outer. }
  assert (Hpos : exists i, 0 < entry (JDA.M0_of e C) i i).
  { destruct He as (_ & _ & i & Hi). exists i. unfold JDA.M0_of, mscale.
    rewrite entry_map by ring. rewrite entry_outer.
    assert (0 < INR C) by (apply lt_0_INR; assumption).
    assert (0 < nth i e 0 * nth i e 0) by nra. nra. }
  assert (Hloop : forall r, Ok (e, Sc 0) = Ok r -> weighting n (fst r) /\ accumulated n (snd r)).
  { intros r [= <-]. now split. }
  destruct (match ps with Some y => _ | None => _ end) as [[e1 N1]|] eqn:Hm;
    cbn [bind]; [|discriminate].
  intros [= <- <-].
  assert (Hinv : weighting n e1 /\ accumulated n N1).
  { destruct ps as [y|]; [|exact (Hloop _ Hm)].
    destruct (Nat.eqb (length y) nt); [|exact (Hloop _ Hm)].
    exact (class_loop_keeps n ns Ys y (class_range C) HYs e (Sc 0) e1 N1 He (eq_refl 0) Hm). }
  destruct Hinv as [He1 HN1]. split; [assumption|].
  destruct N1 as [x|A]; simpl in *.
  - subst x. rewrite madd_zero_r. now split.
  - destruct HN1 as [HA HdA]. split; [now apply mmd_madd|].
    destruct Hpos as [i Hi]. exists i.
    rewrite (entry_madd n); [| apply H0 | apply HA].
    pose proof (HdA i). lra.
Qed.

Lemma sumsq_ge_entry (v : vec) (j : nat) : nth j v 0 * nth j v 0 <= sumsq v.
Proof.
  revert j. induction v as [|y v IH]; intros [|j]; unfold sumsq; simpl;
    try (pose proof (sumsq_nonneg v) as Hv; unfold sumsq in Hv); try nra.
  specialize (IH j). unfold sumsq in IH. nra.
Qed.

Lemma ssq_ge_row (A : matrix) (i : nat) : sumsq (nth i A []) <= ssq A.
Proof.
  revert i. induction A as [|r A IH]; intros [|i]; unfold ssq; simpl.
  - unfold sumsq. simpl. lra.
  - unfold sumsq. simpl. lra.
  - pose proof (ssq_nonneg A) as HA. unfold ssq in HA. lra.
  - specialize (IH i). unfold ssq in IH. pose proof (sumsq_nonneg r). lra.
Qed.

Lemma fro_entry_pos (A : matrix) (i j : nat) : entry A i j <> 0 -> fro A <> 0.
Proof.
  intros H. unfold fro. fold (ssq A).
  apply Rgt_not_eq, Rlt_gt, sqrt_lt_R0.
  pose proof (ssq_ge_row A i) as Hr. pose proof (sumsq_ge_entry (nth i A []) j) as He.
  unfold entry in H.
  assert (0 < nth j (nth i A []) 0 * nth j (nth i A []) 0) by nra. lra.
Qed.

(** X11. A pass of JDA's loop that starts with a weighting vector [e] of [n]
    entries summing to zero (not all zero), source labels for every source
    sample and [C > 0] leaves such a vector in [e] again, and the matrix [M]
    it builds, with or without the class loop, is a symmetric [n] by [n]
    array whose rows sum to zero; the norm it divides by is not zero, so
    [M] has Frobenius norm 1. *)
Theorem JDA_alignment_matrix (n ns nt C : nat) (Ys : list Z) (e : vec)
  (ps : option (list Z)) (e' : vec) (M : matrix) :
  weighting n e -> length Ys = ns -> (0 < C)%nat ->
  JDA.alignment n ns nt C Ys e ps = Ok (e', M) ->
  weighting n e' /\ square n M /\ symmetric M /\ rows_sum_to_zero M /\ fro M = 1.
Proof.
  intros He HYs HC. unfold JDA.alignment.
  destruct (JDA.alignment_raw n ns nt C Ys e ps) as [[e1 Mraw]|] eqn:Hraw;
    cbn [bind]; [|discriminate].
  intros [= <- <-].
  destruct (alignment_raw_keeps _ _ _ _ _ _ _ _ _ He HYs HC Hraw) as (He1 & Hmmd & i & Hi).
  split; [assumption|].
  assert (Hm : mmd n (mdiv Mraw (fro Mraw))).
  { rewrite mdiv_mscale_inv. now apply mmd_mscale. }
  destruct Hm as (Hsq & Hsym & Hrows). repeat (split; try assumption).
  apply fro_mdiv_self. apply (fro_entry_pos Mraw i i). lra.
Qed.

Lemma JDA_alignment_matrix_witness :
  exists e' M,
    JDA.alignment 2 1 1 1 [1%Z] [1; -1] (Some [1%Z]) = Ok (e', M)
    /\ weighting 2 e' /\ square 2 M /\ symmetric M /\ rows_sum_to_zero M /\ fro M = 1.
Proof.
  eexists. eexists. split; [reflexivity|].
  apply (JDA_alignment_matrix 2 1 1 1 [1%Z] [1; -1] (Some [1%Z])).
  - split; [reflexivity|]. split; [simpl; lra|]. exists O. simpl. lra.
  - reflexivity.
  - lia.
  - reflexivity.
Defined.

Lemma sumsq_pos_entry (v : vec) : 0 < sumsq v -> exists i, nth i v 0 <> 0.
Proof.
  induction v as [|x v IH]; unfold sumsq; simpl; [lra|]. intros H.
  destruct (Req_dec x 0) as [->|Hx]; [|now exists O].
  destruct IH as [i Hi]; [unfold sumsq; lra|]. now exists (S i).
Qed.

Lemma marginal_weighting (ns nt : nat) (Q : vec) :
  marginal ns nt = Ok Q -> weighting (ns + nt) Q.
Proof.
  intros H. destruct (sum_marginal ns nt Q H) as [Hl Hs].
  split; [assumption|]. split; [assumption|].
  apply sumsq_pos_entry. eapply sumsq_marginal_pos; eauto.
Qed.

(** What a pass that returns leaves in [e] and [M]. *)
Lemma iteration_keeps (eig : eigensolver) (s : JDA.self) (X H : matrix)
  (m n ns nt C : nat) (Ys : list Z) (Yt : option (list Z)) (st st' : JDA.locals) :
  weighting n (JDA.e st) -> length Ys = ns -> (0 < C)%nat ->
  JDA.iteration eig s X H m n ns nt C Ys Yt st = Ok st' ->
  weighting n (JDA.e st')
  /\ exists M, JDA.M st' = Mat M /\ mmd n M /\ fro M = 1.
Proof.
  intros He HYs HC. unfold JDA.iteration, JDA.alignment.
  destruct (JDA.alignment_raw _ _ _ _ _ _ _) as [[e1 Mraw]|] eqn:Hraw; cbn [bind]; [|discriminate].
  destruct (alignment_raw_keeps _ _ _ _ _ _ _ _ _ He HYs HC Hraw) as (He1 & Hmmd & i & Hi).
  destruct (JDA.kernel _ _ _ _) as [[K|]|]; cbn [bind]; try discriminate.
  destruct (eig _ _) as [[w V]|]; cbn [bind]; [|discriminate].
  destruct (knn_predict _ _ _) as [y|]; cbn [bind]; [|discriminate].
  destruct (accuracy_score Yt y) as [a|]; cbn [bind]; [|discriminate].
  intros [= <-]. cbn [JDA.e JDA.M]. split; [assumption|].
  eexists. split; [reflexivity|]. split.
  - rewrite mdiv_mscale_inv. now apply mmd_mscale.
  - apply fro_mdiv_self. apply (fro_entry_pos Mraw i i). lra.
Qed.

(** X12. In a call of [JDA.fit_predict] on source and target arrays that
    each have a row and a column, with a label for every source sample and
    [T > 0], every pass hands on an [e] of [ns + nt] entries summing to
    zero, so that after the loop [M] is a symmetric [ns + nt] by [ns + nt]
    array with rows summing to zero and Frobenius norm 1: the norm the
    last pass divided by was not zero. *)
Theorem every_pass_normalises (eig : eigensolver) (s : JDA.self)
  (Xs : matrix) (Ys : list Z) (Xt : matrix) (Yt : option (list Z)) (st : JDA.locals) :
  has_entries Xs -> has_entries Xt -> length Ys = length Xs -> (0 < JDA.T s)%nat ->
  JDA.run eig s Xs Ys Xt Yt = Ok st ->
  weighting (length Xs + length Xt) (JDA.e st)
  /\ exists M, JDA.M st = Mat M
               /\ square (length Xs + length Xt) M /\ symmetric M /\ rows_sum_to_zero M
               /\ fro M = 1.
Proof.
  intros Hs Ht HYs HT. pose proof (pooled_columns Xs Xt Hs Ht) as Hn.
  unfold JDA.run. destruct (shape _) as [m n]. simpl in Hn. subst n.
  destruct (marginal _ _) as [e0|] eqn:He0; cbn [bind]; [|discriminate].
  destruct (py_div 1 _) as [h|]; cbn [bind]; [|discriminate].
  apply marginal_weighting in He0.
  assert (HC : (0 < n_unique Ys)%nat).
  { apply n_unique_pos. apply has_entries_length in Hs.
    destruct Ys; [simpl in HYs; lia | discriminate]. }
  destruct (JDA.T s) as [|k]; [lia|]. simpl.
  destruct (JDA.iteration _ _ _ _ _ _ _ _ _ _ _ _) as [st1|] eqn:H1; cbn [bind]; [|discriminate].
  intros Hloop.
  apply iteration_keeps in H1; [|assumption|assumption|assumption].
  assert (HJ : weighting (length Xs + length Xt) (JDA.e st)
               /\ exists M, JDA.M st = Mat M /\ mmd (length Xs + length Xt) M /\ fro M = 1).
  { eapply (loop_keeps _ (fun st => weighting (length Xs + length Xt) (JDA.e st)
               /\ exists M, JDA.M st = Mat M /\ mmd (length Xs + length Xt) M /\ fro M = 1));
      [| exact H1 | exact Hloop].
    intros sa sb [Ha _] Hit.
    apply iteration_keeps in Hit; assumption. }
  destruct HJ as (He & M & HM & (Hsq & Hsym & Hrows) & Hfro).
  split; [assumption|]. exists M. repeat (split; try assumption).
Qed.

Lemma every_pass_normalises_witness :
  exists st,
    JDA.run eig_diag (JDA.init (Some "primal"%string) 30 1 1 2)
      [[1]] [1%Z] [[3]; [5]] (Some [1%Z; 2%Z]) = Ok st
    /\ weighting (1 + 2) (JDA.e st)
    /\ exists M, JDA.M st = Mat M
                 /\ square (1 + 2) M /\ symmetric M /\ rows_sum_to_zero M /\ fro M = 1.
Proof.
  eexists. split; [reflexivity|].
  apply (every_pass_normalises eig_diag (JDA.init (Some "primal"%string) 30 1 1 2)
           [[1]] [1%Z] [[3]; [5]] (Some [1%Z; 2%Z])).
  - discriminate.
  - discriminate.
  - reflexivity.
  - simpl. lia.
  - reflexivity.
Defined.

(** ** The eigenvectors that are kept *)

Lemma insert_by_perm (w : vec) (i : nat) (l : list nat) :
  Permutation (insert_by w i l) (i :: l).
Proof.
  induction l as [|j l IH]; simpl; [reflexivity|].
  destruct (Rle_dec _ _); [reflexivity|].
  rewrite IH. apply perm_swap.
Qed.

Lemma insert_by_sorted (w : vec) (i : nat) (l : list nat) :
  StronglySorted (by_value w) l -> StronglySorted (by_value w) (insert_by w i l).
Proof.
  induction l as [|j l IH]; intros Hs; simpl.
  - constructor; constructor.
  - inversion Hs as [|? ? Hl Hj]; subst.
    destruct (Rle_dec (nth i w 0) (nth j w 0)) as [Hle|Hgt].
    + constructor; [assumption|]. constructor; [assumption|].
      eapply Forall_impl; [|exact Hj]. intros k Hk. unfold by_value in *. lra.
    + constructor; [now apply IH|].
      eapply Permutation_Forall; [symmetry; apply insert_by_perm|].
      constructor; [unfold by_value; lra | assumption].
Qed.

Lemma argsort_perm (w : vec) : Permutation (argsort w) (seq 0 (length w)).
Proof.
  unfold argsort. induction (seq 0 (length w)) as [|i l IH]; simpl; [reflexivity|].
  rewrite insert_by_perm. now constructor.
Qed.

Lemma argsort_sorted (w : vec) : StronglySorted (by_value w) (argsort w).
Proof.
  unfold argsort. induction (seq 0 (length w)) as [|i l IH]; simpl; [constructor|].
  now apply insert_by_sorted.
Qed.

Lemma sorted_app {A : Type} (R : A -> A -> Prop) (a b : list A) :
  StronglySorted R (a ++ b) -> forall x y, In x a -> In y b -> R x y.
Proof.
  induction a as [|z a IH]; simpl; intros Hs x y Hx Hy; [contradiction|].
  inversion Hs as [|? ? Hs' Hz]; subst.
  destruct Hx as [->|Hx]; [|now apply IH].
  rewrite Forall_forall in Hz. apply Hz. apply in_or_app. now right.
Qed.

(** A prefix of [np.argsort(w)] holds positions of [w], each once, and no
    position outside it has a smaller value. *)
Lemma argsort_prefix (w : vec) (k : nat) :
  NoDup (firstn k (argsort w))
  /\ forall i j, In i (firstn k (argsort w)) -> (j < length w)%nat ->
       ~ In j (firstn k (argsort w)) ->
       (i < length w)%nat /\ nth i w 0 <= nth j w 0.
Proof.
  pose proof (argsort_perm w) as Hp. pose proof (argsort_sorted w) as Hs.
  assert (Hnd : NoDup (argsort w)).
  { eapply Permutation_NoDup; [symmetry; exact Hp | apply seq_NoDup]. }
  rewrite <- (firstn_skipn k (argsort w)) in Hs, Hnd.
  split; [eapply NoDup_app_remove_r; exact Hnd|].
  intros i j Hi Hj Hout. split.
  - assert (Hin : In i (seq 0 (length w))).
    { eapply Permutation_in; [exact Hp|].
      rewrite <- (firstn_skipn k (argsort w)). apply in_or_app. now left. }
    apply in_seq in Hin. lia.
  - assert (Hin : In j (argsort w)).
    { eapply Permutation_in; [symmetry; exact Hp|]. apply in_seq. lia. }
    rewrite <- (firstn_skipn k (argsort w)) in Hin.
    apply in_app_or in Hin. destruct Hin as [Hin|Hin]; [contradiction|].
    exact (sorted_app (by_value w) _ _ Hs i j Hi Hin).
Qed.

(** X13. Whatever [dim] is, the columns [A = V[:, ind[:dim]]] that both
    solvers keep are those of the smallest eigenvalues: the kept positions
    are distinct positions of [w], no position left out has a smaller
    eigenvalue than a kept one, and their number is [min(dim, len(w))] for
    [dim >= 0] and [len(w) - |dim|] (or none) for a negative [dim], which
    drops the [|dim|] largest. *)
Theorem basis_keeps_smallest (d : Z) (w : vec) (V : matrix) :
  let kept := slice_to d (argsort w) in
  basis d w V = take_cols V kept
  /\ NoDup kept
  /\ length kept = (if (0 <=? d)%Z then Nat.min (Z.to_nat d) (length w)
                    else length w - Z.to_nat (- d))%nat
  /\ forall i j, In i kept -> (j < length w)%nat -> ~ In j kept ->
       (i < length w)%nat /\ nth i w 0 <= nth j w 0.
Proof.
  intros kept. split; [reflexivity|]. unfold kept, slice_to.
  destruct (0 <=? d)%Z.
  - destruct (argsort_prefix w (Z.to_nat d)) as [Hnd Hmin].
    split; [assumption|]. split; [|assumption].
    now rewrite length_firstn, argsort_length.
  - destruct (argsort_prefix w (length (argsort w) - Z.to_nat (- d))) as [Hnd Hmin].
    split; [assumption|]. split; [|assumption].
    rewrite length_firstn, argsort_length. lia.
Qed.

(** ** The first versions *)

Section FirstVersions.

Import Heap.
Local Open Scope heap_scope.

Variable eig : eigensolver.

Lemma keeps_Shallow_TCA_fit (b : nat) (s : TCA.self) (Xs Xt : ref) :
  keeps b (fun _ => True) (Shallow.TCA_fit eig s Xs Xt).
Proof.
  unfold Shallow.TCA_fit.
  repeat keeps_step. destruct (shape _) as [m n].
  repeat keeps_step.
  eapply keeps_bind; [apply keeps_TCA_kernel | intros [K|] _]; [|apply keeps_lift].
  repeat keeps_step. match goal with p : (vec * matrix)%type |- _ => destruct p as [w v] end.
  repeat keeps_step. now apply keeps_ret.
Qed.

Lemma keeps_Shallow_TCA_fit_predict (b : nat) (s : TCA.self) (Xs Ys Xt : ref)
  (Yt : option ref) :
  keeps b (fun _ => True) (Shallow.TCA_fit_predict eig s Xs Ys Xt Yt).
Proof.
  unfold Shallow.TCA_fit_predict.
  eapply keeps_bind; [apply keeps_Shallow_TCA_fit | intros [Z ns] _].
  repeat keeps_step.
  eapply keeps_bind; [apply keeps_opt_readl | intros yt _].
  repeat keeps_step. now apply keeps_ret.
Qed.

Lemma keeps_Shallow_JDA_fit_predict (b : nat) (s : JDA.self) (Xs Ys Xt : ref)
  (Yt : option ref) :
  keeps b (fun _ => True) (Shallow.JDA_fit_predict eig s Xs Ys Xt Yt).
Proof.
  unfold Shallow.JDA_fit_predict, Shallow.JDA_run.
  eapply keeps_bind with (Q := local b).
  - repeat keeps_step. destruct (shape _) as [m n].
    repeat keeps_step.
    apply keeps_loop.
    + intros st Hst. now apply keeps_iteration.
    + split; assumption.
  - intros st _. destruct (HeapJDA.acc st); [now apply keeps_ret | apply keeps_lift].
Qed.

Lemma Shallow_TCA_fit_sim s h Xs Xt xs xt :
  pts h Xs (F2 xs) -> pts h Xt (F2 xt) ->
  agree (Shallow.TCA_fit eig s Xs Xt h) (TCA.fit eig s xs xt)
    (fun r P h' => exists z, pts h' (fst r) (F2 z)
       /\ P = (transpose (map (firstn (snd r)) z), transpose (map (skipn (snd r)) z))).
Proof.
  intros HXs HXt.
  unfold Shallow.TCA_fit, TCA.fit, TCA.alignment.
  repeat hstep. destruct (shape _) as [m n].
  hlift. repeat hstep. hlift. repeat hstep.
  lazymatch goal with
  | |- context [Heap.bind (HeapTCA.kernel ?ker ?X None ?g) _ ?h] =>
      lazymatch goal with
      | HX : pts h X (F2 ?xv) |- _ =>
          hcall (TCA_kernel_sim ker h X xv g HX)
                (keeps_mono _ (HeapTCA.kernel ker X None g) h
                   (fun b => keeps_TCA_kernel b ker X None g))
      end
  end.
  match goal with o : option ref |- _ => destruct o as [K|] end;
    match goal with o : option matrix |- _ => destruct o as [kv|] end;
    try contradiction; [|reflexivity].
  repeat hstep. hlift.
  match goal with p : (vec * matrix)%type |- _ => destruct p as [w v] end.
  repeat hstep. cbn. eexists. split; [eassumption | reflexivity].
Qed.

Lemma Shallow_TCA_fit_predict_sim s h Xs Ys Xt Yt xs ys xt yt :
  pts h Xs (F2 xs) -> pts h Ys (L1 ys) -> pts h Xt (F2 xt) -> opt_pts h Yt yt ->
  agree (Shallow.TCA_fit_predict eig s Xs Ys Xt Yt h) (TCA.fit_predict eig s xs ys xt yt)
    (fun r r' h' => fst r = fst r' /\ pts h' (snd r) (L1 (snd r'))).
Proof.
  intros HXs HYs HXt HYt.
  unfold Shallow.TCA_fit_predict, TCA.fit_predict.
  destruct Yt as [yr|], yt as [yl|]; try contradiction; cbn [opt_pts] in HYt.
  - hcall (Shallow_TCA_fit_sim s h Xs Xt xs xt HXs HXt)
          (keeps_mono _ (Shallow.TCA_fit eig s Xs Xt) h
             (fun b => keeps_Shallow_TCA_fit b s Xs Xt)).
    match goal with H : exists z, _ |- _ => destruct H as (z & Hz & ->) end.
    match goal with p : (ref * nat)%type |- _ => destruct p as [Z ns] end.
    cbn [fst snd] in *.
    repeat hstep. hlift. repeat hstep. hlift. repeat hstep. cbn. auto.
  - hcall (Shallow_TCA_fit_sim s h Xs Xt xs xt HXs HXt)
          (keeps_mono _ (Shallow.TCA_fit eig s Xs Xt) h
             (fun b => keeps_Shallow_TCA_fit b s Xs Xt)).
    match goal with H : exists z, _ |- _ => destruct H as (z & Hz & ->) end.
    match goal with p : (ref * nat)%type |- _ => destruct p as [Z ns] end.
    cbn [fst snd] in *.
    repeat hstep. hlift. repeat hstep. hlift. discriminate.
Qed.

Lemma Shallow_JDA_run_sim s h Xs Ys Xt Yt xs ys xt yt :
  pts h Xs (F2 xs) -> pts h Ys (L1 ys) -> pts h Xt (F2 xt) -> opt_pts h Yt yt ->
  agree (Shallow.JDA_run eig s Xs Ys Xt Yt h) (JDA.run eig s xs ys xt yt)
    (fun stH stP h' =>
       HeapJDA.acc stH = JDA.acc stP
       /\ opt_pts h' (HeapJDA.Y_tar_pseudo stH) (JDA.Y_tar_pseudo stP)
       /\ pts h' (HeapJDA.list_acc stH) (F1 (JDA.list_acc stP))).
Proof.
  intros HXs HYs HXt HYt.
  unfold Shallow.JDA_run, JDA.run.
  destruct Yt as [yr|], yt as [yl|]; try contradiction; cbn [opt_pts] in HYt.
  - repeat hstep. destruct (shape _) as [m n].
    hlift. repeat hstep. hlift. repeat hstep.
    eapply agree_weaken.
    + apply loop_sim. unfold inv. cbn.
      repeat (split; try assumption; try lia).
      * intros [= ->]. lia.
      * discriminate.
    + intros stH stP h' Hinv. unfold inv in Hinv. tauto.
  - repeat hstep. destruct (shape _) as [m n].
    hlift. repeat hstep. hlift. repeat hstep.
    eapply agree_weaken.
    + apply loop_sim. unfold inv. cbn.
      repeat (split; try assumption; try lia); discriminate.
    + intros stH stP h' Hinv. unfold inv in Hinv. tauto.
Qed.

(** X14. The first versions, which divide the pooled array in place, leave
    every array of the caller as it was, whether the call returns or
    raises: the array that [X /= ...] writes to is the one [np.hstack]
    created. *)
Theorem first_versions_keep_caller_arrays (s : JDA.self) (s' : TCA.self)
  (h : heap) (Xs Ys Xt : ref) (Yt : option ref) :
  (exists fresh, snd (Shallow.JDA_fit_predict eig s Xs Ys Xt Yt h) = h ++ fresh)
  /\ (exists fresh, snd (Shallow.TCA_fit_predict eig s' Xs Ys Xt Yt h) = h ++ fresh)
  /\ (exists fresh, snd (Shallow.TCA_fit eig s' Xs Xt h) = h ++ fresh).
Proof.
  split; [|split]; apply same_below_app.
  - apply (keeps_Shallow_JDA_fit_predict (length h) s Xs Ys Xt Yt h). lia.
  - apply (keeps_Shallow_TCA_fit_predict (length h) s' Xs Ys Xt Yt h). lia.
  - apply (keeps_Shallow_TCA_fit (length h) s' Xs Xt h). lia.
Qed.

(** X15. The first versions compute what the later versions compute: run on
    a heap in which [Xs], [Ys], [Xt] (and [Yt], when given) refer to
    arrays, they raise what the functions over the values of these arrays
    raise, or return the same accuracy and references to the same predicted
    labels and history. *)
Theorem first_versions_agree (s : JDA.self) (s' : TCA.self) (h : heap)
  (Xs Ys Xt : ref) (Yt : option ref)
  (xs : matrix) (ys : list Z) (xt : matrix) (yt : option (list Z)) :
  pts h Xs (F2 xs) -> pts h Ys (L1 ys) -> pts h Xt (F2 xt) -> opt_pts h Yt yt ->
  agree (Shallow.JDA_fit_predict eig s Xs Ys Xt Yt h) (JDA.fit_predict eig s xs ys xt yt)
    (fun r r' h' =>
       fst (fst r) = fst (fst r')
       /\ opt_pts h' (snd (fst r)) (snd (fst r'))
       /\ pts h' (snd r) (F1 (snd r')))
  /\ agree (Shallow.TCA_fit_predict eig s' Xs Ys Xt Yt h) (TCA.fit_predict eig s' xs ys xt yt)
       (fun r r' h' => fst r = fst r' /\ pts h' (snd r) (L1 (snd r'))).
Proof.
  intros HXs HYs HXt HYt. split; [|now apply Shallow_TCA_fit_predict_sim].
  unfold Shallow.JDA_fit_predict, JDA.fit_predict.
  pose proof (Shallow_JDA_run_sim s h Xs Ys Xt Yt xs ys xt yt HXs HYs HXt HYt) as Hs.
  revert Hs.
  destruct (Shallow.JDA_run eig s Xs Ys Xt Yt h) as [[stH|ex] h'] eqn:E;
    destruct (JDA.run eig s xs ys xt yt) as [stP|ex'];
    cbn [agree fst snd]; intros Hs; try contradiction.
  - rewrite (run_ok _ _ _ _ _ E). pbind.
    destruct Hs as (Hacc & Hps & Hla). rewrite <- Hacc.
    destruct (HeapJDA.acc stH) as [a|]; cbn; auto.
  - rewrite (run_raise _ _ _ _ _ E). exact Hs.
Qed.

End FirstVersions.

Lemma first_versions_agree_witness :
  agree (Shallow.JDA_fit_predict eig_diag JDA.default 0%nat 1%nat 2%nat (Some 3%nat)
           [Heap.F2 [[1]]; Heap.L1 [1%Z]; Heap.F2 [[1]]; Heap.L1 [1%Z]])
        (JDA.fit_predict eig_diag JDA.default [[1]] [1%Z] [[1]] (Some [1%Z]))
        (fun r r' h' =>
           fst (fst r) = fst (fst r')
           /\ opt_pts h' (snd (fst r)) (snd (fst r'))
           /\ pts h' (snd r) (Heap.F1 (snd r')))
  /\ agree (Shallow.TCA_fit_predict eig_diag TCA.default 0%nat 1%nat 2%nat (Some 3%nat)
              [Heap.F2 [[1]]; Heap.L1 [1%Z]; Heap.F2 [[1]]; Heap.L1 [1%Z]])
           (TCA.fit_predict eig_diag TCA.default [[1]] [1%Z] [[1]] (Some [1%Z]))
           (fun r r' h' => fst r = fst r' /\ pts h' (snd r) (Heap.L1 (snd r'))).
Proof.
  apply (first_versions_agree eig_diag JDA.default TCA.default
           [Heap.F2 [[1]]; Heap.L1 [1%Z]; Heap.F2 [[1]]; Heap.L1 [1%Z]]
           0%nat 1%nat 2%nat (Some 3%nat) [[1]] [1%Z] [[1]] (Some [1%Z])); reflexivity.
Defined.

(** ** Rounds *)

Lemma loop_snoc (body : JDA.locals -> result JDA.locals) (k : nat) :
  forall st, JDA.loop (S k) body st = bind (JDA.loop k body st) body.
Proof.
  induction k as [|k IH]; intros st.
  - simpl. destruct (body st); reflexivity.
  - change (JDA.loop (S (S k)) body st)
      with (bind (body st) (fun st' => JDA.loop (S k) body st')).
    change (JDA.loop (S k) body st)
      with (bind (body st) (fun st' => JDA.loop k body st')).
    destruct (body st) as [st1|]; cbn [bind]; [apply IH | reflexivity].
Qed.

(** X16. One more round leaves the earlier rounds as they were: when
    [JDA.fit_predict] returns with [T = k + 1 >= 2], it returns with
    [T = k] as well, and the history of the longer call is that of the
    shorter one followed by the accuracy the longer call returns. *)
Theorem more_rounds_extend_history (eig : eigensolver) (s : JDA.self)
  (Xs : matrix) (Ys : list Z) (Xt : matrix) (Yt : option (list Z)) (k : nat)
  (a : R) (y : option (list Z)) (l : list R) :
  (0 < k)%nat ->
  JDA.fit_predict eig (JDA_with_T s (S k)) Xs Ys Xt Yt = Ok (a, y, l) ->
  exists a' y' l',
    JDA.fit_predict eig (JDA_with_T s k) Xs Ys Xt Yt = Ok (a', y', l')
    /\ l = l' ++ [a].
Proof.
  intros Hk. unfold JDA.fit_predict, JDA.run.
  destruct (shape _) as [m n].
  destruct (marginal _ _) as [e0|]; cbn [bind]; [|discriminate].
  destruct (py_div 1 n) as [h|]; cbn [bind]; [|discriminate].
  cbn [JDA.T JDA_with_T].
  change (JDA.iteration eig (JDA.init (JDA.kernel_type s) (JDA.dim s) (JDA.lamb s)
                               (JDA.gamma s) (S k)))
    with (JDA.iteration eig s).
  change (JDA.iteration eig (JDA.init (JDA.kernel_type s) (JDA.dim s) (JDA.lamb s)
                               (JDA.gamma s) k))
    with (JDA.iteration eig s).
  rewrite loop_snoc.
  destruct (JDA.loop k _ _) as [st|] eqn:Hloop; cbn [bind]; [|discriminate].
  destruct (JDA.iteration _ _ _ _ _ _ _ _ _ _ _ st) as [st'|] eqn:Hit; cbn [bind];
    [|discriminate].
  destruct (iteration_acc _ _ _ _ _ _ _ _ _ _ _ _ _ Hit) as (a1 & Ha1 & Hl1).
  rewrite Ha1. intros [= <- <- <-].
  apply loop_history in Hloop. destruct Hloop as [_ Hlast].
  destruct (Hlast Hk) as (a0 & y0 & Ha0 & _ & Hy0).
  rewrite Ha0. exists a0, (JDA.Y_tar_pseudo st), (JDA.list_acc st).
  split; [reflexivity | assumption].
Qed.

Lemma more_rounds_extend_history_witness :
  exists a' y' l',
    JDA.fit_predict eig_diag (JDA_with_T JDA.default 1) [[1]] [1%Z] [[3]; [5]]
      (Some [1%Z; 2%Z]) = Ok (a', y', l')
    /\ [INR 1 / INR 2; INR 1 / INR 2] = l' ++ [INR 1 / INR 2].
Proof.
  apply (more_rounds_extend_history eig_diag JDA.default [[1]] [1%Z] [[3]; [5]]
           (Some [1%Z; 2%Z]) 1 (INR 1 / INR 2) (Some [1%Z; 1%Z])).
  - lia.
  - reflexivity.
Defined.

(** ** The target labels *)

Lemma accuracy_score_any (yt1 yt2 y : list Z) (a : R) :
  length yt1 = length yt2 ->
  accuracy_score (Some yt1) y = Ok a -> exists a', accuracy_score (Some yt2) y = Ok a'.
Proof.
  unfold accuracy_score. intros <-.
  destruct (Nat.eqb (length yt1) (length y)); [eauto | discriminate].
Qed.

Lemma iteration_ignores_Yt (eig : eigensolver) (s : JDA.self) (X H : matrix)
  (m n ns nt C : nat) (Ys yt1 yt2 : list Z) (st1 st2 st1' : JDA.locals) :
  length yt1 = length yt2 ->
  JDA.e st1 = JDA.e st2 -> JDA.Y_tar_pseudo st1 = JDA.Y_tar_pseudo st2 ->
  JDA.iteration eig s X H m n ns nt C Ys (Some yt1) st1 = Ok st1' ->
  exists st2',
    JDA.iteration eig s X H m n ns nt C Ys (Some yt2) st2 = Ok st2'
    /\ JDA.e st1' = JDA.e st2'
    /\ JDA.Y_tar_pseudo st1' = JDA.Y_tar_pseudo st2'
    /\ JDA.acc st1' <> None /\ JDA.acc st2' <> None.
Proof.
  intros Hlen He Hp. unfold JDA.iteration. rewrite He, Hp.
  destruct (JDA.alignment _ _ _ _ _ _ _) as [[e' M]|]; cbn [bind]; [|discriminate].
  destruct (JDA.kernel _ _ _ _) as [[K|]|]; cbn [bind]; try discriminate.
  destruct (eig _ _) as [[w V]|]; cbn [bind]; [|discriminate].
  destruct (knn_predict _ _ _) as [y|]; cbn [bind]; [|discriminate].
  destruct (accuracy_score (Some yt1) y) as [a|] eqn:Ha; cbn [bind]; [|discriminate].
  destruct (accuracy_score_any yt1 yt2 y a Hlen Ha) as [a' ->]. cbn [bind].
  intros [= <-]. eexists. split; [reflexivity|]. cbn. repeat split; discriminate.
Qed.

Lemma loop_ignores_Yt (eig : eigensolver) (s : JDA.self) (X H : matrix)
  (m n ns nt C : nat) (Ys yt1 yt2 : list Z) (k : nat) :
  length yt1 = length yt2 ->
  forall st1 st2 st1',
    JDA.e st1 = JDA.e st2 -> JDA.Y_tar_pseudo st1 = JDA.Y_tar_pseudo st2 ->
    (JDA.acc st1 <> None -> JDA.acc st2 <> None) ->
    JDA.loop k (JDA.iteration eig s X H m n ns nt C Ys (Some yt1)) st1 = Ok st1' ->
    exists st2',
      JDA.loop k (JDA.iteration eig s X H m n ns nt C Ys (Some yt2)) st2 = Ok st2'
      /\ JDA.Y_tar_pseudo st1' = JDA.Y_tar_pseudo st2'
      /\ (JDA.acc st1' <> None -> JDA.acc st2' <> None).
Proof.
  intros Hlen. induction k as [|k IH]; intros st1 st2 st1' He Hp Hacc; simpl.
  - intros [= <-]. exists st2. auto.
  - destruct (JDA.iteration _ _ _ _ _ _ _ _ _ _ _ st1) as [sa|] eqn:Hit; cbn [bind];
      [|discriminate].
    destruct (iteration_ignores_Yt _ _ _ _ _ _ _ _ _ _ _ _ _ st2 _ Hlen He Hp Hit)
      as (sb & -> & He' & Hp' & _ & Hb).
    cbn [bind]. apply IH; auto.
Qed.

(** X17. The target labels [Yt] are read by the accuracy score only: with
    other target labels of the same number, a returning call of
    [JDA.fit_predict] returns again, and it returns the same predicted
    labels. *)
Theorem predictions_ignore_Yt (eig : eigensolver) (s : JDA.self)
  (Xs : matrix) (Ys : list Z) (Xt : matrix) (yt1 yt2 : list Z)
  (a : R) (y : option (list Z)) (l : list R) :
  length yt1 = length yt2 ->
  JDA.fit_predict eig s Xs Ys Xt (Some yt1) = Ok (a, y, l) ->
  exists a' l', JDA.fit_predict eig s Xs Ys Xt (Some yt2) = Ok (a', y, l').
Proof.
  intros Hlen. unfold JDA.fit_predict, JDA.run.
  destruct (shape _) as [m n].
  destruct (marginal _ _) as [e0|]; cbn [bind]; [|discriminate].
  destruct (py_div 1 n) as [h|]; cbn [bind]; [|discriminate].
  destruct (JDA.loop _ _ _) as [st1|] eqn:Hloop; cbn [bind]; [|discriminate].
  eapply (loop_ignores_Yt _ _ _ _ _ _ _ _ _ _ yt1 yt2) in Hloop;
    [| exact Hlen | reflexivity | reflexivity | intros Hne; exact Hne].
  destruct Hloop as (st2 & -> & Hp & Hacc). cbn [bind].
  destruct (JDA.acc st1) as [a1|]; [|discriminate]. intros [= <- <- <-].
  destruct (JDA.acc st2) as [a2|]; [|exfalso; apply Hacc; [discriminate | reflexivity]].
  rewrite Hp. eauto.
Qed.

Lemma predictions_ignore_Yt_witness :
  exists a' l',
    JDA.fit_predict eig_diag (JDA.init (Some "primal"%string) 30 1 1 2)
      [[1]] [1%Z] [[3]; [5]] (Some [2%Z; 2%Z]) = Ok (a', Some [1%Z; 1%Z], l').
Proof.
  apply (predictions_ignore_Yt eig_diag (JDA.init (Some "primal"%string) 30 1 1 2)
           [[1]] [1%Z] [[3]; [5]] [1%Z; 2%Z] [2%Z; 2%Z]
           (INR 1 / INR 2) (Some [1%Z; 1%Z]) [INR 1 / INR 2; INR 1 / INR 2]).
  - reflexivity.
  - reflexivity.
Defined.

(** ** Normalised columns *)








(** ** The shapes of the eigenproblem *)

Lemma shape_eye (k : nat) : shape (eye k) = (k, k).
Proof.
  unfold shape, eye. rewrite length_map, length_seq. f_equal.
  destruct k as [|k]; [reflexivity|]. simpl.
  now rewrite length_map, length_seq.
Qed.

Lemma shape_multi_dot (K M : matrix) :
  has_entries K -> shape (multi_dot K M (transpose K)) = (length K, length K).
Proof.
  intros HK. destruct (transpose_first_row K HK) as [Hne Hlen].
  unfold multi_dot.
  rewrite (surjective_pairing (shape _)). rewrite shape_dot.
  f_equal.
  - unfold shape, dot. cbn [fst]. now rewrite !length_map.
  - destruct K as [|r K]; [unfold has_entries in HK; simpl in HK; congruence|].
    cbn [dot map]. exact Hlen.
Qed.

Lemma has_entries_gram (f : vec -> vec -> R) (A : matrix) :
  A <> [] -> has_entries (map (fun a => map (fun b => f a b) A) A).
Proof.
  destruct A as [|r A]; [congruence|]. intros _. unfold has_entries. simpl. discriminate.
Qed.

(** X19. For an array [X] of shape [(m, n)] and an [n] by [n] array [M]
    (the operands conform), the product [K M K.T] has
    shape [(m, m)] when the kernel type is ['primal'], [None] or the empty
    string and [(n, n)] when it is ['linear'] or ['rbf'], while the
    identity added to it has [n_eye = m] rows for ['primal'] only: the two
    summands of [a] have the same shape exactly when the kernel type is
    not [None] or empty, or [m = n]. *)
Theorem regulariser_shape (ker : option string) (X M K : matrix) (g : R) :
  has_entries X -> square (snd (shape X)) M ->
  JDA.kernel ker X None g = Ok (Some K) ->
  TCA.kernel ker X None g = Ok (Some K)
  /\ let m := fst (shape X) in
     let n := snd (shape X) in
     let n_eye := if is_str ker "primal" then m else n in
     shape (multi_dot K M (transpose K))
     = (if falsy ker || is_str ker "primal" then (m, m) else (n, n))
     /\ shape (eye n_eye) = (n_eye, n_eye)
     /\ (shape (multi_dot K M (transpose K)) = shape (eye n_eye)
         <-> falsy ker = false \/ m = n).
Proof.
  intros HX _ HK. split; [now rewrite <- kernel_no_X2|].
  intros m n n_eye.
  destruct (transpose_first_row X HX) as [HT _].
  assert (Hshape : shape (multi_dot K M (transpose K))
                   = (if falsy ker || is_str ker "primal" then (m, m) else (n, n))).
  { revert HK. unfold JDA.kernel.
    destruct (falsy ker || is_str ker "primal").
    - intros [= <-]. now apply shape_multi_dot.
    - destruct (is_str ker "linear").
      + cbn [JDA.truth bind]. intros [= <-]. unfold linear_kernel.
        rewrite shape_multi_dot by (now apply (has_entries_gram dotp)).
        now rewrite length_map, length_transpose.
      + destruct (is_str ker "rbf"); [|discriminate].
        cbn [JDA.truth bind]. intros [= <-]. unfold rbf_kernel.
        rewrite shape_multi_dot
          by (now apply (has_entries_gram (fun a b => exp (- g * sqdist a b)))).
        now rewrite length_map, length_transpose. }
  split; [exact Hshape|]. split; [apply shape_eye|].
  rewrite Hshape, shape_eye. unfold n_eye.
  destruct ker as [k|]; cbn [falsy is_str].
  - destruct (String.eqb_spec k ""%string) as [->|Hne]; cbn [orb].
    + cbn [String.eqb]. split; [intros [= ->]; now right | intros [H|H]; [discriminate | now rewrite H]].
    + destruct (String.eqb k "primal"); split; auto.
  - cbn [orb]. split; [intros [= ->]; now right | intros [H|H]; [discriminate | now rewrite H]].
Qed.

Lemma regulariser_shape_witness :
  TCA.kernel None [[1; 2; 3]] None 1 = Ok (Some [[1; 2; 3]])
  /\ let m := fst (shape [[1; 2; 3]]) in
     let n := snd (shape [[1; 2; 3]]) in
     let n_eye := if is_str None "primal" then m else n in
     shape (multi_dot [[1; 2; 3]] (eye 3) (transpose [[1; 2; 3]]))
     = (if falsy None || is_str None "primal" then (m, m) else (n, n))
     /\ shape (eye n_eye) = (n_eye, n_eye)
     /\ (shape (multi_dot [[1; 2; 3]] (eye 3) (transpose [[1; 2; 3]])) = shape (eye n_eye)
         <-> falsy None = false \/ m = n).
Proof.
  apply (regulariser_shape None [[1; 2; 3]] (eye 3) [[1; 2; 3]] 1).
  - discriminate.
  - split; [reflexivity|]. repeat constructor.
  - reflexivity.
Defined.

(** ** What a second round needs *)

Lemma labels_are_range (Ys : list Z) :
  (forall c, In c (class_range (n_unique Ys)) -> In c Ys) ->
  forall y, In y Ys <-> (1 <= y <= Z.of_nat (n_unique Ys))%Z.
Proof.
  intros Hall.
  assert (Hincl : incl (class_range (n_unique Ys)) (nodup Z.eq_dec Ys)).
  { intros c Hc. apply nodup_In. now apply Hall. }
  assert (Hback : incl (nodup Z.eq_dec Ys) (class_range (n_unique Ys))).
  { apply NoDup_length_incl; [apply class_range_NoDup| |assumption].
    rewrite class_range_length. unfold n_unique. lia. }
  intros y. rewrite <- class_range_spec. split.
  - intros Hy. apply Hback, nodup_In, Hy.
  - intros Hy. apply Hincl in Hy. now apply nodup_In in Hy.
Qed.

Lemma iteration_alignment (eig : eigensolver) (s : JDA.self) (X H : matrix)
  (m n ns nt C : nat) (Ys : list Z) (Yt : option (list Z)) (st st' : JDA.locals) :
  JDA.iteration eig s X H m n ns nt C Ys Yt st = Ok st' ->
  exists r, JDA.alignment n ns nt C Ys (JDA.e st) (JDA.Y_tar_pseudo st) = Ok r.
Proof.
  unfold JDA.iteration.
  destruct (JDA.alignment _ _ _ _ _ _ _) as [r|]; cbn [bind]; [eauto | discriminate].
Qed.

(** X20. A call of [JDA.fit_predict] with [T = k + 1 >= 2] on arrays that
    each have a row and a column, with a label for every source sample,
    returns only if the source labels are exactly [1..C] and the labels
    predicted by round [k] (those the call with [T = k] returns) contain
    every source class; otherwise round [k + 1] divides by a zero count. *)
Theorem later_rounds_need_every_class (eig : eigensolver) (s : JDA.self)
  (Xs : matrix) (Ys : list Z) (Xt : matrix) (Yt : option (list Z)) (k : nat)
  (a : R) (y : option (list Z)) (l : list R) :
  has_entries Xs -> has_entries Xt -> length Ys = length Xs -> (0 < k)%nat ->
  JDA.fit_predict eig (JDA_with_T s (S k)) Xs Ys Xt Yt = Ok (a, y, l) ->
  (forall c, In c Ys <-> (1 <= c <= Z.of_nat (n_unique Ys))%Z)
  /\ exists a' labels l',
       JDA.fit_predict eig (JDA_with_T s k) Xs Ys Xt Yt = Ok (a', Some labels, l')
       /\ forall c, In c Ys -> In c labels.
Proof.
  intros Hs Ht HYs Hk. pose proof (pooled_columns Xs Xt Hs Ht) as Hn.
  unfold JDA.fit_predict, JDA.run.
  destruct (shape _) as [m n] eqn:Hshape. simpl in Hn. subst n.
  destruct (marginal _ _) as [e0|]; cbn [bind]; [|discriminate].
  destruct (py_div 1 _) as [h|]; cbn [bind]; [|discriminate].
  cbn [JDA.T JDA_with_T].
  change (JDA.iteration eig (JDA.init (JDA.kernel_type s) (JDA.dim s) (JDA.lamb s)
                               (JDA.gamma s) (S k)))
    with (JDA.iteration eig s).
  change (JDA.iteration eig (JDA.init (JDA.kernel_type s) (JDA.dim s) (JDA.lamb s)
                               (JDA.gamma s) k))
    with (JDA.iteration eig s).
  rewrite loop_snoc.
  destruct (JDA.loop k _ _) as [st|] eqn:Hloop; cbn [bind]; [|discriminate].
  destruct (JDA.iteration _ _ _ _ _ _ _ _ _ _ _ st) as [st'|] eqn:Hit; cbn [bind];
    [|discriminate].
  intros _.
  (* the locals after round [k] *)
  assert (Hst : exists a0 labels, JDA.acc st = Some a0
                  /\ JDA.Y_tar_pseudo st = Some labels /\ length labels = length Xt).
  { destruct k as [|k']; [lia|]. rewrite loop_snoc in Hloop.
    destruct (JDA.loop k' _ _) as [st0|]; cbn [bind] in Hloop; [|discriminate].
    eapply iteration_outcome in Hloop; [|now rewrite Hshape].
    destruct Hloop as (y0 & a0 & Hy0 & Hlen & _ & Ha0 & _).
    exists a0, y0. repeat split; try assumption. lia. }
  destruct Hst as (a0 & labels & Ha0 & Hlab & Hlen).
  (* round [k + 1] ran the class loop *)
  apply iteration_alignment in Hit. destruct Hit as [r Hr]. rewrite Hlab in Hr.
  assert (Hall : forall c, In c (class_range (n_unique Ys)) -> In c Ys /\ In c labels).
  { intros c Hc.
    destruct (in_dec Z.eq_dec c Ys) as [HinY|HoutY];
      [destruct (in_dec Z.eq_dec c labels) as [HinL|HoutL]; [now split|]|].
    - rewrite (alignment_raises _ (length Xs) (length Xt) _ Ys labels (JDA.e st))
        in Hr; [discriminate | assumption | assumption | reflexivity | eauto].
    - rewrite (alignment_raises _ (length Xs) (length Xt) _ Ys labels (JDA.e st))
        in Hr; [discriminate | assumption | assumption | reflexivity | eauto]. }
  assert (Hrange : forall c, In c Ys <-> (1 <= c <= Z.of_nat (n_unique Ys))%Z).
  { apply labels_are_range. intros c Hc. now apply Hall. }
  split; [exact Hrange|].
  rewrite Ha0, Hlab. exists a0, labels, (JDA.list_acc st). split; [reflexivity|].
  intros c Hc. apply Hall. apply class_range_spec. now apply Hrange.
Qed.

Lemma later_rounds_need_every_class_witness :
  (forall c, In c [1%Z] <-> (1 <= c <= Z.of_nat (n_unique [1%Z]))%Z)
  /\ exists a' labels l',
       JDA.fit_predict eig_diag (JDA_with_T JDA.default 1) [[1]] [1%Z] [[3]; [5]]
         (Some [1%Z; 2%Z]) = Ok (a', Some labels, l')
       /\ forall c, In c [1%Z] -> In c labels.
Proof.
  apply (later_rounds_need_every_class eig_diag JDA.default [[1]] [1%Z] [[3]; [5]]
           (Some [1%Z; 2%Z]) 1 (INR 1 / INR 2) (Some [1%Z; 1%Z])
           [INR 1 / INR 2; INR 1 / INR 2]).
  - discriminate.
  - discriminate.
  - reflexivity.
  - lia.
  - reflexivity.
Defined.

(** ** The arrays a call returns *)

Section Returned.

Import Heap.
Local Open Scope heap_scope.

Variable eig : eigensolver.
Variable b : nat.

Lemma keeps_iteration_fresh (s : JDA.self) (X H : ref) (m n ns nt C : nat) (Ys : ref)
  (Yt : option ref) (st : HeapJDA.locals) :
  fresh_locals b st ->
  keeps b (fresh_locals b) (HeapJDA.iteration eig s X H m n ns nt C Ys Yt st).
Proof.
  intros [[He Hl] _]. unfold HeapJDA.iteration.
  eapply keeps_bind; [now apply keeps_alignment | intros [e' M] He'].
  eapply keeps_bind; [apply keeps_JDA_kernel | intros [K|] _]; [|apply keeps_lift].
  repeat keeps_step. match goal with p : (vec * matrix)%type |- _ => destruct p as [w v] end.
  repeat keeps_step.
  eapply keeps_bind; [apply keeps_opt_readl | intros yt _].
  repeat keeps_step. apply keeps_ret. split; [split; assumption|].
  cbn [HeapJDA.Y_tar_pseudo]. intros p [= <-]. assumption.
Qed.

Lemma keeps_loop_inv (I : HeapJDA.locals -> Prop) (k : nat)
  (body : HeapJDA.locals -> ST HeapJDA.locals) (st : HeapJDA.locals) :
  (forall st, I st -> keeps b I (body st)) ->
  I st -> keeps b I (HeapJDA.loop k body st).
Proof.
  intros Hbody. revert st. induction k as [|k IH]; intros st Hst; simpl.
  - now apply keeps_ret.
  - eapply keeps_bind; [now apply Hbody | intros st' Hst']. now apply IH.
Qed.

Lemma keeps_JDA_fit_predict_fresh (s : JDA.self) (Xs Ys Xt : ref) (Yt : option ref) :
  keeps b (fun r => (b <= snd r)%nat /\ forall p, snd (fst r) = Some p -> (b <= p)%nat)
    (HeapJDA.fit_predict eig s Xs Ys Xt Yt).
Proof.
  unfold HeapJDA.fit_predict, HeapJDA.run.
  eapply keeps_bind with (Q := fresh_locals b).
  - repeat keeps_step. destruct (shape _) as [m n].
    repeat keeps_step.
    apply keeps_loop_inv.
    + intros st Hst. now apply keeps_iteration_fresh.
    + split; [split; assumption | discriminate].
  - intros st [[_ Hl] Hy]. destruct (HeapJDA.acc st); [|apply keeps_lift].
    apply keeps_ret. split; assumption.
Qed.

Lemma keeps_TCA_fit_fresh (s : TCA.self) (Xs Xt : ref) :
  keeps b (fun r => (b <= fst r)%nat) (HeapTCA.fit eig s Xs Xt).
Proof.
  unfold HeapTCA.fit.
  repeat keeps_step. destruct (shape _) as [m n].
  repeat keeps_step.
  eapply keeps_bind; [apply keeps_TCA_kernel | intros [K|] _]; [|apply keeps_lift].
  repeat keeps_step. match goal with p : (vec * matrix)%type |- _ => destruct p as [w v] end.
  repeat keeps_step. now apply keeps_ret.
Qed.

Lemma keeps_TCA_fit_predict_fresh (s : TCA.self) (Xs Ys Xt : ref) (Yt : option ref) :
  keeps b (fun r => (b <= snd r)%nat) (HeapTCA.fit_predict eig s Xs Ys Xt Yt).
Proof.
  unfold HeapTCA.fit_predict.
  eapply keeps_bind; [apply keeps_TCA_fit | intros [Z ns] _].
  repeat keeps_step.
  eapply keeps_bind; [apply keeps_opt_readl | intros yt _].
  repeat keeps_step. now apply keeps_ret.
Qed.

End Returned.

(** X21. The arrays a call hands back are arrays the call created: the
    history and the predicted labels of [JDA.fit_predict], the predicted
    labels of [TCA.fit_predict] and the array [Z] that [Xs_new] and
    [Xt_new] of [TCA.fit] are views of all lie beyond the heap the call
    started with, also for the ['primal'] kernel, where [K] is [X]
    itself. *)
Theorem returned_arrays_are_new (eig : eigensolver) (s : JDA.self) (s' : TCA.self)
  (h : Heap.heap) (Xs Ys Xt : Heap.ref) (Yt : option Heap.ref) :
  match fst (HeapJDA.fit_predict eig s Xs Ys Xt Yt h) with
  | Ok (_, labels, history) =>
      (length h <= history)%nat /\ forall p, labels = Some p -> (length h <= p)%nat
  | Raise _ => True
  end
  /\ match fst (HeapTCA.fit_predict eig s' Xs Ys Xt Yt h) with
     | Ok (_, labels) => (length h <= labels)%nat
     | Raise _ => True
     end
  /\ match fst (HeapTCA.fit eig s' Xs Xt h) with
     | Ok (Z, _) => (length h <= Z)%nat
     | Raise _ => True
     end.
Proof.
  split; [|split].
  - pose proof (keeps_JDA_fit_predict_fresh eig (length h) s Xs Ys Xt Yt h (le_n _)) as [_ H].
    destruct (fst _) as [[[a y] l]|]; [exact H | exact I].
  - pose proof (keeps_TCA_fit_predict_fresh eig (length h) s' Xs Ys Xt Yt h (le_n _)) as [_ H].
    destruct (fst _) as [[a y]|]; [exact H | exact I].
  - pose proof (keeps_TCA_fit_fresh eig (length h) s' Xs Xt h (le_n _)) as [_ H].
    destruct (fst _) as [[Z ns]|]; [exact H | exact I].
Qed.

(** ** The centering matrix *)

Lemma nth_map_seq {A : Type} (f : nat -> A) (d : A) (n i : nat) :
  nth i (map f (seq 0 n)) d = if Nat.ltb i n then f i else d.
Proof.
  destruct (Nat.ltb_spec i n) as [Hi|Hi].
  - rewrite (nth_indep _ d (f O)) by (now rewrite length_map, length_seq).
    rewrite (map_nth f). now rewrite seq_nth.
  - apply nth_overflow. now rewrite length_map, length_seq.
Qed.

Lemma entry_eye (n i j : nat) :
  entry (eye n) i j = if Nat.ltb i n && Nat.ltb j n && Nat.eqb i j then 1 else 0.
Proof.
  unfold entry, eye. rewrite nth_map_seq.
  destruct (Nat.ltb i n); cbn [andb]; [|apply nth_nil_R].
  rewrite nth_map_seq. destruct (Nat.ltb j n); reflexivity.
Qed.

Lemma sum_indicator (i a k : nat) :
  sum (map (fun j => if Nat.eqb i j then 1 else 0) (seq a k))
  = if Nat.leb a i && Nat.ltb i (a + k) then 1 else 0.
Proof.
  revert a. induction k as [|k IH]; intros a.
  - simpl. destruct (Nat.leb_spec a i), (Nat.ltb_spec i (a + 0)); cbn [andb];
      try reflexivity; lia.
  - cbn [seq map]. change (sum (?x :: ?l)) with (x + sum l). rewrite IH.
    destruct (Nat.eqb_spec i a), (Nat.leb_spec (S a) i), (Nat.ltb_spec i (S a + k)),
      (Nat.leb_spec a i), (Nat.ltb_spec i (a + S k)); cbn [andb]; try lra; lia.
Qed.

Lemma sum_zip_minus (u v : vec) :
  length u = length v -> sum (zip_with Rminus u v) = sum u - sum v.
Proof.
  revert v. induction u as [|x u IH]; intros [|y v] H; try discriminate; simpl; [lra|].
  rewrite IH by (now injection H). lra.
Qed.

(** X22. [H = np.eye(n) - 1 / n * np.ones((n, n))], whenever [1 / n] does
    not raise, is a symmetric [n] by [n] array with [1 - 1 / n] on the
    diagonal, [-1 / n] elsewhere and rows that sum to zero: the centering
    matrix. *)
Theorem centering_matrix (n : nat) (h : R) :
  py_div 1 n = Ok h ->
  let H := msub (eye n) (map (smul h) (full n n 1)) in
  square n H /\ symmetric H /\ rows_sum_to_zero H
  /\ forall i j, (i < n)%nat -> (j < n)%nat ->
       entry H i j = (if Nat.eqb i j then 1 else 0) - 1 / INR n.
Proof.
  intros Hh H. apply py_div_ok in Hh. destruct Hh as [Hn ->].
  assert (HE : forall r, In r (eye n) -> length r = n /\ sum r = 1).
  { intros r Hr. unfold eye in Hr. apply in_map_iff in Hr. destruct Hr as (i & <- & Hi).
    apply in_seq in Hi. split; [now rewrite length_map, length_seq|].
    rewrite sum_indicator.
    destruct (Nat.leb_spec 0 i), (Nat.ltb_spec i (0 + n)); cbn [andb]; try reflexivity; lia. }
  assert (HF : forall r, In r (map (smul (1 / INR n)) (full n n 1))
                         -> length r = n /\ sum r = 1).
  { intros r Hr. apply in_map_iff in Hr. destruct Hr as (r0 & <- & Hr0).
    unfold full in Hr0. apply repeat_spec in Hr0. subst r0.
    unfold smul. split; [now rewrite length_map, repeat_length|].
    rewrite sum_scale_l. fold (ones n). rewrite sum_ones.
    field. apply not_0_INR. lia. }
  assert (HlE : @length (list R) (eye n) = n)
    by (unfold eye; now rewrite length_map, length_seq).
  assert (HlF : @length (list R) (map (smul (1 / INR n)) (full n n 1)) = n).
  { unfold full. now rewrite length_map, repeat_length. }
  assert (HlF' : @length vec (map (smul (1 / INR n)) (full n n 1)) = n) by exact HlF.
  assert (Hentry : forall i j,
             entry H i j = entry (eye n) i j
                           - entry (map (smul (1 / INR n)) (full n n 1)) i j).
  { intros i j. unfold H, entry, msub.
    rewrite (nth_zip_with (zip_with Rminus) _ _ [] [] [] i);
      [| transitivity n; [exact HlE | symmetry; exact HlF] | reflexivity].
    apply nth_zip_with; [|lra].
    destruct (Nat.lt_ge_cases i n) as [Hi|Hi].
    - destruct (HE (nth i (eye n) [])) as [H1 _]; [apply nth_In; lia|].
      destruct (HF (nth i (map (smul (1 / INR n)) (full n n 1)) [])) as [H2 _];
        [apply nth_In; lia|].
      transitivity n; [exact H1 | symmetry; exact H2].
    - rewrite (nth_overflow (eye n)) by lia.
      rewrite (nth_overflow (map _ _))
        by (unfold full; rewrite length_map, repeat_length; exact Hi).
      reflexivity. }
  assert (Hfull : forall i j,
             entry (map (smul (1 / INR n)) (full n n 1)) i j
             = if Nat.ltb i n && Nat.ltb j n then 1 / INR n else 0).
  { intros i j. unfold entry, full.
    destruct (Nat.ltb_spec i n) as [Hi|Hi]; cbn [andb].
    - rewrite (nth_indep _ [] (smul (1 / INR n) (repeat 1 n)))
        by (now rewrite length_map, repeat_length).
      rewrite (map_nth (smul (1 / INR n))), nth_repeat. unfold smul.
      destruct (Nat.ltb_spec j n) as [Hj|Hj].
      + rewrite (nth_indep _ 0 (1 / INR n * 1)) by (now rewrite length_map, repeat_length).
        rewrite (map_nth (fun x => 1 / INR n * x)), nth_repeat. ring.
      + apply nth_overflow. now rewrite length_map, repeat_length.
    - rewrite (nth_overflow (map _ _)) by (rewrite length_map, repeat_length; lia).
      apply nth_nil_R. }
  split; [|split; [|split]].
  - split.
    + unfold H, msub. rewrite zip_with_length. lia.
    + unfold H, msub.
      eapply (Forall_zip_with (fun r => length r = n) (fun r => length r = n)).
      * intros a b Ha Hb. cbv beta. rewrite zip_with_length. lia.
      * apply Forall_forall. intros r Hr. now apply HE.
      * apply Forall_forall. intros r Hr. now apply HF.
  - intros i j. rewrite !Hentry, !entry_eye, !Hfull.
    rewrite (Nat.eqb_sym j i).
    destruct (Nat.ltb i n), (Nat.ltb j n); reflexivity.
  - unfold rows_sum_to_zero, H, msub.
    eapply (Forall_zip_with (fun r => length r = n /\ sum r = 1)
              (fun r => length r = n /\ sum r = 1)).
    + intros a b [Hla Hsa] [Hlb Hsb]. cbv beta.
      rewrite sum_zip_minus by congruence. lra.
    + apply Forall_forall. intros r Hr. now apply HE.
    + apply Forall_forall. intros r Hr. now apply HF.
  - intros i j Hi Hj. rewrite Hentry, entry_eye, Hfull.
    destruct (Nat.ltb_spec i n), (Nat.ltb_spec j n); try lia. reflexivity.
Qed.

Lemma centering_matrix_witness :
  square 2 (msub (eye 2) (map (smul (1 / INR 2)) (full 2 2 1)))
  /\ symmetric (msub (eye 2) (map (smul (1 / INR 2)) (full 2 2 1)))
  /\ rows_sum_to_zero (msub (eye 2) (map (smul (1 / INR 2)) (full 2 2 1)))
  /\ forall i j, (i < 2)%nat -> (j < 2)%nat ->
       entry (msub (eye 2) (map (smul (1 / INR 2)) (full 2 2 1))) i j
       = (if Nat.eqb i j then 1 else 0) - 1 / INR 2.
Proof.
  apply (centering_matrix 2 (1 / INR 2)). reflexivity.
Defined.

(** ** CORAL *)

Lemma knn_predict_fitted (X : matrix) (y : list Z) (Xq : matrix) (r : list Z) :
  knn_predict X y Xq = Ok r -> length X = length y.
Proof.
  unfold knn_predict. destruct (Nat.eqb_spec (length X) (length y)); [auto | discriminate].
Qed.

(** X23. A call of [CORAL.fit_predict] on at least two source and two
    target samples returns only for one label per source sample and one
    true label per target sample; the labels it predicts are one per
    target row, each of them a source label, and the accuracy is between
    0 and 1. *)
Theorem CORAL_fit_predict_result (fmp : CORAL.fractional_power)
  (Xs : matrix) (Ys : list Z) (Xt : matrix) (Yt : option (list Z))
  (a : R) (y : list Z) :
  (2 <= length Xs)%nat -> (2 <= length Xt)%nat ->
  CORAL.fit_predict fmp Xs Ys Xt Yt = Ok (a, y) ->
  0 <= a <= 1 /\ length y = length Xt /\ Forall (fun v => In v Ys) y
  /\ length Ys = length Xs
  /\ exists yt, Yt = Some yt /\ length yt = length Xt.
Proof.
  intros _ _. unfold CORAL.fit_predict.
  destruct (CORAL.fit fmp Xs Xt) as [Xs_new|] eqn:Hfit; cbn [bind]; [|discriminate].
  destruct (knn_predict Xs_new Ys Xt) as [y'|] eqn:Hk; cbn [bind]; [|discriminate].
  destruct (accuracy_score Yt y') as [a'|] eqn:Hacc; cbn [bind]; [|discriminate].
  intros [= <- <-].
  split; [eapply accuracy_score_bounds; eauto|].
  pose proof (knn_predict_length _ _ _ _ Hk) as [Hlen _].
  split; [assumption|]. split; [eapply knn_predict_labels; eauto|].
  split.
  - apply knn_predict_fitted in Hk. rewrite <- Hk.
    revert Hfit. unfold CORAL.fit.
    destruct (fmp _ _) as [pa|]; cbn [bind]; [|discriminate].
    destruct (fmp _ _) as [pb|]; cbn [bind]; [|discriminate].
    intros [= <-]. unfold dot. now rewrite length_map.
  - unfold accuracy_score in Hacc. destruct Yt as [yt|]; [|discriminate].
    destruct (Nat.eqb_spec (length yt) (length y')); [|discriminate].
    exists yt. split; [reflexivity | congruence].
Qed.

(** Two equal source samples and two equal target samples: both
    covariances are zero, both matrices handed to the power are the
    identity, and the call returns. *)
Lemma CORAL_fit_predict_result_witness :
  madd (CORAL.cov (transpose [[1]; [1]])) (eye 1) = [[1]]
  /\ madd (CORAL.cov (transpose [[3]; [3]])) (eye 1) = [[1]]
  /\ CORAL.fit_predict power_of_identity [[1]; [1]] [1%Z; 1%Z] [[3]; [3]] (Some [1%Z; 2%Z])
     = Ok (INR 1 / INR 2, [1%Z; 1%Z])
  /\ 0 <= INR 1 / INR 2 <= 1 /\ length [1%Z; 1%Z] = length [[3]; [3]]
  /\ Forall (fun v => In v [1%Z; 1%Z]) [1%Z; 1%Z]
  /\ length [1%Z; 1%Z] = length [[1]; [1]]
  /\ exists yt, Some [1%Z; 2%Z] = Some yt /\ length yt = length [[3]; [3]].
Proof.
  assert (Hrun : CORAL.fit_predict power_of_identity [[1]; [1]] [1%Z; 1%Z] [[3]; [3]]
                   (Some [1%Z; 2%Z]) = Ok (INR 1 / INR 2, [1%Z; 1%Z])).
  { unfold CORAL.fit_predict, CORAL.fit, power_of_identity. cbn [bind].
    unfold knn_predict. cbn -[Rlt_dec sqdist INR Rdiv].
    repeat destruct (Rlt_dec _ _); reflexivity. }
  split; [|split; [|split; [exact Hrun|]]].
  - unfold CORAL.cov, madd, mscale, dotp, sum. cbn. do 2 f_equal. lra.
  - unfold CORAL.cov, madd, mscale, dotp, sum. cbn. do 2 f_equal. lra.
  - apply (CORAL_fit_predict_result power_of_identity [[1]; [1]] [1%Z; 1%Z] [[3]; [3]]
             (Some [1%Z; 2%Z])); [simpl; lia | simpl; lia | exact Hrun].
Defined.

(** *** The covariance matrices *)



















(** ** The shape of what [TCA.fit] returns *)

Lemma rows_dot (A B : matrix) :
  Forall (fun r => length r = snd (shape B)) (dot A B).
Proof.
  unfold dot. apply Forall_map. apply Forall_forall. intros r _.
  now rewrite length_map, length_seq.
Qed.

Lemma rows_div_cols (n : nat) (A : matrix) :
  Forall (fun r => length r = n) A ->
  Forall (fun r => length r = n) (div_cols A (col_norms A)).
Proof.
  intros H. destruct A as [|r0 A]; [constructor|].
  assert (Hv : length (col_norms (r0 :: A)) = n).
  { rewrite length_col_norms. cbn [shape snd hd]. now inversion H. }
  unfold div_cols. apply Forall_map. eapply Forall_impl; [|exact H].
  intros r Hr. cbv beta in *. rewrite zip_with_length, Hv, Hr. lia.
Qed.

Lemma rows_transpose (A : matrix) :
  Forall (fun r => length r = length A) (transpose A).
Proof.
  unfold transpose. apply Forall_map. apply Forall_forall. intros j _.
  unfold col. now rewrite length_map.
Qed.

(** X26. On arrays that each have a row and a column, when [TCA.fit]
    returns and keeps at least one component, [Xs_new] has one row per
    source sample, [Xt_new] one row per target sample, and all these rows
    have the same number of entries, the number of components kept. *)
Theorem TCA_fit_shapes (eig : eigensolver) (s : TCA.self) (Xs Xt Xs_new Xt_new : matrix) :
  has_entries Xs -> has_entries Xt ->
  TCA.fit eig s Xs Xt = Ok (Xs_new, Xt_new) ->
  Xs_new <> [] ->
  length Xs_new = length Xs /\ length Xt_new = length Xt
  /\ exists k, (0 < k)%nat /\ Forall (fun r => length r = k) (Xs_new ++ Xt_new).
Proof.
  intros Hs Ht. pose proof (pooled_columns Xs Xt Hs Ht) as Hn.
  apply has_entries_length in Hs, Ht.
  unfold TCA.fit.
  destruct (shape _) as [m n] eqn:Hshape. simpl in Hn. subst n.
  destruct (TCA.alignment _ _) as [M|]; cbn [bind]; [|discriminate].
  destruct (py_div 1 _) as [h|]; cbn [bind]; [|discriminate].
  destruct (TCA.kernel _ _ _ _) as [[K|]|] eqn:HK; cbn [bind]; try discriminate.
  rewrite <- kernel_no_X2 in HK. apply kernel_columns in HK. rewrite Hshape in HK.
  cbn [snd] in HK.
  destruct (eig _ _) as [[w V]|]; cbn [bind]; [|discriminate].
  set (Z0 := dot (transpose (basis (TCA.dim s) w V)) K).
  set (Z := div_cols Z0 (col_norms Z0)).
  assert (HZ : Forall (fun r => length r = (length Xs + length Xt)%nat) Z).
  { unfold Z. apply rows_div_cols. unfold Z0. rewrite <- HK. apply rows_dot. }
  clearbody Z. intros [= <- <-] Hne.
  destruct Z as [|r Z]; [now contradiction Hne|].
  assert (Hr : length r = (length Xs + length Xt)%nat) by (now inversion HZ).
  split; [|split].
  - rewrite length_transpose. cbn [map shape snd hd]. rewrite length_firstn. lia.
  - rewrite length_transpose. cbn [map shape snd hd]. rewrite length_skipn. lia.
  - exists (length (r :: Z)). split; [simpl; lia|].
    apply Forall_app. split.
    + eapply Forall_impl; [|apply rows_transpose]. intros a Ha. cbv beta in Ha.
      now rewrite length_map in Ha.
    + eapply Forall_impl; [|apply rows_transpose]. intros a Ha. cbv beta in Ha.
      now rewrite length_map in Ha.
Qed.

Lemma TCA_fit_shapes_witness :
  exists Xs_new Xt_new,
    TCA.fit eig_diag TCA.default [[1]] [[3]; [5]] = Ok (Xs_new, Xt_new)
    /\ length Xs_new = length [[1]] /\ length Xt_new = length [[3]; [5]]
    /\ exists k, (0 < k)%nat /\ Forall (fun r => length r = k) (Xs_new ++ Xt_new).
Proof.
  eexists. eexists. split; [reflexivity|].
  apply (TCA_fit_shapes eig_diag TCA.default [[1]] [[3]; [5]]).
  - discriminate.
  - discriminate.
  - reflexivity.
  - discriminate.
Defined.

(** ** The kernel evaluator *)

Section KernelEvaluator.

Import Heap.
Local Open Scope heap_scope.

Lemma JDA_kernel_sim_any ker h X1 X2 x1 x2 g :
  pts h X1 (F2 x1) -> opt_pts2 h X2 x2 ->
  agree (HeapJDA.kernel ker X1 X2 g h) (JDA.kernel ker x1 x2 g)
    (fun oK okv h' => match oK, okv with
                      | Some K, Some kv => pts h' K (F2 kv)
                      | None, None => True
                      | _, _ => False
                      end).
Proof.
  intros HX H2. unfold JDA.kernel, HeapJDA.kernel.
  destruct (falsy ker || is_str ker "primal"); [exact HX|].
  destruct X2 as [B|], x2 as [b|]; try contradiction; cbn [opt_pts2] in H2.
  - destruct (is_str ker "linear").
    { repeat hstep. hlift.
      match goal with t : bool |- _ => destruct t end; repeat hstep; cbn; assumption. }
    destruct (is_str ker "rbf"); [|exact I].
    repeat hstep. hlift.
    match goal with t : bool |- _ => destruct t end; repeat hstep; cbn; assumption.
  - destruct (is_str ker "linear").
    { repeat hstep. rewrite run_lift. cbn [JDA.truth bind].
      repeat hstep. cbn. assumption. }
    destruct (is_str ker "rbf"); [|exact I].
    repeat hstep. rewrite run_lift. cbn [JDA.truth bind].
    repeat hstep. cbn. assumption.
Qed.

Lemma agree_same_outcome (x x' : result (option ref) * heap) (p : result (option matrix)) :
  agree x p (fun oK okv h' => match oK, okv with
                              | Some K, Some kv => pts h' K (F2 kv)
                              | None, None => True
                              | _, _ => False
                              end) ->
  agree x' p (fun oK okv h' => match oK, okv with
                               | Some K, Some kv => pts h' K (F2 kv)
                               | None, None => True
                               | _, _ => False
                               end) ->
  same_outcome x x'.
Proof.
  unfold agree, same_outcome.
  destruct (fst x) as [[K|]|e], (fst x') as [[K'|]|e'], p as [[k|]|e0];
    try contradiction; try (intros; exact I); try congruence.
  intros H H'. eauto.
Qed.

End KernelEvaluator.

(** C7 (as amended). For a [kernel_type] that is neither false ([None],
    the empty string) nor one of ['primal'], ['linear'], ['rbf'], [kernel]
    raises nothing and returns [None], whatever [X1], [X2] and [gamma]
    are; a [fit_predict] with [T >= 1] on a source array of shape
    [(ns, d)] and a target array of shape [(nt, d)], [ns], [nt] and [d]
    positive, then raises [AttributeError] at [K.T].  For every kernel
    type, recognised or not, [kernel] changes none of the arrays that exist
    when it is called, and how it ends (the exception, or the value of the
    array it returns) is determined by the values of [X1] and [X2] and by
    [gamma]. *)
Theorem kernel_unrecognised (eig : eigensolver) (s : JDA.self)
  (X1 : matrix) (X2 : option matrix) (g : R) :
  falsy (JDA.kernel_type s) = false ->
  is_str (JDA.kernel_type s) "primal" = false ->
  is_str (JDA.kernel_type s) "linear" = false ->
  is_str (JDA.kernel_type s) "rbf" = false ->
  (0 < JDA.T s)%nat ->
  JDA.kernel (JDA.kernel_type s) X1 X2 g = Ok None
  /\ TCA.kernel (JDA.kernel_type s) X1 X2 g = Ok None
  /\ (forall (Xs : matrix) (Ys : list Z) (Xt : matrix) (Yt : option (list Z)) (ns nt d : nat),
        (0 < ns)%nat -> (0 < nt)%nat -> (0 < d)%nat ->
        of_shape ns d Xs -> of_shape nt d Xt ->
        JDA.fit_predict eig s Xs Ys Xt Yt = Raise AttributeError)
  /\ (forall (ker : option string) (h : Heap.heap) (A : Heap.ref) (B : option Heap.ref),
        exists fresh, snd (HeapJDA.kernel ker A B g h) = h ++ fresh)
  /\ (forall (ker : option string) (h h' : Heap.heap) (A A' : Heap.ref)
             (B B' : option Heap.ref) (x1 : matrix) (x2 : option matrix),
        pts h A (Heap.F2 x1) -> pts h' A' (Heap.F2 x1) ->
        opt_pts2 h B x2 -> opt_pts2 h' B' x2 ->
        same_outcome (HeapJDA.kernel ker A B g h) (HeapJDA.kernel ker A' B' g h')).
Proof.
  intros Hf Hp Hl Hr HT.
  assert (HK : forall X1 X2 g, JDA.kernel (JDA.kernel_type s) X1 X2 g = Ok None).
  { intros. unfold JDA.kernel. now rewrite Hf, Hp, Hl, Hr. }
  split; [apply HK|]. split.
  { unfold TCA.kernel. now rewrite Hf, Hp, Hl, Hr. }
  split; [|split].
  - intros Xs Ys Xt Yt ns nt d Hns Hnt Hd HXs HXt.
    pose proof (of_shape_has_entries ns d Xs HXs Hns Hd) as Hs.
    pose proof (of_shape_has_entries nt d Xt HXt Hnt Hd) as Ht.
    pose proof (pooled_columns Xs Xt Hs Ht) as Hn.
    apply has_entries_length in Hs, Ht.
    unfold JDA.fit_predict, JDA.run.
    destruct (shape _) as [m n]. simpl in Hn. subst n.
    unfold marginal, py_div.
    destruct (Nat.eqb_spec (length Xs) 0); [lia|].
    destruct (Nat.eqb_spec (length Xt) 0); [lia|].
    destruct (Nat.eqb_spec (length Xs + length Xt) 0); [lia|].
    cbn [bind].
    destruct (JDA.T s) as [|k]; [lia|]. cbn [JDA.loop].
    unfold JDA.iteration at 1. cbn [JDA.Y_tar_pseudo JDA.e].
    unfold JDA.alignment, JDA.alignment_raw. cbn [bind].
    rewrite HK. cbn [bind]. reflexivity.
  - intros ker h A B. apply same_below_app.
    apply (keeps_JDA_kernel (length h) ker A B g h). lia.
  - intros ker h h' A A' B B' x1 x2 HA HA' HB HB'.
    eapply agree_same_outcome.
    + apply (JDA_kernel_sim_any ker h A B x1 x2 g HA HB).
    + apply (JDA_kernel_sim_any ker h' A' B' x1 x2 g HA' HB').
Qed.

Lemma kernel_unrecognised_witness :
  JDA.kernel (Some "poly"%string) [[1]] None 1 = Ok None
  /\ TCA.kernel (Some "poly"%string) [[1]] None 1 = Ok None
  /\ JDA.fit_predict eig_diag (JDA.init (Some "poly"%string) 30 1 1 10)
       [[1; 2]] [1%Z] [[3; 4]; [5; 6]] (Some [1%Z; 1%Z]) = Raise AttributeError
  /\ (exists fresh,
        snd (HeapJDA.kernel (Some "linear"%string) 0%nat None 1 [Heap.F2 [[1; 2]]])
        = [Heap.F2 [[1; 2]]] ++ fresh)
  /\ same_outcome
       (HeapJDA.kernel (Some "linear"%string) 0%nat None 1 [Heap.F2 [[1; 2]]])
       (HeapJDA.kernel (Some "linear"%string) 1%nat None 1
          [Heap.L1 [1%Z]; Heap.F2 [[1; 2]]]).
Proof.
  destruct (kernel_unrecognised eig_diag (JDA.init (Some "poly"%string) 30 1 1 10)
              [[1]] None 1) as (H1 & H2 & H3 & H4 & H5); try reflexivity.
  { simpl. lia. }
  split; [exact H1|]. split; [exact H2|]. split; [|split].
  - apply (H3 [[1; 2]] [1%Z] [[3; 4]; [5; 6]] (Some [1%Z; 1%Z]) 1%nat 2%nat 2%nat);
      try lia; (split; [reflexivity | repeat constructor]).
  - apply H4.
  - apply (H5 (Some "linear"%string) _ _ _ _ None None [[1; 2]] None);
      try reflexivity; exact I.
Defined.
